(** * SkyOffice presence server: a shallow embedding and its verified properties

    The development follows the TypeScript/JavaScript sources of the room
    orchestrator:

    - [server/rooms/SkyOffice.ts]: the room class (NPC assignment engine,
      handshake, room directory);
    - [lib/managerToken]: the HMAC capability-token verifier;
    - [services/presenceSecret]: the layered secret resolver;
    - the compiled walkable-map module (A* path finder and the
      precomputed-grid loader).

    JavaScript strings are modelled as [string] (sequences of bytes; text is
    taken to be its UTF-8 encoding), JavaScript [Map]s with string keys as
    [gmap string _], [Set]s of strings as [gset string], and maps whose
    iteration order is observable as association lists in insertion order.
    Library primitives the sources call (SHA-256, HMAC, base64) are modelled
    from their standards in [Module Node]. *)

From Stdlib Require Import ZArith QArith Qround Ascii String List Bool Lia.
From stdpp Require Import base option list gmap strings fin_maps.

Local Open Scope string_scope.
Local Open Scope Z_scope.

(** ** JavaScript string primitives *)

Module JS.

(** [String.prototype.toLowerCase] on the ASCII range. *)
Definition lower_ascii (c : ascii) : ascii :=
  let n := N_of_ascii c in
  if ((65 <=? n) && (n <=? 90))%N then ascii_of_N (n + 32) else c.

Fixpoint toLowerCase (s : string) : string :=
  match s with
  | EmptyString => EmptyString
  | String c r => String (lower_ascii c) (toLowerCase r)
  end.

(** White space stripped by [String.prototype.trim]: the [WhiteSpace] and
    [LineTerminator] code points of ECMAScript, each as the bytes of its
    UTF-8 encoding.  One byte: TAB, LF, VT, FF, CR and SPACE. *)
Definition is_space (c : ascii) : bool :=
  let n := N_of_ascii c in
  ((9 <=? n) && (n <=? 13) || (n =? 32))%N.

(** Two bytes: U+00A0 (no-break space). *)
Definition is_space2 (c d : ascii) : bool :=
  ((N_of_ascii c =? 0xC2) && (N_of_ascii d =? 0xA0))%N.

(** Three bytes: U+1680, U+2000 to U+200A, U+2028, U+2029, U+202F, U+205F,
    U+3000 and U+FEFF. *)
Definition is_space3 (c d e : ascii) : bool :=
  let c := N_of_ascii c in
  let d := N_of_ascii d in
  let e := N_of_ascii e in
  ((c =? 0xE1) && (d =? 0x9A) && (e =? 0x80)
   || (c =? 0xE2) && (d =? 0x80)
      && ((0x80 <=? e) && (e <=? 0x8A) || (e =? 0xA8) || (e =? 0xA9) || (e =? 0xAF))
   || (c =? 0xE2) && (d =? 0x81) && (e =? 0x9F)
   || (c =? 0xE3) && (d =? 0x80) && (e =? 0x80)
   || (c =? 0xEF) && (d =? 0xBB) && (e =? 0xBF))%N.

Fixpoint trimStart (s : string) : string :=
  match s with
  | EmptyString => EmptyString
  | String c r =>
      if is_space c then trimStart r
      else match r with
           | EmptyString => s
           | String d r2 =>
               if is_space2 c d then trimStart r2
               else match r2 with
                    | EmptyString => s
                    | String e r3 => if is_space3 c d e then trimStart r3 else s
                    end
           end
  end.

(** A string of white space only. *)
Definition blank (s : string) : bool :=
  match trimStart s with EmptyString => true | _ => false end.

(** The string without its longest suffix of white space. *)
Fixpoint trimEnd (s : string) : string :=
  match s with
  | EmptyString => EmptyString
  | String c r => if blank s then EmptyString else String c (trimEnd r)
  end.

Definition trim (s : string) : string := trimEnd (trimStart s).

(** Truthiness of a string value: every string but the empty one. *)
Definition truthy (s : string) : bool :=
  match s with EmptyString => false | _ => true end.

(** [a || b] on strings. *)
Definition or_else (a b : string) : string := if truthy a then a else b.

(** Truthiness of [string | undefined | null]. *)
Definition truthy_opt (o : option string) : bool :=
  match o with Some s => truthy s | None => false end.

(** [s.split(sep)] for a one-character separator. *)
Fixpoint split (sep : ascii) (s : string) : list string :=
  match s with
  | EmptyString => [EmptyString]
  | String c r =>
      if Ascii.eqb c sep then EmptyString :: split sep r
      else match split sep r with
           | [] => [String c EmptyString]
           | p :: ps => String c p :: ps
           end
  end.

Fixpoint repeat_char (c : ascii) (n : nat) : string :=
  match n with O => EmptyString | S k => String c (repeat_char c k) end.

Fixpoint forallb_str (p : ascii -> bool) (s : string) : bool :=
  match s with
  | EmptyString => true
  | String c r => p c && forallb_str p r
  end.

Fixpoint map_str (f : ascii -> ascii) (s : string) : string :=
  match s with
  | EmptyString => EmptyString
  | String c r => String (f c) (map_str f r)
  end.

(** The bytes of a string, and back. *)
Fixpoint bytes_of (s : string) : list Z :=
  match s with
  | EmptyString => []
  | String c r => Z.of_N (N_of_ascii c) :: bytes_of r
  end.

Fixpoint string_of (bs : list Z) : string :=
  match bs with
  | [] => EmptyString
  | b :: r => String (ascii_of_N (Z.to_N (b mod 256))) (string_of r)
  end.

End JS.

(** ** Node's [crypto] and [Buffer] primitives

    [crypto.createHash('sha256')] (FIPS 180-4), [crypto.createHmac('sha256', key)]
    (RFC 2104), and the base64 codec of [Buffer]. *)

Module Node.

Definition w32 (x : Z) : Z := x mod 4294967296.

Definition rotr (n x : Z) : Z :=
  w32 (Z.lor (Z.shiftr x n) (Z.shiftl x (32 - n))).

Definition round_constants : list Z :=
  [ 1116352408; 1899447441; 3049323471; 3921009573;
    961987163; 1508970993; 2453635748; 2870763221;
    3624381080; 310598401; 607225278; 1426881987;
    1925078388; 2162078206; 2614888103; 3248222580;
    3835390401; 4022224774; 264347078; 604807628;
    770255983; 1249150122; 1555081692; 1996064986;
    2554220882; 2821834349; 2952996808; 3210313671;
    3336571891; 3584528711; 113926993; 338241895;
    666307205; 773529912; 1294757372; 1396182291;
    1695183700; 1986661051; 2177026350; 2456956037;
    2730485921; 2820302411; 3259730800; 3345764771;
    3516065817; 3600352804; 4094571909; 275423344;
    430227734; 506948616; 659060556; 883997877;
    958139571; 1322822218; 1537002063; 1747873779;
    1955562222; 2024104815; 2227730452; 2361852424;
    2428436474; 2756734187; 3204031479; 3329325298 ].

Definition initial_hash : list Z :=
  [ 1779033703; 3144134277; 1013904242; 2773480762;
    1359893119; 2600822924; 528734635; 1541459225 ].

Definition ssig0 (x : Z) : Z :=
  Z.lxor (Z.lxor (rotr 7 x) (rotr 18 x)) (Z.shiftr x 3).
Definition ssig1 (x : Z) : Z :=
  Z.lxor (Z.lxor (rotr 17 x) (rotr 19 x)) (Z.shiftr x 10).
Definition bsig0 (x : Z) : Z :=
  Z.lxor (Z.lxor (rotr 2 x) (rotr 13 x)) (rotr 22 x).
Definition bsig1 (x : Z) : Z :=
  Z.lxor (Z.lxor (rotr 6 x) (rotr 11 x)) (rotr 25 x).
Definition ch (x y z : Z) : Z :=
  Z.lxor (Z.land x y) (Z.land (Z.lxor x 4294967295) z).
Definition maj (x y z : Z) : Z :=
  Z.lxor (Z.lxor (Z.land x y) (Z.land x z)) (Z.land y z).

(** Big-endian words of a byte sequence (four bytes each). *)
Fixpoint words_of (bs : list Z) : list Z :=
  match bs with
  | a :: b :: c :: d :: r =>
      (a * 16777216 + b * 65536 + c * 256 + d) :: words_of r
  | _ => []
  end.

Definition bytes_of_word (w : Z) : list Z :=
  [ (w / 16777216) mod 256; (w / 65536) mod 256; (w / 256) mod 256; w mod 256 ].

(** The message schedule, newest word first: [extend n ws] adds [n] words to
    the reversed list [ws]. *)
Fixpoint extend (n : nat) (ws : list Z) : list Z :=
  match n with
  | O => ws
  | S k =>
      match ws with
      | w1 :: w2 :: _ =>
          let w7 := nth 6 ws 0 in
          let w15 := nth 14 ws 0 in
          let w16 := nth 15 ws 0 in
          extend k (w32 (ssig1 w2 + w7 + ssig0 w15 + w16) :: ws)
      | _ => ws
      end
  end.

Definition schedule (block : list Z) : list Z :=
  rev (extend 48 (rev block)).

Definition state8 : Type := (Z * Z * Z * Z * Z * Z * Z * Z)%type.

Definition round (st : state8) (kw : Z * Z) : state8 :=
  let '(a, b, c, d, e, f, g, h) := st in
  let t1 := h + bsig1 e + ch e f g + fst kw + snd kw in
  let t2 := bsig0 a + maj a b c in
  (w32 (t1 + t2), a, b, c, w32 (d + t1), e, f, g).

Definition compress (st : state8) (block : list Z) : state8 :=
  let '(a, b, c, d, e, f, g, h) := st in
  let '(a', b', c', d', e', f', g', h') :=
    fold_left round (combine round_constants (schedule block)) st in
  (w32 (a + a'), w32 (b + b'), w32 (c + c'), w32 (d + d'),
   w32 (e + e'), w32 (f + f'), w32 (g + g'), w32 (h + h')).

Fixpoint chunks16 (fuel : nat) (ws : list Z) : list (list Z) :=
  match fuel with
  | O => []
  | S k =>
      match ws with
      | [] => []
      | _ => firstn 16 ws :: chunks16 k (skipn 16 ws)
      end
  end.

Definition pad (msg : list Z) : list Z :=
  let len := Z.of_nat (length msg) in
  let zeros := Z.to_nat ((55 - len) mod 64) in
  let bits := len * 8 in
  msg ++ [128] ++ repeat 0 zeros
      ++ bytes_of_word (bits / 4294967296) ++ bytes_of_word (w32 bits).

(** [crypto.createHash('sha256').update(msg).digest()]: 32 bytes. *)
Definition sha256 (msg : list Z) : list Z :=
  let ws := words_of (pad msg) in
  let st0 :=
    match initial_hash with
    | [a; b; c; d; e; f; g; h] => (a, b, c, d, e, f, g, h)
    | _ => (0, 0, 0, 0, 0, 0, 0, 0)
    end in
  let '(a, b, c, d, e, f, g, h) :=
    fold_left compress (chunks16 (length ws) ws) st0 in
  flat_map bytes_of_word [a; b; c; d; e; f; g; h].

(** [crypto.createHmac('sha256', key).update(msg).digest()]: a key longer
    than the 64-byte block is hashed first, a shorter one is padded with
    zero bytes. *)
Definition hmac_key_block (key : list Z) : list Z :=
  let k := if (64 <? Z.of_nat (length key)) then sha256 key else key in
  k ++ repeat 0 (64 - length k)%nat.

Definition hmac_sha256 (key msg : list Z) : list Z :=
  let kb := hmac_key_block key in
  let ipad := map (Z.lxor 54) kb in
  let opad := map (Z.lxor 92) kb in
  sha256 (opad ++ sha256 (ipad ++ msg)).

(** [digest('hex')]. *)
Definition hex_digit (n : Z) : ascii :=
  ascii_of_N (Z.to_N (if n <? 10 then 48 + n else 87 + n)).

Fixpoint hex (bs : list Z) : string :=
  match bs with
  | [] => EmptyString
  | b :: r => String (hex_digit (b / 16)) (String (hex_digit (b mod 16)) (hex r))
  end.

(** *** base64

    [Buffer.from(s, 'base64')] is lenient: it accepts both alphabets
    ([+ /] and [- _]), skips every character that is in neither, stops at
    the first [=], and drops the unused low bits of a trailing group. *)

Definition in_range (lo hi : N) (c : ascii) : bool :=
  let n := N_of_ascii c in ((lo <=? n) && (n <=? hi))%N.

Definition unbase64 (c : ascii) : option Z :=
  let n := Z.of_N (N_of_ascii c) in
  if in_range 65 90 c then Some (n - 65)
  else if in_range 97 122 c then Some (n - 71)
  else if in_range 48 57 c then Some (n + 4)
  else if (n =? 43) || (n =? 45) then Some 62
  else if (n =? 47) || (n =? 95) then Some 63
  else None.

Fixpoint sextets_of (s : string) : list Z :=
  match s with
  | EmptyString => []
  | String c r =>
      if Ascii.eqb c "=" then []
      else match unbase64 c with
           | Some v => v :: sextets_of r
           | None => sextets_of r
           end
  end.

Fixpoint bytes_of_sextets (sx : list Z) : list Z :=
  match sx with
  | a :: b :: c :: d :: r =>
      (a * 4 + b / 16) :: ((b mod 16) * 16 + c / 4) :: ((c mod 4) * 64 + d)
        :: bytes_of_sextets r
  | [a; b; c] => [a * 4 + b / 16; (b mod 16) * 16 + c / 4]
  | [a; b] => [a * 4 + b / 16]
  | _ => []
  end.

Definition base64_decode (s : string) : list Z :=
  bytes_of_sextets (sextets_of s).

(** The URL-safe encoder without padding ([toString('base64url')]). *)
Definition base64url_char (v : Z) : ascii :=
  ascii_of_N (Z.to_N
    (if v <? 26 then v + 65
     else if v <? 52 then v + 71
     else if v <? 62 then v - 4
     else if v =? 62 then 45 else 95)).

Fixpoint sextets_of_bytes (bs : list Z) : list Z :=
  match bs with
  | a :: b :: c :: r =>
      (a / 4) :: ((a mod 4) * 16 + b / 16) :: ((b mod 16) * 4 + c / 64)
        :: (c mod 64) :: sextets_of_bytes r
  | [a; b] => [a / 4; (a mod 4) * 16 + b / 16; (b mod 16) * 4]
  | [a] => [a / 4; (a mod 4) * 16]
  | [] => []
  end.

Fixpoint string_of_sextets (sx : list Z) : string :=
  match sx with
  | [] => EmptyString
  | v :: r => String (base64url_char v) (string_of_sextets r)
  end.

Definition base64url_encode (bs : list Z) : string :=
  string_of_sextets (sextets_of_bytes bs).

End Node.

(** A JavaScript call either returns or throws. *)
Inductive result (E A : Type) : Type :=
| Return (a : A)
| Throw (e : E).
Arguments Return {E A} a.
Arguments Throw {E A} e.

(** ** [lib/managerToken]: the capability-token verifier *)

Module ManagerToken.

Record ManagerTokenPayload : Type := {
  agentId : option string;
  namespace : option string;
  namespaceSlug : option string;
  officeId : option string;
  exp : option Q;
  iat : option Q;
  jti : option string;
}.

(** The errors [verifyManagerToken] throws, and their messages. *)
Inductive TokenError : Type :=
| TokenRequired
| SecretMissing
| InvalidFormat
| InvalidSegmentEncoding
| InvalidSignature
| JsonSyntaxError
| TokenExpired.

Definition message (e : TokenError) : string :=
  match e with
  | TokenRequired => "Token is required"
  | SecretMissing => "Manager token secret not configured"
  | InvalidFormat => "Invalid token format"
  | InvalidSegmentEncoding => "Invalid base64url segment"
  | InvalidSignature => "Invalid token signature"
  | JsonSyntaxError => "Unexpected token in JSON"
  | TokenExpired => "Token expired"
  end.

(** [BASE64_URL_REGEXP = /^[A-Za-z0-9\-_]+$/]. *)
Definition is_base64url_char (c : ascii) : bool :=
  Node.in_range 65 90 c || Node.in_range 97 122 c || Node.in_range 48 57 c
  || Ascii.eqb c "-" || Ascii.eqb c "_".

Definition BASE64_URL_REGEXP_test (segment : string) : bool :=
  JS.truthy segment && JS.forallb_str is_base64url_char segment.

(** [value.replace(/-/g, '+').replace(/_/g, '/')], then padding with [=]
    up to a multiple of four. *)
Definition normalizeBase64Url (value : string) : string :=
  let normalized :=
    JS.map_str (fun c => if Ascii.eqb c "_" then "/"%char else c)
      (JS.map_str (fun c => if Ascii.eqb c "-" then "+"%char else c) value) in
  let pad := (String.length normalized mod 4)%nat in
  match pad with
  | O => normalized
  | _ => normalized ++ JS.repeat_char "=" (4 - pad)
  end.

(** [decodeBase64UrlSegment]: [None] stands for the thrown
    ['Invalid base64url segment']. *)
Definition decodeBase64UrlSegment (segment : string) : option string :=
  if BASE64_URL_REGEXP_test segment
  then Some (JS.string_of (Node.base64_decode (normalizeBase64Url segment)))
  else None.

(** [payload.exp && Date.now() / 1000 > payload.exp], with [Date.now()] in
    milliseconds. A zero [exp] is falsy. *)
Definition expired (now : Z) (payload : ManagerTokenPayload) : bool :=
  match exp payload with
  | Some e => negb (Qeq_bool e 0) && negb (Qle_bool (now # 1000) e)
  | None => false
  end.

Section Verifier.

(** [JSON.parse] followed by the cast to [ManagerTokenPayload]; [None]
    stands for a [SyntaxError]. *)
Variable JSON_parse : string -> option ManagerTokenPayload.

(** [now] is the value of [Date.now()] at the call. *)
Definition verifyManagerToken (now : Z) (token secret : string)
  : result TokenError ManagerTokenPayload :=
  if negb (JS.truthy token) then Throw TokenRequired
  else if negb (JS.truthy secret) then Throw SecretMissing
  else
    match JS.split "." token with
    | [encodedHeader; encodedBody; signature] =>
        let signingInput := encodedHeader ++ "." ++ encodedBody in
        let expectedBuffer :=
          Node.hmac_sha256 (JS.bytes_of secret) (JS.bytes_of signingInput) in
        let actualBuffer := Node.base64_decode (normalizeBase64Url signature) in
        if negb (length expectedBuffer =? length actualBuffer)%nat
        then Throw InvalidSignature
        else if negb (bool_decide (expectedBuffer = actualBuffer))
        then Throw InvalidSignature
        else
          match decodeBase64UrlSegment encodedBody with
          | None => Throw InvalidSegmentEncoding
          | Some payloadJson =>
              match JSON_parse payloadJson with
              | None => Throw JsonSyntaxError
              | Some payload =>
                  if expired now payload then Throw TokenExpired
                  else Return payload
              end
          end
    | _ => Throw InvalidFormat
    end.

End Verifier.

(** Modelled from the spec: the issuing side, which the server does not
    contain. The token is
    [base64url(header) + "." + base64url(payload) + "." +
     base64url(HMAC-SHA256(secret, header + "." + payload))], the signature
    being taken over the two encoded segments. *)
Definition sign (secret header payloadJson : string) : string :=
  let h := Node.base64url_encode (JS.bytes_of header) in
  let b := Node.base64url_encode (JS.bytes_of payloadJson) in
  let s := Node.base64url_encode
             (Node.hmac_sha256 (JS.bytes_of secret) (JS.bytes_of (h ++ "." ++ b))) in
  h ++ "." ++ b ++ "." ++ s.

(** A reader for flat JSON objects whose members are strings without
    escapes or unsigned integers, such as the payloads the manager issues;
    it instantiates [JSON_parse] in the examples. *)
Inductive member : Type :=
| MStr (k v : string)
| MNum (k : string) (n : Z).

Fixpoint read_until_quote (s : string) : option (string * string) :=
  match s with
  | EmptyString => None
  | String c r =>
      if Ascii.eqb c (ascii_of_N 34) then Some (EmptyString, r)
      else if Ascii.eqb c (ascii_of_N 92) then None
      else match read_until_quote r with
           | Some (v, rest) => Some (String c v, rest)
           | None => None
           end
  end.

Fixpoint read_digits (acc : Z) (s : string) : Z * string :=
  match s with
  | EmptyString => (acc, s)
  | String c r =>
      if Node.in_range 48 57 c
      then read_digits (acc * 10 + (Z.of_N (N_of_ascii c) - 48)) r
      else (acc, s)
  end.

(** Members after the opening brace; [fuel] bounds the number of members. *)
Fixpoint read_members (fuel : nat) (s : string) : option (list member) :=
  match fuel with
  | O => None
  | S k =>
      match s with
      | String q r =>
          if Ascii.eqb q (ascii_of_N 34) then
            match read_until_quote r with
            | Some (key, String colon (String d r2)) =>
                if negb (Ascii.eqb colon ":") then None
                else
                  let value :=
                    if Ascii.eqb d (ascii_of_N 34) then
                      match read_until_quote r2 with
                      | Some (v, rest) => Some (MStr key v, rest)
                      | None => None
                      end
                    else if Node.in_range 48 57 d then
                      let '(n, rest) := read_digits 0 (String d r2) in
                      Some (MNum key n, rest)
                    else None in
                  match value with
                  | Some (m, String sep rest) =>
                      if Ascii.eqb sep "}" then
                        match rest with EmptyString => Some [m] | _ => None end
                      else if Ascii.eqb sep "," then
                        match read_members k rest with
                        | Some ms => Some (m :: ms)
                        | None => None
                        end
                      else None
                  | _ => None
                  end
            | _ => None
            end
          else None
      | EmptyString => None
      end
  end.

Definition str_member (k : string) (ms : list member) : option string :=
  fold_left (fun acc m =>
    match m with
    | MStr k' v => if String.eqb k k' then Some v else acc
    | MNum k' _ => if String.eqb k k' then None else acc
    end) ms None.

Definition num_member (k : string) (ms : list member) : option Q :=
  fold_left (fun acc m =>
    match m with
    | MNum k' n => if String.eqb k k' then Some (inject_Z n) else acc
    | MStr k' _ => if String.eqb k k' then None else acc
    end) ms None.

Definition payload_of_members (ms : list member) : ManagerTokenPayload :=
  {| agentId := str_member "agentId" ms;
     namespace := str_member "namespace" ms;
     namespaceSlug := str_member "namespaceSlug" ms;
     officeId := str_member "officeId" ms;
     exp := num_member "exp" ms;
     iat := num_member "iat" ms;
     jti := str_member "jti" ms |}.

Definition parse_flat (s : string) : option ManagerTokenPayload :=
  match s with
  | String o r =>
      if negb (Ascii.eqb o "{") then None
      else match r with
           | String c EmptyString =>
               if Ascii.eqb c "}" then Some (payload_of_members []) else None
           | _ =>
               match read_members (String.length r) r with
               | Some ms => Some (payload_of_members ms)
               | None => None
               end
           end
  | EmptyString => None
  end.

End ManagerToken.

(** ** [services/presenceSecret]: the layered secret resolver *)

Module PresenceSecret.

Inductive PresenceSecretSource : Type := Static | TenantKeys | Registry.

Record PresenceSecretCacheEntry : Type := {
  secret : string;
  source : PresenceSecretSource;
  timestamp : Z;
}.

(** What a resolution asks of its surroundings beyond the static variables:
    the office-id chain, the resolver's cache, and the two remote tiers. *)
Inductive Lookup : Type :=
| OfficeIdLookup
| CacheLookup (key : string)
| TenantKeysLookup (officeId : string)
| RegistryLookup (agentId officeId : string).

Definition STATIC_SECRET_VARS : list string :=
  [ "SKYOFFICE_PRESENCE_SHARED_SECRET"; "SKYOFFICE_PRESENCE_SECRET";
    "PRESENCE_SHARED_SECRET"; "SHARED_SECRET" ].

Definition OFFICE_ID_VARS : list string :=
  [ "REGISTRY_OFFICE_ID"; "OFFICE_ID"; "SKYOFFICE_OFFICE_ID" ].

(** A tenant key as [extractSkyofficeSecretPaths] reads it:
    [metadata.paths] when it is an array ([None] otherwise; an entry that
    is not a string is [None]) and [secretsPath] when it is a string. *)
Record RegistryTenantKey : Type := {
  metadata_paths : option (list (option string));
  secretsPath : option string;
}.

(** The trimmed string entries of [metadata.paths], then the trimmed
    [secretsPath] if that is not blank. *)
Definition secret_path_candidates (key : RegistryTenantKey) : list string :=
  map JS.trim (omap id (default [] (metadata_paths key)))
  ++ match secretsPath key with
     | Some p => if JS.truthy (JS.trim p) then [JS.trim p] else []
     | None => []
     end.

(** The loop over the candidates, with its [seen] set. *)
Fixpoint unique_entries (seen : gset string) (candidates : list string) : list string :=
  match candidates with
  | [] => []
  | entry :: rest =>
      if negb (JS.truthy entry) then unique_entries seen rest
      else if bool_decide (entry ∈ seen) then unique_entries seen rest
      else entry :: unique_entries (seen ∪ {[entry]}) rest
  end.

Definition extractSkyofficeSecretPaths (key : option RegistryTenantKey) : list string :=
  match key with
  | None => []
  | Some k => unique_entries ∅ (secret_path_candidates k)
  end.

Section Resolver.

(** [process.env]. *)
Variable env : string -> option string.
(** [Date.now()]. *)
Variable now : Z.
(** [SECRET_CACHE_TTL_MS], read once from the environment when the module
    loads (five minutes by default). *)
Variable SECRET_CACHE_TTL_MS : Z.
(** The awaited results of the two remote tiers. *)
Variable loadSecretFromTenantKeys : string -> option string.
Variable fetchPresenceSecretFromRegistry : string -> string -> option string.

(** [process.env.A || process.env.B || ... || null]. *)
Fixpoint env_chain (names : list string) : option string :=
  match names with
  | [] => None
  | n :: rest =>
      match env n with
      | Some v => if JS.truthy v then Some v else env_chain rest
      | None => env_chain rest
      end
  end.

Definition resolvePresenceSecret
    (secretCache : gmap string PresenceSecretCacheEntry)
    (agentId : string) (officeId : option string)
  : option PresenceSecretCacheEntry
    * gmap string PresenceSecretCacheEntry * list Lookup :=
  match env_chain STATIC_SECRET_VARS with
  | Some staticSecret =>
      (Some {| secret := staticSecret; source := Static; timestamp := now |},
       secretCache, [])
  | None =>
      let resolvedOfficeId :=
        if JS.truthy_opt officeId then officeId else env_chain OFFICE_ID_VARS in
      match resolvedOfficeId with
      | None => (None, secretCache, [OfficeIdLookup])
      | Some office =>
          let cacheKey := office ++ ":" ++ JS.toLowerCase agentId in
          let fresh :=
            match secretCache !! cacheKey with
            | Some e => if now - timestamp e <? SECRET_CACHE_TTL_MS then Some e else None
            | None => None
            end in
          match fresh with
          | Some cachedEntry =>
              (Some cachedEntry, secretCache, [OfficeIdLookup; CacheLookup cacheKey])
          | None =>
              let tenantSecret := loadSecretFromTenantKeys office in
              if JS.truthy_opt tenantSecret then
                let entry :=
                  {| secret := default "" tenantSecret;
                     source := TenantKeys; timestamp := now |} in
                (Some entry, <[cacheKey := entry]> secretCache,
                 [OfficeIdLookup; CacheLookup cacheKey; TenantKeysLookup office])
              else
                let registrySecret := fetchPresenceSecretFromRegistry agentId office in
                if JS.truthy_opt registrySecret then
                  let entry :=
                    {| secret := default "" registrySecret;
                       source := Registry; timestamp := now |} in
                  (Some entry, <[cacheKey := entry]> secretCache,
                   [OfficeIdLookup; CacheLookup cacheKey; TenantKeysLookup office;
                    RegistryLookup agentId office])
                else
                  (None, secretCache,
                   [OfficeIdLookup; CacheLookup cacheKey; TenantKeysLookup office;
                    RegistryLookup agentId office])
          end
      end
  end.

End Resolver.

End PresenceSecret.

(** ** [server/rooms/SkyOffice.ts]: the room *)

Module SkyOffice.

(** The replicated [Player] schema. *)
Module Player.
Record t : Type := {
  name : string;
  x : Q;
  y : Q;
  anim : string;
  readyToConnect : bool;
  videoConnected : bool;
}.
End Player.

(** [NpcDeploymentPayload]. The opaque [agentMetadata] blob, which no
    lookup or guard reads, is left out. *)
Module Npc.
Record t : Type := {
  agentId : string;
  registryAgentId : option string;
  name : string;
  avatarId : string;
  workstationId : string;
  position : option (Q * Q);
  role : option string;
  officeId : option string;
  computerId : option string;
  voiceAgentId : option string;
  namespaceSlug : option string;
}.
End Npc.

(** [NpcAssignment]: the payload (with [namespaceSlug], [role] and
    [computerId] as [upsertNpc] sets them), the room id and the time. *)
Module Assignment.
Record t : Type := {
  npc : Npc.t;
  roomId : string;
  assignedAt : string;
}.
End Assignment.

(** A row of the [npcs] table ([PersistedNpc]). *)
Module Persisted.
Record t : Type := {
  agentId : string;
  registryAgentId : option string;
  officeId : option string;
  name : string;
  avatarId : string;
  workstationId : string;
  positionX : Q;
  positionY : Q;
  role : option string;
  computerId : option string;
  roomName : option string;
  voiceAgentId : option string;
  namespaceSlug : option string;
}.
End Persisted.

Record NpcUpsertOptions : Type := {
  skipPersistence : bool;
  skipRegistrySync : bool;
}.

(** The [update] argument of [updateNpcState]; [None] stands for a member
    that is not given. *)
Record NpcStateUpdate : Type := {
  upd_position : option (Q * Q);
  upd_anim : option string;
  upd_posture : option string;
  upd_workstationId : option string;
  upd_voiceAgentId : option string;
}.

Record Room : Type := {
  roomId : string;
  name : string;
  description : string;
  password : option string;
  namespaceSlug : option string;
  players : gmap string Player.t;
  computers : gmap string (gset string);
  whiteboards : gmap string (gset string);
  npcAssignments : gmap string Assignment.t;
  (** the transport's count of connected clients *)
  clientCount : nat;
  (** [clientsOnlineCount], [npcOnlineCount], [totalOnlineCount] *)
  presence : nat * nat * nat;
}.

Definition set_players (f : gmap string Player.t -> gmap string Player.t) (r : Room) : Room :=
  {| roomId := roomId r; name := name r; description := description r;
     password := password r; namespaceSlug := namespaceSlug r;
     players := f (players r); computers := computers r;
     whiteboards := whiteboards r; npcAssignments := npcAssignments r;
     clientCount := clientCount r; presence := presence r |}.

Definition set_computers
    (f : gmap string (gset string) -> gmap string (gset string)) (r : Room) : Room :=
  {| roomId := roomId r; name := name r; description := description r;
     password := password r; namespaceSlug := namespaceSlug r;
     players := players r; computers := f (computers r);
     whiteboards := whiteboards r; npcAssignments := npcAssignments r;
     clientCount := clientCount r; presence := presence r |}.

Definition set_npcAssignments
    (f : gmap string Assignment.t -> gmap string Assignment.t) (r : Room) : Room :=
  {| roomId := roomId r; name := name r; description := description r;
     password := password r; namespaceSlug := namespaceSlug r;
     players := players r; computers := computers r;
     whiteboards := whiteboards r; npcAssignments := f (npcAssignments r);
     clientCount := clientCount r; presence := presence r |}.

Definition set_whiteboards
    (f : gmap string (gset string) -> gmap string (gset string)) (r : Room) : Room :=
  {| roomId := roomId r; name := name r; description := description r;
     password := password r; namespaceSlug := namespaceSlug r;
     players := players r; computers := computers r;
     whiteboards := f (whiteboards r); npcAssignments := npcAssignments r;
     clientCount := clientCount r; presence := presence r |}.

(** [updatePresenceMetadata]. *)
Definition updatePresenceMetadata (r : Room) : Room :=
  let npcCount := size (npcAssignments r) in
  {| roomId := roomId r; name := name r; description := description r;
     password := password r; namespaceSlug := namespaceSlug r;
     players := players r; computers := computers r;
     whiteboards := whiteboards r; npcAssignments := npcAssignments r;
     clientCount := clientCount r;
     presence := (clientCount r, npcCount, (clientCount r + npcCount)%nat) |}.

(** What the room does to the outside: Registry patches, log warnings, the
    secret resolution and the token verification of a handshake, the
    password comparison, and the opening snapshot sent to a client. *)
Inductive Effect : Type :=
| RegistryPatch (officeId registryAgentId : string) (isPresentInSkyOffice : bool)
| Warning (message : string)
| SecretResolution (agentId : string) (officeId : option string)
| TokenVerification (token secret : string)
| PasswordComparison
| SendRoomData (sessionId : string).

(** A room together with the [npcs] table and the effects so far. *)
Record World : Type := {
  room : Room;
  npcStore : list Persisted.t;
  effects : list Effect;
}.

Definition with_room (f : Room -> Room) (w : World) : World :=
  {| room := f (room w); npcStore := npcStore w; effects := effects w |}.
Definition with_store (f : list Persisted.t -> list Persisted.t) (w : World) : World :=
  {| room := room w; npcStore := f (npcStore w); effects := effects w |}.
Definition emit (e : Effect) (w : World) : World :=
  {| room := room w; npcStore := npcStore w; effects := effects w ++ [e] |}.

Definition getNpcKey (agentId : string) : string := "npc-" ++ agentId.

Definition normaliseNpcRole (role : option string) : string :=
  match role with
  | None => "GM"
  | Some r =>
      if negb (JS.truthy r) then "GM"
      else
        let trimmed := JS.trim r in
        if negb (JS.truthy trimmed) then "GM"
        else if String.eqb (JS.toLowerCase trimmed) "office secretary" then "GM"
        else trimmed
  end.

(** [avatarAnimMap[avatarId] || 'adam_idle_down']. *)
Definition getIdleAnim (avatarId : string) : string :=
  if existsb (String.eqb avatarId) ["adam"; "ash"; "lucy"; "nancy"]
  then avatarId ++ "_idle_down" else "adam_idle_down".

Definition getSittingAnim (avatarId : string) : string := avatarId ++ "_sit_down".

(** [o || null] and [a || b] on optional strings. *)
Definition or_null (o : option string) : option string :=
  if JS.truthy_opt o then o else None.
Definition opt_or (a b : option string) : option string :=
  if JS.truthy_opt a then a else b.

(** [NpcStore.saveNpc] ([INSERT OR REPLACE]) and [NpcStore.removeNpc]. *)
Definition saveNpc (row : Persisted.t) (rows : list Persisted.t) : list Persisted.t :=
  if negb (JS.truthy (Persisted.agentId row)) then rows
  else List.filter (fun r => negb (String.eqb (Persisted.agentId r) (Persisted.agentId row))) rows
         ++ [row].

Definition removeNpcPersist (agentId : string) (rows : list Persisted.t) : list Persisted.t :=
  if negb (JS.truthy agentId) then rows
  else List.filter (fun r => negb (String.eqb (Persisted.agentId r) agentId)) rows.

Section Room.

(** [new Player()]: the schema's defaults (the schema module is outside the
    sources at hand). *)
Variable new_Player : Player.t.
(** [resolveComputerIdFromWorkstation] of the shared seat table. *)
Variable resolveComputerIdFromWorkstation : string -> option string.
(** [new Date().toISOString()]. *)
Variable nowIso : string.

(** The room as [onCreate] leaves it, as far as the NPC engine and the
    handshake read it: five computers, three whiteboards, no player, no
    assignment, and the namespace trimmed and lowercased. [passwordHash] is
    the stored hash (restored, or freshly computed by bcrypt). *)
Definition COMPUTER_IDS : list string := ["0"; "1"; "2"; "3"; "4"].

Definition onCreate (roomId name description : string)
    (namespaceSlugOpt : option string) (passwordHash : option string) : Room :=
  let resolvedNamespace :=
    match namespaceSlugOpt with
    | Some ns => if JS.truthy (JS.trim ns) then JS.trim ns else name
    | None => name
    end in
  {| roomId := roomId; name := name;
     description :=
       if JS.truthy (JS.trim description) then JS.trim description
       else name ++ " workspace";
     password := or_null passwordHash;
     namespaceSlug := Some (JS.toLowerCase (JS.trim resolvedNamespace));
     players := ∅;
     computers := list_to_map (map (fun k => (k, ∅)) COMPUTER_IDS);
     whiteboards := list_to_map (map (fun k => (k, ∅)) ["0"; "1"; "2"]);
     npcAssignments := ∅;
     clientCount := 0;
     presence := (0, 0, 0)%nat |}.

(** A room just created, with the [npcs] table as it stands. *)
Definition created (r : Room) (rows : list Persisted.t) : World :=
  {| room := r; npcStore := rows; effects := [] |}.

(** [sessionKey] is in the [connectedUser] set of computer [c]. *)
Definition occupies (r : Room) (sessionKey c : string) : Prop :=
  exists users, computers r !! c = Some users /\ sessionKey ∈ users.

(** [assignNpcToWorkstation(playerKey, payload)], which reads the payload's
    [workstationId] and [computerId]. *)
Definition assignNpcToWorkstation (playerKey workstationId : string)
    (payloadComputerId : option string) (r : Room) : Room * option string :=
  if negb (JS.truthy workstationId) then (r, None)
  else
    let computerId :=
      opt_or payloadComputerId (resolveComputerIdFromWorkstation workstationId) in
    if negb (JS.truthy_opt computerId) then (r, None)
    else
      let cid := default "" computerId in
      (* Remove from any previous computer occupancy *)
      let r1 := set_computers (fmap (fun users => users ∖ {[playerKey]})) r in
      match computers r1 !! cid with
      | None => (r1, None)
      | Some targetComputer =>
          (set_computers (insert cid (targetComputer ∪ {[playerKey]})) r1, Some cid)
      end.

(** [syncNpcToRegistry] and [syncNpcRemovalFromRegistry]: a patch goes out
    only when both the office and the Registry's agent id are known. *)
Definition syncNpcToRegistry (a : Assignment.t) (w : World) : World :=
  match Npc.officeId (Assignment.npc a), Npc.registryAgentId (Assignment.npc a) with
  | Some o, Some g =>
      if JS.truthy o && JS.truthy g then emit (RegistryPatch o g true) w else w
  | _, _ => w
  end.

Definition syncNpcRemovalFromRegistry (a : Assignment.t) (w : World) : World :=
  match Npc.officeId (Assignment.npc a), Npc.registryAgentId (Assignment.npc a) with
  | Some o, Some g =>
      if JS.truthy o && JS.truthy g then emit (RegistryPatch o g false) w else w
  | _, _ => w
  end.

Definition upsertNpc (payload : Npc.t) (options : NpcUpsertOptions) (w : World)
  : World * Assignment.t :=
  let r := room w in
  let key := getNpcKey (Npc.agentId payload) in
  let player0 := default new_Player (players r !! key) in
  let px := match Npc.position payload with Some p => fst p | None => Player.x player0 end in
  let py := match Npc.position payload with Some p => snd p | None => Player.y player0 end in
  let '(r1, assignedComputerId) :=
    assignNpcToWorkstation key (Npc.workstationId payload) (Npc.computerId payload) r in
  let seated := JS.truthy_opt assignedComputerId || JS.truthy_opt (Npc.computerId payload) in
  let player :=
    {| Player.name := Npc.name payload; Player.x := px; Player.y := py;
       Player.anim :=
         if seated then getSittingAnim (Npc.avatarId payload)
         else getIdleAnim (Npc.avatarId payload);
       Player.readyToConnect := true; Player.videoConnected := false |} in
  let npcRole := normaliseNpcRole (Npc.role payload) in
  let assignment :=
    {| Assignment.npc :=
         {| Npc.agentId := Npc.agentId payload;
            Npc.registryAgentId := Npc.registryAgentId payload;
            Npc.name := Npc.name payload;
            Npc.avatarId := Npc.avatarId payload;
            Npc.workstationId := Npc.workstationId payload;
            Npc.position := Npc.position payload;
            Npc.role := Some npcRole;
            Npc.officeId := Npc.officeId payload;
            Npc.computerId := opt_or assignedComputerId (Npc.computerId payload);
            Npc.voiceAgentId := Npc.voiceAgentId payload;
            Npc.namespaceSlug :=
              Some (default (name r)
                      (opt_or (Npc.namespaceSlug payload) (or_null (namespaceSlug r)))) |};
       Assignment.roomId := roomId r;
       Assignment.assignedAt := nowIso |} in
  let r2 := set_players (insert key player) r1 in
  let r3 := set_npcAssignments (insert (Npc.agentId payload) assignment) r2 in
  let w1 := with_room (fun _ => r3) w in
  let w2 :=
    if skipPersistence options then w1
    else with_store (saveNpc
           {| Persisted.agentId := Npc.agentId payload;
              Persisted.registryAgentId := or_null (Npc.registryAgentId payload);
              Persisted.officeId := or_null (Npc.officeId payload);
              Persisted.name := Npc.name payload;
              Persisted.avatarId := Npc.avatarId payload;
              Persisted.workstationId := Npc.workstationId payload;
              Persisted.positionX := px;
              Persisted.positionY := py;
              Persisted.role := Some npcRole;
              Persisted.computerId := or_null (Npc.computerId (Assignment.npc assignment));
              Persisted.roomName := Some (name r);
              Persisted.voiceAgentId := or_null (Npc.voiceAgentId payload);
              Persisted.namespaceSlug := or_null (Npc.namespaceSlug (Assignment.npc assignment)) |})
           w1 in
  let w3 := if skipRegistrySync options then w2 else syncNpcToRegistry assignment w2 in
  (with_room updatePresenceMetadata w3, assignment).

Definition getNpcAssignments (r : Room) : list Assignment.t :=
  map snd (map_to_list (npcAssignments r)).

Definition removeNpc (agentId : string) (w : World) : World * bool :=
  let r := room w in
  let key := getNpcKey agentId in
  let assignment := npcAssignments r !! agentId in
  let existed := bool_decide (is_Some assignment) in
  let r1 := set_npcAssignments (delete agentId) r in
  (* remove from players map *)
  let r2 := set_players (delete key) r1 in
  (* remove any computer occupancy *)
  let r3 := set_computers (fmap (fun users => users ∖ {[key]})) r2 in
  (* remove persistence *)
  let w1 := with_store (removeNpcPersist agentId) (with_room (fun _ => r3) w) in
  let w2 := match assignment with
            | Some a => syncNpcRemovalFromRegistry a w1
            | None => w1
            end in
  (with_room updatePresenceMetadata w2, existed).

(** [updateNpcState(agentId, update)]: the assignment and, if there is
    one, the player are rewritten in place; the seat is not. *)
Definition updateNpcState (agentId : string) (update : NpcStateUpdate) (w : World)
  : World * option (Assignment.t * option Player.t) :=
  let r := room w in
  let key := getNpcKey agentId in
  let player := players r !! key in
  match npcAssignments r !! agentId with
  | None => (w, None)
  | Some assignment =>
      let n := Assignment.npc assignment in
      let anim (pl : Player.t) :=
        if JS.truthy_opt (upd_anim update) then default "" (upd_anim update)
        else if JS.truthy_opt (upd_posture update) then
          if bool_decide (upd_posture update = Some "sit")
          then getSittingAnim (Npc.avatarId n)
          else getIdleAnim (Npc.avatarId n)
        else Player.anim pl in
      let player' :=
        (fun pl =>
           {| Player.name := Player.name pl;
              Player.x := match upd_position update with
                          | Some p => fst p
                          | None => Player.x pl
                          end;
              Player.y := match upd_position update with
                          | Some p => snd p
                          | None => Player.y pl
                          end;
              Player.anim := anim pl;
              Player.readyToConnect := Player.readyToConnect pl;
              Player.videoConnected := Player.videoConnected pl |}) <$> player in
      let n' :=
        {| Npc.agentId := Npc.agentId n;
           Npc.registryAgentId := Npc.registryAgentId n;
           Npc.name := Npc.name n;
           Npc.avatarId := Npc.avatarId n;
           Npc.workstationId := default (Npc.workstationId n) (upd_workstationId update);
           Npc.position := match upd_position update with
                           | Some p => Some p
                           | None => Npc.position n
                           end;
           Npc.role := Npc.role n;
           Npc.officeId := Npc.officeId n;
           Npc.computerId := Npc.computerId n;
           Npc.voiceAgentId := match upd_voiceAgentId update with
                               | Some v => Some v
                               | None => Npc.voiceAgentId n
                               end;
           Npc.namespaceSlug := Npc.namespaceSlug n |} in
      let assignment' :=
        {| Assignment.npc := n'; Assignment.roomId := Assignment.roomId assignment;
           Assignment.assignedAt := nowIso |} in
      let r1 :=
        set_players (fun ps => match player' with
                               | Some pl => <[key := pl]> ps
                               | None => ps
                               end) r in
      let r2 := set_npcAssignments (insert agentId assignment') r1 in
      let row :=
        {| Persisted.agentId := Npc.agentId n';
           Persisted.registryAgentId := or_null (Npc.registryAgentId n');
           Persisted.officeId := or_null (Npc.officeId n');
           Persisted.name := Npc.name n';
           Persisted.avatarId := Npc.avatarId n';
           Persisted.workstationId := Npc.workstationId n';
           Persisted.positionX :=
             match Npc.position n' with
             | Some p => fst p
             | None => match player' with Some pl => Player.x pl | None => 0 end
             end;
           Persisted.positionY :=
             match Npc.position n' with
             | Some p => snd p
             | None => match player' with Some pl => Player.y pl | None => 0 end
             end;
           Persisted.role := Npc.role n';
           Persisted.computerId := or_null (Npc.computerId n');
           Persisted.roomName := Some (name r);
           Persisted.voiceAgentId := or_null (Npc.voiceAgentId n');
           Persisted.namespaceSlug := or_null (Npc.namespaceSlug n') |} in
      let w1 := with_store (saveNpc row) (with_room (fun _ => r2) w) in
      let w2 := syncNpcToRegistry assignment' w1 in
      (with_room updatePresenceMetadata w2, Some (assignment', player'))
  end.

(** The two operations of the NPC engine, for sequences of calls. *)
Inductive NpcOp : Type :=
| Upsert (payload : Npc.t) (options : NpcUpsertOptions)
| Remove (agentId : string).

Definition run_op (w : World) (op : NpcOp) : World :=
  match op with
  | Upsert payload options => fst (upsertNpc payload options w)
  | Remove agentId => fst (removeNpc agentId w)
  end.

Definition run_ops (ops : list NpcOp) (w : World) : World := fold_left run_op ops w.

(** *** The room directory: [activeRooms] in insertion order, and
    [namespaceRooms] as the room id registered under each slug. *)
Record Directory : Type := {
  activeRooms : list (string * Room);
  namespaceRooms : gmap string string;
}.

Definition findRoomWithAgent (d : Directory) (agentId : string) : option Room :=
  snd <$> List.find
    (fun entry =>
       existsb (fun a => String.eqb (Npc.agentId (Assignment.npc a)) agentId)
         (getNpcAssignments (snd entry)))
    (activeRooms d).

(** [removeNpcEverywhere(agentId)]: [removeNpc] in every active room, in
    insertion order, over the one [npcs] table and with one trail of
    effects; the result tells whether any room held the agent. *)
Definition removeNpcEverywhere (agentId : string) (d : Directory)
    (table : list Persisted.t) (log : list Effect)
  : Directory * list Persisted.t * list Effect * bool :=
  let step (acc : list (string * Room) * list Persisted.t * list Effect * bool)
           (entry : string * Room) :=
    let '(visited, table, log, removed) := acc in
    let res := removeNpc agentId {| room := snd entry; npcStore := table; effects := log |} in
    ((visited ++ [(fst entry, room (fst res))])%list, npcStore (fst res), effects (fst res),
     removed || snd res) in
  let '(rooms, table', log', removed) :=
    fold_left step (activeRooms d) ([], table, log, false) in
  ({| activeRooms := rooms; namespaceRooms := namespaceRooms d |}, table', log', removed).

(** [getRoomByNamespaceSlug(slug)], as the id of the room found. *)
Definition getRoomByNamespaceSlug (d : Directory) (slug : string) : option string :=
  namespaceRooms d !! JS.toLowerCase (JS.trim slug).

(** *** Joining: [onAuth], [validateNpcHandshake], [onJoin] *)

(** [bcrypt.compare(plain, hash)]. *)
Variable bcrypt_compare : string -> string -> bool.
(** The awaited result of [resolvePresenceSecret(agentId, officeId)] in the
    server's environment. *)
Variable resolvePresenceSecret :
  string -> option string -> option PresenceSecret.PresenceSecretCacheEntry.
(** [JSON.parse] of a token body, and [Date.now()]. *)
Variable JSON_parse : string -> option ManagerToken.ManagerTokenPayload.
Variable now : Z.

(** A value of the join options: a string, [undefined], or something else
    (of which only the truthiness is read). *)
Inductive JsValue : Type :=
| JsUndefined
| JsString (s : string)
| JsOther (truthy : bool).

Record JoinOptions : Type := {
  opt_namespaceSlug : JsValue;
  opt_name : JsValue;
  opt_password : JsValue;
  opt_agentId : JsValue;
  opt_auth_managerToken : JsValue;
  opt_managerToken : JsValue;
}.

(** What [validateNpcHandshake] attaches to [client.userData]. *)
Record UserData : Type := {
  npcAgentId : string;
  npcKey : string;
  managerTokenPayload : ManagerToken.ManagerTokenPayload;
  presenceSecretSource : PresenceSecret.PresenceSecretSource;
}.

Record Client : Type := {
  sessionId : string;
  userData : option UserData;
}.

Inductive Failure : Type :=
| ServerError (code : Z) (message : string)
| JsError (message : string).

(** [typeof v === 'string' && f(v)], a string or a falsy value; the empty
    string stands for the falsy one. *)
Definition string_and (f : string -> string) (v : JsValue) : string :=
  match v with JsString s => f s | _ => "" end.

Definition js_truthy (v : JsValue) : bool :=
  match v with
  | JsUndefined => false
  | JsString s => JS.truthy s
  | JsOther b => b
  end.

(** [(typeof auth.managerToken === 'string' && auth.managerToken.trim()) ||
     (typeof managerToken === 'string' && managerToken.trim()) || '']. *)
Definition tokenCandidate (options : JoinOptions) : string :=
  JS.or_else (string_and JS.trim (opt_auth_managerToken options))
    (JS.or_else (string_and JS.trim (opt_managerToken options)) "").

Definition allNpcs (rows : list Persisted.t) : list Persisted.t := rows.

Definition payload_of_persisted (npc : Persisted.t) : Npc.t :=
  {| Npc.agentId := Persisted.agentId npc;
     Npc.registryAgentId := Persisted.registryAgentId npc;
     Npc.name := Persisted.name npc;
     Npc.avatarId := Persisted.avatarId npc;
     Npc.workstationId := Persisted.workstationId npc;
     Npc.position := Some (Persisted.positionX npc, Persisted.positionY npc);
     Npc.role := Persisted.role npc;
     Npc.officeId := Persisted.officeId npc;
     Npc.computerId := Persisted.computerId npc;
     Npc.voiceAgentId := Persisted.voiceAgentId npc;
     Npc.namespaceSlug := Persisted.namespaceSlug npc |}.

Definition ensureNpcAssignmentsLoaded (force : bool) (w : World) : World :=
  if negb force && (0 <? size (npcAssignments (room w)))%nat then w
  else
    let npcs :=
      List.filter
        (fun npc =>
           String.eqb
             (default "Public Lobby" (or_null (Persisted.roomName npc)))
             (name (room w)))
        (allNpcs (npcStore w)) in
    with_room updatePresenceMetadata
      (fold_left
         (fun w' npc =>
            fst (upsertNpc (payload_of_persisted npc)
                   {| skipPersistence := true; skipRegistrySync := true |} w'))
         npcs w).

Definition redirect_message (targetRoomId : string) : string :=
  let dq := String (ascii_of_N 34) EmptyString in
  "{" ++ dq ++ "roomId" ++ dq ++ ":" ++ dq ++ targetRoomId ++ dq ++ "}".

Definition validateNpcHandshake (d : Directory) (client : Client)
    (options : JoinOptions) (w : World) : World * result Failure Client :=
  let agentRaw := string_and (fun s => JS.toLowerCase (JS.trim s)) (opt_agentId options) in
  if negb (JS.truthy agentRaw) then
    if JS.truthy (tokenCandidate options)
    then (emit (Warning "[skyoffice] managerToken provided without agentId") w, Return client)
    else (w, Return client)
  else
    let token := tokenCandidate options in
    if negb (JS.truthy token)
    then (w, Throw (ServerError 403 "managerToken is required for NPC connections"))
    else
      let r := room w in
      let expectedNamespace :=
        JS.or_else (string_and JS.trim (opt_namespaceSlug options))
          (JS.or_else (default "" (namespaceSlug r)) (name r)) in
      let expectedNamespaceLower :=
        if JS.truthy expectedNamespace then Some (JS.toLowerCase expectedNamespace) else None in
      let currentNamespaceLower :=
        if JS.truthy_opt (namespaceSlug r)
        then Some (JS.toLowerCase (default "" (namespaceSlug r))) else None in
      let w1 := ensureNpcAssignmentsLoaded false w in
      let found :=
        match npcAssignments (room w1) !! agentRaw with
        | Some a => (w1, Some a)
        | None =>
            let w2 := ensureNpcAssignmentsLoaded true w1 in
            (w2, npcAssignments (room w2) !! agentRaw)
        end in
      match found with
      | (w2, None) =>
          let redirect :=
            match expectedNamespaceLower, currentNamespaceLower with
            | Some e, Some c =>
                if JS.truthy e && JS.truthy c && negb (String.eqb e c)
                then getRoomByNamespaceSlug d e else None
            | _, _ => None
            end in
          match redirect with
          | Some targetRoomId =>
              (w2, Throw (ServerError 410 (redirect_message targetRoomId)))
          | None =>
              (emit (Warning ("[presence] assignment not found for " ++ agentRaw)) w2,
               Throw (ServerError 404
                        ("NPC assignment not found for agent '" ++ agentRaw ++ "'")))
          end
      | (w2, Some assignment) =>
          let office := or_null (Npc.officeId (Assignment.npc assignment)) in
          let w3 := emit (SecretResolution agentRaw office) w2 in
          let presenceSecretResult := resolvePresenceSecret agentRaw office in
          let secretSource :=
            match presenceSecretResult with
            | Some e => PresenceSecret.source e
            | None => PresenceSecret.Registry
            end in
          match presenceSecretResult with
          | None => (w3, Throw (ServerError 503 "Presence credential unavailable"))
          | Some e =>
              let secretToUse := PresenceSecret.secret e in
              if negb (JS.truthy secretToUse)
              then (w3, Throw (ServerError 503 "Presence credential unavailable"))
              else
                let w4 := emit (TokenVerification token secretToUse) w3 in
                match ManagerToken.verifyManagerToken JSON_parse now token secretToUse with
                | Throw err =>
                    (w4, Throw (ServerError 403
                                  ("Invalid managerToken (" ++ ManagerToken.message err ++ ")")))
                | Return payload =>
                    let agentMismatch :=
                      match ManagerToken.agentId payload with
                      | Some a =>
                          JS.truthy a
                          && negb (String.eqb (JS.toLowerCase (JS.trim a)) agentRaw)
                      | None => false
                      end in
                    if agentMismatch
                    then (w4, Throw (ServerError 403 "managerToken agent mismatch"))
                    else
                      let payloadNamespace :=
                        default ""
                          (opt_or (ManagerToken.namespace payload)
                             (or_null (ManagerToken.namespaceSlug payload))) in
                      let payloadNamespaceLower := JS.toLowerCase (JS.trim payloadNamespace) in
                      let namespaceMismatch :=
                        JS.truthy payloadNamespace
                        && match expectedNamespaceLower with
                           | Some e =>
                               JS.truthy e && JS.truthy payloadNamespaceLower
                               && negb (String.eqb payloadNamespaceLower e)
                           | None => false
                           end in
                      if namespaceMismatch
                      then (w4, Throw (ServerError 403 "managerToken namespace mismatch"))
                      else
                        let npcMismatch :=
                          match expectedNamespaceLower,
                                Npc.namespaceSlug (Assignment.npc assignment) with
                          | Some e, Some ns =>
                              JS.truthy e && JS.truthy ns
                              && negb (String.eqb (JS.toLowerCase ns) e)
                          | _, _ => false
                          end in
                        if npcMismatch
                        then (w4, Throw (ServerError 403 "NPC namespace mismatch"))
                        else
                          (w4, Return
                                 {| sessionId := sessionId client;
                                    userData :=
                                      Some {| npcAgentId := agentRaw;
                                              npcKey := getNpcKey agentRaw;
                                              managerTokenPayload := payload;
                                              presenceSecretSource := secretSource |} |})
                end
          end
      end.

(** [onAuth] returns [true] (here: the client, with what the handshake
    attached to it) or throws. *)
Definition onAuth (d : Directory) (client : Client) (options : JoinOptions)
    (w : World) : World * result Failure Client :=
  let requestedNamespace :=
    JS.or_else
      (string_and (fun s => JS.toLowerCase (JS.trim s)) (opt_namespaceSlug options))
      (string_and (fun s => JS.toLowerCase (JS.trim s)) (opt_name options)) in
  let currentNamespace :=
    if JS.truthy_opt (namespaceSlug (room w))
    then JS.toLowerCase (JS.trim (default "" (namespaceSlug (room w)))) else "" in
  if JS.truthy requestedNamespace && JS.truthy currentNamespace
     && negb (String.eqb requestedNamespace currentNamespace)
  then (w, Throw (ServerError 403 "Namespace mismatch"))
  else
    let checked :=
      if JS.truthy_opt (password (room w)) then
        if negb (js_truthy (opt_password options))
        then (w, Some (ServerError 403 "Password is required!"))
        else
          match opt_password options with
          | JsString plain =>
              if bcrypt_compare plain (default "" (password (room w)))
              then (emit PasswordComparison w, None)
              else (emit PasswordComparison w, Some (ServerError 403 "Password is incorrect!"))
          | _ => (w, Some (JsError "data and hash must be strings"))
          end
      else (w, None) in
    match checked with
    | (w1, Some failure) => (w1, Throw failure)
    | (w1, None) => validateNpcHandshake d client options w1
    end.

(** [syncNpcsToClient]: every assignment's player is (re)written and seated
    again. The steps for different agents touch different keys, so their
    order is immaterial. *)
Definition syncNpc (a : Assignment.t) (w : World) : World :=
  let r := room w in
  let n := Assignment.npc a in
  let key := getNpcKey (Npc.agentId n) in
  let player0 := default new_Player (players r !! key) in
  let player :=
    {| Player.name := Npc.name n;
       Player.x := match Npc.position n with Some p => fst p | None => Player.x player0 end;
       Player.y := match Npc.position n with Some p => snd p | None => Player.y player0 end;
       Player.anim :=
         if JS.truthy_opt (Npc.computerId n) then getSittingAnim (Npc.avatarId n)
         else getIdleAnim (Npc.avatarId n);
       Player.readyToConnect := true; Player.videoConnected := false |} in
  let r1 := set_players (insert key player) r in
  let '(r2, assignedComputer) :=
    assignNpcToWorkstation key (Npc.workstationId n) (Npc.computerId n) r1 in
  let a' :=
    if JS.truthy_opt assignedComputer then
      {| Assignment.npc :=
           {| Npc.agentId := Npc.agentId n; Npc.registryAgentId := Npc.registryAgentId n;
              Npc.name := Npc.name n; Npc.avatarId := Npc.avatarId n;
              Npc.workstationId := Npc.workstationId n; Npc.position := Npc.position n;
              Npc.role := Npc.role n; Npc.officeId := Npc.officeId n;
              Npc.computerId := assignedComputer;
              Npc.voiceAgentId := Npc.voiceAgentId n;
              Npc.namespaceSlug := Npc.namespaceSlug n |};
         Assignment.roomId := Assignment.roomId a;
         Assignment.assignedAt := Assignment.assignedAt a |}
    else a in
  with_room (fun _ => set_npcAssignments (alter (fun _ => a') (Npc.agentId n)) r2) w.

Definition syncNpcsToClient (client : Client) (w : World) : World :=
  let w1 := ensureNpcAssignmentsLoaded false w in
  fold_left (fun w' a => syncNpc a w') (getNpcAssignments (room w1)) w1.

Definition onJoin (client : Client) (options : JoinOptions) (w : World) : World :=
  let isNpc :=
    match userData client with
    | Some u => JS.truthy (npcKey u)
    | None => false
    end in
  let w1 :=
    if isNpc then w
    else with_room (set_players (insert (sessionId client) new_Player)) w in
  let w2 := emit (SendRoomData (sessionId client)) w1 in
  with_room updatePresenceMetadata (syncNpcsToClient client w2).

(** [onLeave]: the client's own player and its places at computers and
    whiteboards go. *)
Definition onLeave (client : Client) (w : World) : World :=
  let sid := sessionId client in
  with_room
    (fun r =>
       updatePresenceMetadata
         (set_whiteboards (fmap (fun users => users ∖ {[sid]}))
            (set_computers (fmap (fun users => users ∖ {[sid]}))
               (set_players (delete sid) r))))
    w.

(** What happens to a room in its life: calls of the NPC engine, state
    updates, joins and leaves. *)
Inductive RoomEvent : Type :=
| Engine (op : NpcOp)
| UpdateState (agentId : string) (update : NpcStateUpdate)
| Join (client : Client) (options : JoinOptions)
| Leave (client : Client).

Definition run_event (w : World) (e : RoomEvent) : World :=
  match e with
  | Engine op => run_op w op
  | UpdateState agentId update => fst (updateNpcState agentId update w)
  | Join client options => onJoin client options w
  | Leave client => onLeave client w
  end.

Definition run_events (events : list RoomEvent) (w : World) : World :=
  fold_left run_event events w.

End Room.

End SkyOffice.

(** ** The walkable map: A* over the tile grid, and the sidecar loader

    Pixel coordinates and tile sizes are JavaScript numbers, taken here as
    exact rationals. A map key is the string [x,y] of a tile; since that
    rendering is injective the tile itself serves as the key. *)

Module WalkableMap.

Definition Tile : Type := (Z * Z)%type.
Definition Point : Type := (Q * Q)%type.

Record t : Type := {
  grid : list (list Z);
  width : Z;
  height : Z;
  tileWidth : Q;
  tileHeight : Q;
}.

Definition tileKey (tile : Tile) : Tile := tile.

Definition toTile (m : t) (point : Point) : Tile :=
  (Z.max 0 (Z.min (width m - 1) (Qfloor (fst point / tileWidth m))),
   Z.max 0 (Z.min (height m - 1) (Qfloor (snd point / tileHeight m)))).

Definition toPixel (m : t) (tile : Tile) : Point :=
  ((inject_Z (fst tile) * tileWidth m + tileWidth m / 2)%Q,
   (inject_Z (snd tile) * tileHeight m + tileHeight m / 2)%Q).

(** [TypeError]: a property read on [undefined]. *)
Inductive TypeError : Type := ReadOfUndefined.

(** [grid[tile.y][tile.x] === 0] within the bounds. A row the grid does not
    hold is [undefined] and reading its cell throws; a cell a row does not
    hold is [undefined], which is not [0]. *)
Definition isWalkable (m : t) (tile : Tile) : result TypeError bool :=
  let '(x, y) := tile in
  if (x <? 0) || (y <? 0) || (x >=? width m) || (y >=? height m) then Return false
  else
    match grid m !! Z.to_nat y with
    | Some row =>
        match row !! Z.to_nat x with
        | Some v => Return (v =? 0)
        | None => Return false
        end
    | None => Throw ReadOfUndefined
    end.

(** The five maps of a search. [openSet] keeps insertion order, which
    decides ties. *)
Record Search : Type := {
  openSet : list (Tile * Z);
  gScore : gmap Tile Z;
  cameFrom : gmap Tile (option Tile);
  tileByKey : gmap Tile Tile;
  closedSet : gset Tile;
}.

(** [Map.prototype.set] and [delete] on the ordered [openSet]. *)
Fixpoint open_set (k : Tile) (f : Z) (l : list (Tile * Z)) : list (Tile * Z) :=
  match l with
  | [] => [(k, f)]
  | (k', f') :: r =>
      if bool_decide (k' = k) then (k, f) :: r else (k', f') :: open_set k f r
  end.

Definition open_delete (k : Tile) (l : list (Tile * Z)) : list (Tile * Z) :=
  List.filter (fun e => negb (bool_decide (fst e = k))) l.

(** The entry with the least [f], the first such in insertion order. *)
Definition pick (l : list (Tile * Z)) : option (Tile * Z) :=
  fold_left
    (fun cur e =>
       match cur with
       | None => Some e
       | Some c => if snd e <? snd c then Some e else cur
       end)
    l None.

Definition heuristic (targetTile tile : Tile) : Z :=
  Z.abs (fst tile - fst targetTile) + Z.abs (snd tile - snd targetTile).

Definition directions : list Tile := [(1, 0); (-1, 0); (0, 1); (0, -1)].

(** One direction of the expansion of [current]. The current key always
    has a score (it got one when it was opened, see [inv_scored]), so the
    [?? Infinity] of the source is never taken; [0] stands in its place. *)
Definition relax (m : t) (targetTile current : Tile) (st : Search) (dir : Tile)
  : result TypeError Search :=
  let neighbor := (fst current + fst dir, snd current + snd dir) in
  let neighborKey := tileKey neighbor in
  if bool_decide (neighborKey ∈ closedSet st) then Return st
  else
    match isWalkable m neighbor with
    | Throw e => Throw e
    | Return false => Return st
    | Return true =>
        let tentativeG := default 0 (gScore st !! current) + 1 in
        let skip :=
          match gScore st !! neighborKey with
          | Some existingG => tentativeG >=? existingG
          | None => false
          end in
        if skip then Return st
        else
          Return
            {| openSet :=
                 open_set neighborKey (tentativeG + heuristic targetTile neighbor) (openSet st);
               gScore := <[neighborKey := tentativeG]> (gScore st);
               cameFrom := <[neighborKey := Some current]> (cameFrom st);
               tileByKey := <[neighborKey := neighbor]> (tileByKey st);
               closedSet := closedSet st |}
    end.

(** [directions.forEach]: a callback that throws ends the loop. *)
Fixpoint expand (m : t) (targetTile current : Tile) (dirs : list Tile) (st : Search)
  : result TypeError Search :=
  match dirs with
  | [] => Return st
  | dir :: rest =>
      match relax m targetTile current st dir with
      | Return st' => expand m targetTile current rest st'
      | Throw e => Throw e
      end
  end.

(** The walk back along [cameFrom], collecting tiles from the goal to the
    start and reversing; [None] when the fuel runs out. *)
Fixpoint reconstruct (fuel : nat) (st : Search) (key : option Tile)
    (pathTiles : list Tile) : option (list Tile) :=
  match key with
  | None => Some pathTiles
  | Some k =>
      match fuel with
      | O => None
      | S n =>
          reconstruct n st (mjoin (cameFrom st !! k))
            (match tileByKey st !! k with
             | Some tile => tile :: pathTiles
             | None => pathTiles
             end)
      end
  end.

(** The main loop. The result is [None] when the fuel runs out; otherwise
    the call throws, returns [null] ([Return None]) or returns a path. *)
Fixpoint search (fuel : nat) (m : t) (targetTile : Tile) (st : Search)
  : option (result TypeError (option (list Tile))) :=
  match fuel with
  | O => None
  | S n =>
      match pick (openSet st) with
      | None => Some (Return None)
      | Some (currentKey, _) =>
          if bool_decide (currentKey = targetTile) then
            match reconstruct (S (size (cameFrom st))) st (Some currentKey) [] with
            | Some tiles => Some (Return (Some tiles))
            | None => None
            end
          else
            let st1 :=
              {| openSet := open_delete currentKey (openSet st);
                 gScore := gScore st; cameFrom := cameFrom st;
                 tileByKey := tileByKey st;
                 closedSet := closedSet st ∪ {[currentKey]} |} in
            match expand m targetTile currentKey directions st1 with
            | Return st2 => search n m targetTile st2
            | Throw e => Some (Throw e)
            end
      end
  end.

Definition initial (startTile targetTile : Tile) : Search :=
  {| openSet := [(tileKey startTile, heuristic targetTile startTile)];
     gScore := {[tileKey startTile := 0]};
     cameFrom := {[tileKey startTile := None]};
     tileByKey := {[tileKey startTile := startTile]};
     closedSet := ∅ |}.

(** Every pass of the loop closes a key that was not closed before, and
    only the start tile and walkable tiles of the grid are ever opened
    (see [search_returns]). *)
Definition search_fuel (m : t) : nat :=
  S (S (Z.to_nat (width m) * Z.to_nat (height m))).

Definition findPathTiles (m : t) (startTile targetTile : Tile)
  : option (result TypeError (option (list Tile))) :=
  if bool_decide (startTile = targetTile) then Some (Return (Some [targetTile]))
  else search (search_fuel m) m targetTile (initial startTile targetTile).

Definition findPath (m : t) (start target : Point)
  : option (result TypeError (option (list Point))) :=
  match findPathTiles m (toTile m start) (toTile m target) with
  | Some (Return (Some tiles)) => Some (Return (Some (map (toPixel m) tiles)))
  | Some (Return None) => Some (Return None)
  | Some (Throw e) => Some (Throw e)
  | None => None
  end.

(** *** The precomputed grid *)

(** The parsed sidecar file, as far as the loader reads it: [grid] (absent
    when [data.grid] is not an array; a row that is not an array is
    [None]), [map.tileWidth], [map.tileHeight], [mapHash], [gridHash]. *)
Record Sidecar : Type := {
  sc_grid : option (list (option (list Z)));
  sc_tileWidth : option Q;
  sc_tileHeight : option Q;
  sc_mapHash : option string;
  sc_gridHash : option string;
}.

Record Expected : Type := {
  ex_width : Z;
  ex_height : Z;
  ex_tileWidth : Q;
  ex_tileHeight : Q;
  ex_mapHash : option string;
}.

Inductive GridError : Type :=
| MissingGridArray
| InconsistentRowWidth
| SizeMismatch
| TileSizeMismatch
| MissingMapHash
| MapHashMismatch
| GridHashMismatch.

Fixpoint digits (fuel : nat) (n : Z) (acc : string) : string :=
  match fuel with
  | O => acc
  | S k =>
      let acc' := String (ascii_of_N (Z.to_N (48 + n mod 10))) acc in
      if n <? 10 then acc' else digits k (n / 10) acc'
  end.

Definition stringify_number (n : Z) : string :=
  if n <? 0 then "-" ++ digits (Z.to_nat (- n)) (- n) ""
  else digits (S (Z.to_nat n)) n "".

Fixpoint join_with (sep : string) (l : list string) : string :=
  match l with
  | [] => ""
  | [s] => s
  | s :: r => s ++ sep ++ join_with sep r
  end.

(** [JSON.stringify] of a matrix of integers. *)
Definition stringify_grid (g : list (list Z)) : string :=
  "[" ++ join_with ","
           (map (fun row => "[" ++ join_with "," (map stringify_number row) ++ "]") g)
      ++ "]".

Definition computeGridHash (g : list (list Z)) : string :=
  Node.hex (Node.sha256 (JS.bytes_of (stringify_grid g))).

(** [Number(x) || y || 32] on an optional number. *)
Definition number_or (x : option Q) (y : option Q) : Q :=
  match x with
  | Some q => if Qeq_bool q 0 then
                match y with
                | Some e => if Qeq_bool e 0 then 32 else e
                | None => 32
                end
              else q
  | None => match y with
            | Some e => if Qeq_bool e 0 then 32 else e
            | None => 32
            end
  end.

(** [loadPrecomputedGrid(filePath, expected)] on the parsed file; [file] is
    [None] when the file does not exist, and then the result is [null]. *)
Definition loadPrecomputedGrid (file : option Sidecar) (expected : option Expected)
  : result GridError (option t) :=
  match file with
  | None => Return None
  | Some data =>
      match sc_grid data with
      | None | Some [] => Throw MissingGridArray
      | Some ((row0 :: _) as rows) =>
          let height := Z.of_nat (length rows) in
          let width := match row0 with Some r => Z.of_nat (length r) | None => 0 end in
          if (width =? 0)
             || existsb (fun row => match row with
                                    | Some r => negb (Z.of_nat (length r) =? width)
                                    | None => true
                                    end) rows
          then Throw InconsistentRowWidth
          else
            let check :=
              match expected with
              | None => None
              | Some e =>
                  if negb (width =? ex_width e) || negb (height =? ex_height e)
                  then Some SizeMismatch
                  else if negb (Qeq_bool (default (ex_tileWidth e) (sc_tileWidth data))
                                  (ex_tileWidth e))
                          || negb (Qeq_bool (default (ex_tileHeight e) (sc_tileHeight data))
                                     (ex_tileHeight e))
                  then Some TileSizeMismatch
                  else if JS.truthy_opt (ex_mapHash e) then
                    if negb (JS.truthy_opt (sc_mapHash data)) then Some MissingMapHash
                    else if negb (bool_decide (sc_mapHash data = ex_mapHash e))
                    then Some MapHashMismatch
                    else None
                  else None
              end in
            match check with
            | Some err => Throw err
            | None =>
                let tileWidth :=
                  number_or (sc_tileWidth data) (ex_tileWidth <$> expected) in
                let tileHeight :=
                  number_or (sc_tileHeight data) (ex_tileHeight <$> expected) in
                let grid :=
                  map (fun row => map (fun value => if value =? 0 then 0 else 1)
                                    (default [] row)) rows in
                let computedGridHash := computeGridHash grid in
                if JS.truthy_opt (sc_gridHash data)
                   && negb (bool_decide (sc_gridHash data = Some computedGridHash))
                then Throw GridHashMismatch
                else Return (Some {| grid := grid; width := width; height := height;
                                     tileWidth := tileWidth; tileHeight := tileHeight |})
            end
      end
  end.

(** [buildDefaultMap], up to the fall-back to the rasteriser: the
    tile-map's text is hashed and parsed; when it parses, the sidecar is
    loaded against its dimensions and hash, otherwise without any
    expectation. [parse_map] is [JSON.parse] reduced to the four numbers
    read from the map ([None]: the text does not parse). *)
Definition mapHashOf (mapRaw : string) : string :=
  Node.hex (Node.sha256 (JS.bytes_of mapRaw)).

Definition loadDefaultGrid (parse_map : string -> option (Z * Z * Q * Q))
    (mapRaw : string) (file : option Sidecar) : result GridError (option t) :=
  match parse_map mapRaw with
  | Some (w, h, tw, th) =>
      loadPrecomputedGrid file
        (Some {| ex_width := w; ex_height := h; ex_tileWidth := tw;
                 ex_tileHeight := th; ex_mapHash := Some (mapHashOf mapRaw) |})
  | None => loadPrecomputedGrid file None
  end.

End WalkableMap.

(** ** Instances for closed examples

    A player as the schema's constructor leaves it, a seat table with the
    one workstation the deployment defaults name, and concrete payloads. *)

Module Samples.

Definition new_Player : SkyOffice.Player.t :=
  {| SkyOffice.Player.name := ""; SkyOffice.Player.x := 705; SkyOffice.Player.y := 500;
     SkyOffice.Player.anim := "adam_idle_down";
     SkyOffice.Player.readyToConnect := false; SkyOffice.Player.videoConnected := false |}.

Definition seats (workstationId : string) : option string :=
  if String.eqb workstationId "design-studio" then Some "0" else None.

Definition payload (agentId : string) (computerId : option string) : SkyOffice.Npc.t :=
  {| SkyOffice.Npc.agentId := agentId; SkyOffice.Npc.registryAgentId := None;
     SkyOffice.Npc.name := "Ada"; SkyOffice.Npc.avatarId := "adam";
     SkyOffice.Npc.workstationId := "design-studio";
     SkyOffice.Npc.position := Some (800, 200)%Q; SkyOffice.Npc.role := None;
     SkyOffice.Npc.officeId := None; SkyOffice.Npc.computerId := computerId;
     SkyOffice.Npc.voiceAgentId := None; SkyOffice.Npc.namespaceSlug := None |}.

Definition write_through : SkyOffice.NpcUpsertOptions :=
  {| SkyOffice.skipPersistence := false; SkyOffice.skipRegistrySync := false |}.

Definition public_room : SkyOffice.World :=
  SkyOffice.created (SkyOffice.onCreate "r1" "public" "" None None) [].

Definition upsert (p : SkyOffice.Npc.t) (w : SkyOffice.World) : SkyOffice.World :=
  fst (SkyOffice.upsertNpc new_Player seats "2026-01-01T00:00:00.000Z" p write_through w).

(** A server without static secret, reachable Registry or password. *)
Definition bcrypt_compare (plain hash : string) : bool := false.

Definition resolvePresenceSecret (agentId : string) (officeId : option string)
  : option PresenceSecret.PresenceSecretCacheEntry := None.

Definition npc_options (agentId slug token : string) : SkyOffice.JoinOptions :=
  {| SkyOffice.opt_namespaceSlug := SkyOffice.JsString slug;
     SkyOffice.opt_name := SkyOffice.JsUndefined;
     SkyOffice.opt_password := SkyOffice.JsUndefined;
     SkyOffice.opt_agentId := SkyOffice.JsString agentId;
     SkyOffice.opt_auth_managerToken := SkyOffice.JsUndefined;
     SkyOffice.opt_managerToken := SkyOffice.JsString token |}.

(** An [agentId] of white space only: a space, U+00A0, U+2003 and a TAB,
    the two in the middle as their UTF-8 bytes. *)
Definition no_break_space : string :=
  String (ascii_of_N 0xC2) (String (ascii_of_N 0xA0) "").

Definition em_space : string :=
  String (ascii_of_N 0xE2) (String (ascii_of_N 0x80) (String (ascii_of_N 0x83) "")).

Definition white_agentId : string :=
  " " +:+ no_break_space +:+ em_space +:+ String (ascii_of_N 9) "".

Definition fresh_client (sessionId : string) : SkyOffice.Client :=
  {| SkyOffice.sessionId := sessionId; SkyOffice.userData := None |}.

(** Rooms [alpha] and [beta], each registered under its namespace. *)
Definition alpha : SkyOffice.World :=
  SkyOffice.created (SkyOffice.onCreate "room-alpha" "alpha" "" (Some "alpha") None) [].

Definition two_rooms : SkyOffice.Directory :=
  {| SkyOffice.activeRooms :=
       [("room-alpha", SkyOffice.room alpha);
        ("room-beta", SkyOffice.onCreate "room-beta" "beta" "" (Some "beta") None)];
     SkyOffice.namespaceRooms := {["alpha" := "room-alpha"; "beta" := "room-beta"]} |}.

Definition onAuth :=
  SkyOffice.onAuth new_Player seats "2026-01-01T00:00:00.000Z" bcrypt_compare
    resolvePresenceSecret ManagerToken.parse_flat 1767225600000.

Definition validateNpcHandshake :=
  SkyOffice.validateNpcHandshake new_Player seats "2026-01-01T00:00:00.000Z"
    resolvePresenceSecret ManagerToken.parse_flat 1767225600000.

Definition onJoin :=
  SkyOffice.onJoin new_Player seats "2026-01-01T00:00:00.000Z".


Definition env_office_only (name : string) : option string :=
  if String.eqb name "OFFICE_ID" then Some "office-1" else None.

(** A tile-map of two by two tiles of 32 pixels, the reading of its text
    (any other text counts as unparseable here), and sidecars for it. *)
Definition map_text : string :=
  let dq := String (ascii_of_N 34) EmptyString in
  "{" ++ dq ++ "width" ++ dq ++ ":2," ++ dq ++ "height" ++ dq ++ ":2,"
      ++ dq ++ "tilewidth" ++ dq ++ ":32," ++ dq ++ "tileheight" ++ dq ++ ":32}".

Definition parse_map (mapRaw : string) : option (Z * Z * Q * Q) :=
  if String.eqb mapRaw map_text then Some (2, 2, 32%Q, 32%Q) else None.

Definition sidecar (cell : Z) (gridHash : option string) : WalkableMap.Sidecar :=
  {| WalkableMap.sc_grid := Some [Some [0; cell]; Some [1; 0]];
     WalkableMap.sc_tileWidth := Some 32%Q;
     WalkableMap.sc_tileHeight := Some 32%Q;
     WalkableMap.sc_mapHash := Some (WalkableMap.mapHashOf map_text);
     WalkableMap.sc_gridHash := gridHash |}.

Definition grid_hash : string :=
  "ac320b742751f8f0aaa45b6bff6a15e60453540c875cc4deba6b4bb30e673fcf".

Definition loaded : WalkableMap.t :=
  {| WalkableMap.grid := [[0; 1]; [1; 0]]; WalkableMap.width := 2;
     WalkableMap.height := 2; WalkableMap.tileWidth := 32; WalkableMap.tileHeight := 32 |}.

(** A 3x3 map of 32-pixel tiles whose middle row is blocked but for its
    last tile, and four pixels of it. *)
Definition corridor : WalkableMap.t :=
  {| WalkableMap.grid := [[0; 0; 0]; [1; 1; 0]; [0; 0; 0]]; WalkableMap.width := 3;
     WalkableMap.height := 3; WalkableMap.tileWidth := 32; WalkableMap.tileHeight := 32 |}.

(** The same map with its last row missing. *)
Definition short_grid : WalkableMap.t :=
  {| WalkableMap.grid := [[0; 0; 0]; [1; 1; 0]]; WalkableMap.width := 3;
     WalkableMap.height := 3; WalkableMap.tileWidth := 32; WalkableMap.tileHeight := 32 |}.

Definition top_left : WalkableMap.Point := (10, 20)%Q.
Definition bottom_left : WalkableMap.Point := (16, 80)%Q.
Definition on_the_wall : WalkableMap.Point := (5, 40)%Q.
Definition inside_the_wall : WalkableMap.Point := (50, 50)%Q.

(** A tenant key whose paths repeat, with blanks and a non-string. *)
Definition tenant_key : PresenceSecret.RegistryTenantKey :=
  {| PresenceSecret.metadata_paths :=
       Some [Some " "; None; Some " prod/skyoffice "; Some "prod/shared"; Some "prod/skyoffice"];
     PresenceSecret.secretsPath := Some "prod/shared " |}.

(** A state update that moves an agent to another workstation. *)
Definition move_to_lounge : SkyOffice.NpcStateUpdate :=
  {| SkyOffice.upd_position := Some (320, 480)%Q; SkyOffice.upd_anim := None;
     SkyOffice.upd_posture := Some "stand"; SkyOffice.upd_workstationId := Some "lounge";
     SkyOffice.upd_voiceAgentId := None |}.

Definition tenant_secret (officeId : string) : option string := Some "tenant-secret".
Definition registry_secret (agentId officeId : string) : option string :=
  Some "registry-secret".

End Samples.

(* ===================================================================== *)
(** * Part II: verified properties *)
(* ===================================================================== *)

(** ** Test vectors for the primitives (FIPS 180-4, RFC 4231, RFC 4648) *)

Example sha256_abc :
  Node.hex (Node.sha256 (JS.bytes_of "abc"))
  = "ba7816bf8f01cfea414140de5dae2223b00361a396177a9cb410ff61f20015ad".
Proof. vm_compute. reflexivity. Qed.

Example sha256_empty :
  Node.hex (Node.sha256 [])
  = "e3b0c44298fc1c149afbf4c8996fb92427ae41e4649b934ca495991b7852b855".
Proof. vm_compute. reflexivity. Qed.

Example hmac_sha256_rfc4231_case2 :
  Node.hex (Node.hmac_sha256 (JS.bytes_of "Jefe") (JS.bytes_of "what do ya want for nothing?"))
  = "5bdcc146bf60754e6a042426089575c75a003f089d2739839dec58b964ec3843".
Proof. vm_compute. reflexivity. Qed.

Example base64_lenient :
  Node.base64_decode "QQ==" = [65] /\ Node.base64_decode "QR==" = [65]
  /\ Node.base64_decode "Q!Q" = [65]
  /\ Node.base64url_encode (JS.bytes_of "hello?>") = "aGVsbG8_Pg".
Proof. vm_compute. repeat split. Qed.

(** ** JavaScript strings: trimming and case folding *)

Example trim_white_space :
  JS.trim (Samples.no_break_space +:+ " a b " +:+ Samples.em_space) = "a b"
  /\ JS.trim Samples.white_agentId = ""
  /\ JS.trim Samples.no_break_space = ""
  /\ JS.trim (String (ascii_of_N 0xC2) (String (ascii_of_N 0x85) "")) <> "".
Proof. vm_compute. split_and!; [reflexivity..|discriminate]. Qed.

Lemma truthy_toLowerCase s : JS.truthy (JS.toLowerCase s) = JS.truthy s.
Proof. destruct s; reflexivity. Qed.

Lemma or_else_l a b : JS.truthy a = true -> JS.or_else a b = a.
Proof. unfold JS.or_else. now intros ->. Qed.

Lemma or_else_r a b : JS.truthy a = false -> JS.or_else a b = b.
Proof. unfold JS.or_else. now intros ->. Qed.

(** Lower-casing moves bytes below 128 only, and every byte of a multi-byte
    white-space character is 128 or more. *)
Lemma lower_ascii_cases c :
  JS.lower_ascii c = c
  \/ (N_of_ascii c < 128 /\ N_of_ascii (JS.lower_ascii c) < 128)%N.
Proof.
  destruct c as [[] [] [] [] [] [] [] []];
    first [left; reflexivity | right; split; reflexivity].
Qed.

Lemma lower_ascii_high c :
  (128 <= N_of_ascii c \/ 128 <= N_of_ascii (JS.lower_ascii c))%N ->
  JS.lower_ascii c = c.
Proof. destruct (lower_ascii_cases c) as [-> | [? ?]]; [reflexivity | lia]. Qed.

Lemma is_space_lower c : JS.is_space (JS.lower_ascii c) = JS.is_space c.
Proof. destruct c as [[] [] [] [] [] [] [] []]; reflexivity. Qed.

Lemma is_space2_high c d :
  JS.is_space2 c d = true -> (128 <= N_of_ascii c /\ 128 <= N_of_ascii d)%N.
Proof.
  unfold JS.is_space2. rewrite andb_true_iff, !N.eqb_eq. lia.
Qed.

Lemma is_space3_high c d e :
  JS.is_space3 c d e = true ->
  (128 <= N_of_ascii c /\ 128 <= N_of_ascii d /\ 128 <= N_of_ascii e)%N.
Proof.
  unfold JS.is_space3. cbv zeta.
  rewrite !orb_true_iff, !andb_true_iff, !orb_true_iff, !andb_true_iff,
    !N.eqb_eq, !N.leb_le.
  lia.
Qed.

Lemma is_space2_lower c d :
  JS.is_space2 (JS.lower_ascii c) (JS.lower_ascii d) = JS.is_space2 c d.
Proof.
  destruct (JS.is_space2 (JS.lower_ascii c) (JS.lower_ascii d)) eqn:E1;
    destruct (JS.is_space2 c d) eqn:E2; try reflexivity.
  - destruct (is_space2_high _ _ E1) as [Hc Hd].
    rewrite !lower_ascii_high in E1 by auto. congruence.
  - destruct (is_space2_high _ _ E2) as [Hc Hd].
    rewrite !lower_ascii_high in E1 by auto. congruence.
Qed.

Lemma is_space3_lower c d e :
  JS.is_space3 (JS.lower_ascii c) (JS.lower_ascii d) (JS.lower_ascii e)
  = JS.is_space3 c d e.
Proof.
  destruct (JS.is_space3 (JS.lower_ascii c) (JS.lower_ascii d) (JS.lower_ascii e)) eqn:E1;
    destruct (JS.is_space3 c d e) eqn:E2; try reflexivity.
  - destruct (is_space3_high _ _ _ E1) as (Hc & Hd & He).
    rewrite !lower_ascii_high in E1 by auto. congruence.
  - destruct (is_space3_high _ _ _ E2) as (Hc & Hd & He).
    rewrite !lower_ascii_high in E1 by auto. congruence.
Qed.

(** The rest of a string after one white-space character at its head. *)
Definition strip_space (s : string) : option string :=
  match s with
  | String c r =>
      if JS.is_space c then Some r
      else match r with
           | String d r2 =>
               if JS.is_space2 c d then Some r2
               else match r2 with
                    | String e r3 => if JS.is_space3 c d e then Some r3 else None
                    | EmptyString => None
                    end
           | EmptyString => None
           end
  | EmptyString => None
  end.

Lemma trimStart_strip s :
  JS.trimStart s
  = match strip_space s with Some r => JS.trimStart r | None => s end.
Proof.
  destruct s as [|c [|d [|e r]]]; simpl; try reflexivity;
    repeat (case_match; try reflexivity).
Qed.

Lemma strip_space_length s r :
  strip_space s = Some r -> (String.length r < String.length s)%nat.
Proof.
  destruct s as [|c [|d [|e r3]]]; simpl;
    repeat (case_match; simpl); intros [= <-]; simpl; lia.
Qed.

Lemma strip_space_lower s :
  strip_space (JS.toLowerCase s) = JS.toLowerCase <$> strip_space s.
Proof.
  destruct s as [|c [|d [|e r]]]; simpl;
    rewrite ?is_space_lower, ?is_space2_lower, ?is_space3_lower;
    try reflexivity; repeat (case_match; try reflexivity).
Qed.

Lemma strip_space_app s r t :
  strip_space s = Some r -> strip_space (s +:+ t) = Some (r +:+ t).
Proof.
  destruct s as [|c [|d [|e r3]]]; simpl;
    repeat (case_match; simpl); intros [= <-]; try reflexivity.
Qed.

(** Induction on a string along [strip_space]. *)
Lemma string_length_ind (P : string -> Prop) :
  (forall s, (forall r, (String.length r < String.length s)%nat -> P r) -> P s) ->
  forall s, P s.
Proof.
  intros H s. remember (String.length s) as n eqn:E.
  revert s E. induction n as [n IH] using lt_wf_ind. intros s ->.
  apply H. intros r Hr. exact (IH _ Hr r eq_refl).
Qed.

Lemma trimStart_lower s : JS.trimStart (JS.toLowerCase s) = JS.toLowerCase (JS.trimStart s).
Proof.
  induction s as [s IH] using string_length_ind.
  rewrite (trimStart_strip s), (trimStart_strip (JS.toLowerCase s)), strip_space_lower.
  destruct (strip_space s) as [r|] eqn:E; simpl; [|reflexivity].
  apply IH. eapply strip_space_length, E.
Qed.

Lemma toLowerCase_empty s : JS.toLowerCase s = "" <-> s = "".
Proof. destruct s; simpl; split; congruence. Qed.

Lemma blank_lower s : JS.blank (JS.toLowerCase s) = JS.blank s.
Proof.
  unfold JS.blank. rewrite trimStart_lower.
  destruct (JS.trimStart s); reflexivity.
Qed.

Lemma trimEnd_lower s : JS.trimEnd (JS.toLowerCase s) = JS.toLowerCase (JS.trimEnd s).
Proof.
  induction s as [|c r IH]; [reflexivity|].
  change (JS.toLowerCase (String c r)) with (String (JS.lower_ascii c) (JS.toLowerCase r)).
  cbn [JS.trimEnd].
  change (String (JS.lower_ascii c) (JS.toLowerCase r)) with (JS.toLowerCase (String c r)).
  rewrite blank_lower, IH. destruct (JS.blank (String c r)); reflexivity.
Qed.

Lemma trim_lower s : JS.trim (JS.toLowerCase s) = JS.toLowerCase (JS.trim s).
Proof. unfold JS.trim. now rewrite trimStart_lower, trimEnd_lower. Qed.

Lemma strip_trimStart s : strip_space (JS.trimStart s) = None.
Proof.
  induction s as [s IH] using string_length_ind.
  rewrite trimStart_strip.
  destruct (strip_space s) as [r|] eqn:E; [|exact E].
  apply IH. eapply strip_space_length, E.
Qed.

Lemma trimStart_fixed s : strip_space s = None -> JS.trimStart s = s.
Proof. intros H. now rewrite trimStart_strip, H. Qed.

Lemma blank_app s t :
  JS.blank s = true -> JS.trimStart (s +:+ t) = JS.trimStart t.
Proof.
  induction s as [s IH] using string_length_ind. unfold JS.blank.
  rewrite (trimStart_strip s).
  destruct (strip_space s) as [r|] eqn:E.
  - intros Hr. rewrite trimStart_strip, (strip_space_app _ _ t E).
    apply IH; [eapply strip_space_length, E | exact Hr].
  - destruct s; [reflexivity | discriminate].
Qed.

Lemma trimEnd_suffix s :
  exists t, s = JS.trimEnd s +:+ t /\ JS.blank t = true.
Proof.
  induction s as [|c r (t & Hr & Ht)].
  - exists "". split; reflexivity.
  - cbn [JS.trimEnd]. destruct (JS.blank (String c r)) eqn:E.
    + exists (String c r). split; [reflexivity | exact E].
    + exists t. split; [|exact Ht].
      change (String c r = String c (JS.trimEnd r +:+ t)). now f_equal.
Qed.

Lemma blank_trimEnd s : JS.blank (JS.trimEnd s) = true -> JS.blank s = true.
Proof.
  intros H. destruct (trimEnd_suffix s) as (t & Hs & Ht).
  rewrite Hs at 1. unfold JS.blank. rewrite (blank_app _ t H). exact Ht.
Qed.

Lemma trimEnd_idem s : JS.trimEnd (JS.trimEnd s) = JS.trimEnd s.
Proof.
  induction s as [|c r IH]; [reflexivity|].
  cbn [JS.trimEnd]. destruct (JS.blank (String c r)) eqn:E; [reflexivity|].
  cbn [JS.trimEnd]. rewrite IH.
  destruct (JS.blank (String c (JS.trimEnd r))) eqn:E'; [|reflexivity].
  assert (JS.blank (JS.trimEnd (String c r)) = true) as Hb
    by (cbn [JS.trimEnd]; now rewrite E).
  apply blank_trimEnd in Hb. congruence.
Qed.

Lemma strip_trimEnd s : strip_space s = None -> strip_space (JS.trimEnd s) = None.
Proof.
  intros H. destruct (trimEnd_suffix s) as (t & Hs & Ht).
  destruct (strip_space (JS.trimEnd s)) as [r|] eqn:E; [|reflexivity].
  apply (strip_space_app _ _ t) in E. rewrite <- Hs in E. congruence.
Qed.

Lemma trim_idem s : JS.trim (JS.trim s) = JS.trim s.
Proof.
  unfold JS.trim.
  rewrite (trimStart_fixed (JS.trimEnd (JS.trimStart s))).
  - apply trimEnd_idem.
  - apply strip_trimEnd, strip_trimStart.
Qed.

(** [trim] gives the empty string exactly on strings of white space. *)
Lemma trim_blank s : JS.trim s = "" <-> JS.blank s = true.
Proof.
  unfold JS.trim, JS.blank. destruct (JS.trimStart s) as [|c r] eqn:E.
  - split; reflexivity.
  - split; [|discriminate]. cbn [JS.trimEnd].
    destruct (JS.blank (String c r)) eqn:Hb; [|discriminate].
    unfold JS.blank in Hb. rewrite <- E in Hb.
    rewrite (trimStart_fixed _ (strip_trimStart s)) in Hb. rewrite E in Hb. discriminate.
Qed.

(** ** The NPC engine: players, assignments and seats *)

Section RoomProperties.

Import SkyOffice.

Variable new_Player : Player.t.
Variable resolveComputerIdFromWorkstation : string -> option string.
Variable nowIso : string.

Local Abbreviation upsertNpc :=
  (SkyOffice.upsertNpc new_Player resolveComputerIdFromWorkstation nowIso).
Local Abbreviation assignNpcToWorkstation :=
  (SkyOffice.assignNpcToWorkstation resolveComputerIdFromWorkstation).
Local Abbreviation run_ops :=
  (SkyOffice.run_ops new_Player resolveComputerIdFromWorkstation nowIso).
Local Abbreviation run_op :=
  (SkyOffice.run_op new_Player resolveComputerIdFromWorkstation nowIso).

Lemma getNpcKey_inj a b : getNpcKey a = getNpcKey b -> a = b.
Proof. unfold getNpcKey. cbn. intros H. injection H. auto. Qed.

(** [assignNpcToWorkstation] touches nothing but the computers. *)
Lemma assign_frame key ws cid r :
  let r' := fst (assignNpcToWorkstation key ws cid r) in
  players r' = players r /\ npcAssignments r' = npcAssignments r
  /\ name r' = name r /\ roomId r' = roomId r /\ namespaceSlug r' = namespaceSlug r.
Proof.
  unfold SkyOffice.assignNpcToWorkstation.
  repeat (case_match; simpl); auto.
Qed.

(** The three shapes the computers can take after a seat assignment. *)
Lemma assign_computers key ws cid r :
  let res := assignNpcToWorkstation key ws cid r in
  (computers (fst res) = computers r /\ snd res = None)
  \/ (computers (fst res) = (fun u => u ∖ {[key]}) <$> computers r /\ snd res = None)
  \/ (exists c target,
        opt_or cid (resolveComputerIdFromWorkstation ws) = Some c
        /\ JS.truthy ws = true /\ JS.truthy c = true
        /\ computers r !! c = Some target
        /\ computers (fst res)
           = <[c := (target ∖ {[key]}) ∪ {[key]}]> ((fun u => u ∖ {[key]}) <$> computers r)
        /\ snd res = Some c).
Proof.
  unfold SkyOffice.assignNpcToWorkstation.
  destruct (JS.truthy ws) eqn:Hws; simpl; [|auto].
  destruct (opt_or cid (resolveComputerIdFromWorkstation ws)) as [c|] eqn:Hc; simpl; [|auto].
  destruct (JS.truthy c) eqn:Htc; simpl; [|auto].
  rewrite lookup_fmap.
  destruct (computers r !! c) as [target|] eqn:Ht; simpl; [|auto].
  right. right. exists c, target. split_and!; auto.
Qed.

Lemma upsertNpc_players p o w :
  exists pl, players (room (fst (upsertNpc p o w)))
             = <[getNpcKey (Npc.agentId p) := pl]> (players (room w)).
Proof.
  unfold SkyOffice.upsertNpc.
  pose proof (assign_frame (getNpcKey (Npc.agentId p)) (Npc.workstationId p)
                (Npc.computerId p) (room w)) as (Hp & _).
  destruct (assignNpcToWorkstation _ _ _ (room w)) as [r1 c] eqn:E. simpl in Hp.
  unfold syncNpcToRegistry.
  repeat (case_match; simpl); rewrite Hp; eexists; reflexivity.
Qed.

Lemma upsertNpc_assignments p o w :
  exists a, npcAssignments (room (fst (upsertNpc p o w)))
            = <[Npc.agentId p := a]> (npcAssignments (room w))
            /\ Npc.agentId (Assignment.npc a) = Npc.agentId p
            /\ snd (upsertNpc p o w) = a.
Proof.
  unfold SkyOffice.upsertNpc.
  pose proof (assign_frame (getNpcKey (Npc.agentId p)) (Npc.workstationId p)
                (Npc.computerId p) (room w)) as (_ & Ha & _).
  destruct (assignNpcToWorkstation _ _ _ (room w)) as [r1 c] eqn:E. simpl in Ha.
  unfold syncNpcToRegistry.
  repeat (case_match; simpl); rewrite Ha; eexists; split_and!; reflexivity.
Qed.

Lemma upsertNpc_computers p o w :
  computers (room (fst (upsertNpc p o w)))
  = computers (fst (assignNpcToWorkstation (getNpcKey (Npc.agentId p))
                      (Npc.workstationId p) (Npc.computerId p) (room w))).
Proof.
  unfold SkyOffice.upsertNpc.
  destruct (assignNpcToWorkstation _ _ _ (room w)) as [r1 c] eqn:E.
  unfold syncNpcToRegistry. repeat (case_match; simpl); reflexivity.
Qed.

Lemma removeNpc_room a w :
  let r' := room (fst (removeNpc a w)) in
  players r' = delete (getNpcKey a) (players (room w))
  /\ npcAssignments r' = delete a (npcAssignments (room w))
  /\ computers r' = (fun u => u ∖ {[getNpcKey a]}) <$> computers (room w)
  /\ snd (removeNpc a w) = bool_decide (is_Some (npcAssignments (room w) !! a)).
Proof.
  unfold SkyOffice.removeNpc, syncNpcRemovalFromRegistry.
  repeat (case_match; simpl); auto.
Qed.

(** *** Invariants of sequences of [upsertNpc] and [removeNpc] *)

Definition keys_agree (r : Room) : Prop :=
  forall K, is_Some (players r !! getNpcKey K) <-> is_Some (npcAssignments r !! K).

Definition at_most_one_seat (r : Room) : Prop :=
  forall k c1 c2, occupies r k c1 -> occupies r k c2 -> c1 = c2.

Definition five_computers (r : Room) : Prop :=
  forall c, is_Some (computers r !! c) <-> c ∈ COMPUTER_IDS.

Lemma keys_agree_upsert p o w :
  keys_agree (room w) -> keys_agree (room (fst (upsertNpc p o w))).
Proof.
  intros Inv K.
  destruct (upsertNpc_players p o w) as [pl ->].
  destruct (upsertNpc_assignments p o w) as (a & -> & _).
  destruct (decide (K = Npc.agentId p)) as [->|Hne].
  - rewrite !lookup_insert_eq. split; eauto.
  - rewrite !lookup_insert_ne; [apply Inv | congruence |].
    intros E. apply getNpcKey_inj in E. congruence.
Qed.

Lemma keys_agree_remove a w :
  keys_agree (room w) -> keys_agree (room (fst (removeNpc a w))).
Proof.
  intros Inv K.
  destruct (removeNpc_room a w) as (-> & -> & _).
  destruct (decide (K = a)) as [->|Hne].
  - rewrite !lookup_delete_eq. split; intros [? ?]; discriminate.
  - rewrite !lookup_delete_ne; [apply Inv | congruence |].
    intros E. apply getNpcKey_inj in E. congruence.
Qed.

Lemma keys_agree_run ops w : keys_agree (room w) -> keys_agree (room (run_ops ops w)).
Proof.
  revert w. induction ops as [|op ops IH]; intros w Inv; [exact Inv|].
  simpl. apply IH. destruct op; simpl.
  - now apply keys_agree_upsert.
  - now apply keys_agree_remove.
Qed.

Lemma occupies_cleared r r' key k c :
  computers r' = (fun u => u ∖ {[key]}) <$> computers r ->
  occupies r' k c <-> occupies r k c /\ k <> key.
Proof.
  intros E. unfold occupies. rewrite E. setoid_rewrite lookup_fmap. split.
  - intros (u & Hu & Hin). destruct (computers r !! c) as [u0|]; simplify_eq/=.
    split; [exists u0; split; [done | set_solver] | set_solver].
  - intros ((u & Hu & Hin) & Hne). rewrite Hu. simpl. eexists. split; [done | set_solver].
Qed.

Lemma occupies_seated r r' key c target k c' :
  computers r !! c = Some target ->
  computers r' = <[c := (target ∖ {[key]}) ∪ {[key]}]> ((fun u => u ∖ {[key]}) <$> computers r) ->
  occupies r' k c' <-> (k = key /\ c' = c) \/ (k <> key /\ occupies r k c').
Proof.
  intros Ht E. unfold occupies. rewrite E.
  destruct (decide (c' = c)) as [->|Hne].
  - setoid_rewrite lookup_insert_eq. split.
    + intros (u & [= <-] & Hin).
      destruct (decide (k = key)); [auto | right].
      split; [done | exists target; split; [done | set_solver]].
    + intros [[-> _] | (Hne & u & Hu & Hin)].
      * eexists. split; [done | set_solver].
      * eexists. split; [done|]. simplify_eq. set_solver.
  - setoid_rewrite lookup_insert_ne; [|done]. setoid_rewrite lookup_fmap. split.
    + intros (u & Hu & Hin). right.
      destruct (computers r !! c') as [u0|]; simplify_eq/=.
      split; [set_solver | exists u0; split; [done | set_solver]].
    + intros [[_ ?] | (Hk & u & Hu & Hin)]; [done|].
      rewrite Hu. simpl. eexists. split; [done | set_solver].
Qed.

Lemma at_most_one_upsert p o w :
  at_most_one_seat (room w) -> at_most_one_seat (room (fst (upsertNpc p o w))).
Proof.
  intros Inv k c1 c2. unfold occupies at 1 2. rewrite upsertNpc_computers.
  set (key := getNpcKey (Npc.agentId p)).
  destruct (assign_computers key (Npc.workstationId p) (Npc.computerId p) (room w))
    as [[E _] | [[E _] | (c & target & _ & _ & _ & Ht & E & _)]].
  - rewrite E. apply Inv.
  - intros H1 H2.
    apply (occupies_cleared (room w) _ key k c1 E) in H1 as [H1 _].
    apply (occupies_cleared (room w) _ key k c2 E) in H2 as [H2 _].
    eauto.
  - intros H1 H2.
    apply (occupies_seated (room w) _ key c target k c1 Ht E) in H1.
    apply (occupies_seated (room w) _ key c target k c2 Ht E) in H2.
    destruct H1 as [[? ->] | [? H1]], H2 as [[? ->] | [? H2]]; try done. eauto.
Qed.

Lemma at_most_one_remove a w :
  at_most_one_seat (room w) -> at_most_one_seat (room (fst (removeNpc a w))).
Proof.
  intros Inv k c1 c2 H1 H2.
  destruct (removeNpc_room a w) as (_ & _ & E & _).
  apply (occupies_cleared (room w) _ _ k c1 E) in H1 as [H1 _].
  apply (occupies_cleared (room w) _ _ k c2 E) in H2 as [H2 _].
  eauto.
Qed.

Lemma five_computers_upsert p o w :
  five_computers (room w) -> five_computers (room (fst (upsertNpc p o w))).
Proof.
  intros Inv c0. rewrite upsertNpc_computers.
  destruct (assign_computers (getNpcKey (Npc.agentId p)) (Npc.workstationId p)
              (Npc.computerId p) (room w))
    as [[E _] | [[E _] | (c & target & _ & _ & _ & Ht & E & _)]]; rewrite E.
  - apply Inv.
  - rewrite lookup_fmap, fmap_is_Some. apply Inv.
  - destruct (decide (c0 = c)) as [->|Hne].
    + rewrite lookup_insert_eq. split; [intros _; apply Inv; eauto | eauto].
    + rewrite lookup_insert_ne, lookup_fmap, fmap_is_Some; [apply Inv | done].
Qed.

Lemma five_computers_remove a w :
  five_computers (room w) -> five_computers (room (fst (removeNpc a w))).
Proof.
  intros Inv c0. destruct (removeNpc_room a w) as (_ & _ & -> & _).
  rewrite lookup_fmap, fmap_is_Some. apply Inv.
Qed.

Lemma seats_run ops w :
  at_most_one_seat (room w) /\ five_computers (room w) ->
  at_most_one_seat (room (run_ops ops w)) /\ five_computers (room (run_ops ops w)).
Proof.
  revert w. induction ops as [|op ops IH]; intros w [I1 I2]; [done|].
  simpl. apply IH. destruct op; simpl.
  - split; [now apply at_most_one_upsert | now apply five_computers_upsert].
  - split; [now apply at_most_one_remove | now apply five_computers_remove].
Qed.

Lemma created_computers roomId name description ns pw c u :
  computers (onCreate roomId name description ns pw) !! c = Some u <->
  c ∈ COMPUTER_IDS /\ u = ∅.
Proof.
  change (computers (onCreate roomId name description ns pw))
    with (list_to_map (M := gmap string (gset string))
            (map (fun k => (k, ∅)) COMPUTER_IDS)).
  split.
  - intros Hu. apply elem_of_list_to_map_2 in Hu.
    apply list_elem_of_fmap in Hu as (k & [= -> ->] & Hk). done.
  - intros [Hc ->]. apply elem_of_list_to_map_1.
    + rewrite <- list_fmap_compose. simpl. vm_compute. repeat constructor; set_solver.
    + apply list_elem_of_fmap. eauto.
Qed.

Lemma created_invariants roomId name description ns pw :
  let r := onCreate roomId name description ns pw in
  keys_agree r /\ at_most_one_seat r /\ five_computers r.
Proof.
  split_and!.
  - intros K. simpl. rewrite !lookup_empty. done.
  - intros k c1 c2 (u & Hu & Hin) _.
    apply created_computers in Hu as [_ ->]. set_solver.
  - intros c. split.
    + intros [u Hu]. now apply created_computers in Hu.
    + intros Hin. exists ∅. now apply created_computers.
Qed.

(** C5. After any sequence of [upsertNpc] and [removeNpc] calls on a room
    just created, the players map has an entry at ["npc-" + K] exactly when
    the assignment table has an entry at [K], for every agent key [K]. *)
Theorem players_iff_assignments roomId name description ns pw rows ops K :
  let w := run_ops ops (created (onCreate roomId name description ns pw) rows) in
  is_Some (players (room w) !! getNpcKey K) <-> is_Some (npcAssignments (room w) !! K).
Proof.
  intros w. apply keys_agree_run. apply created_invariants.
Qed.

(** C6, as amended. After any sequence of [upsertNpc] and [removeNpc] calls
    on a room just created, an NPC session-key is in the [connectedUser] set
    of at most one computer; and a further [upsertNpc] with a non-empty
    [workstationId] whose target computer -- the payload's [computerId] when
    it has one, else the one the seat table gives -- is one of the room's
    five leaves the session-key in that computer's set and in no other. *)
Theorem npc_seat_unique roomId name description ns pw rows ops :
  let w := run_ops ops (created (onCreate roomId name description ns pw) rows) in
  (forall agent c1 c2,
     occupies (room w) (getNpcKey agent) c1 ->
     occupies (room w) (getNpcKey agent) c2 -> c1 = c2)
  /\ (forall p o c,
        JS.truthy (Npc.workstationId p) = true ->
        opt_or (Npc.computerId p)
          (resolveComputerIdFromWorkstation (Npc.workstationId p)) = Some c ->
        c ∈ COMPUTER_IDS ->
        forall c', occupies (room (fst (upsertNpc p o w))) (getNpcKey (Npc.agentId p)) c'
                   <-> c' = c).
Proof.
  intros w.
  destruct (seats_run ops (created (onCreate roomId name description ns pw) rows))
    as [I1 I2].
  { pose proof (created_invariants roomId name description ns pw) as (_ & ? & ?). done. }
  fold w in I1, I2. split; [intros agent; apply I1|].
  intros p o c Hws Hc Hin c'.
  unfold occupies at 1. rewrite upsertNpc_computers.
  set (key := getNpcKey (Npc.agentId p)).
  assert (JS.truthy c = true) as Htc.
  { unfold COMPUTER_IDS in Hin. set_solver. }
  assert (exists target, computers (room w) !! c = Some target) as [target Ht]
    by (apply I2; done).
  unfold SkyOffice.assignNpcToWorkstation.
  rewrite Hws, Hc. simpl. rewrite Htc. simpl. rewrite lookup_fmap, Ht. simpl.
  destruct (decide (c' = c)) as [->|Hne].
  - rewrite lookup_insert_eq. split; [done|]. intros _. eexists. split; [done|set_solver].
  - rewrite lookup_insert_ne, lookup_fmap by done. split; [|done].
    intros (u & Hu & Hk). destruct (computers (room w) !! c'); simplify_eq/=. set_solver.
Qed.

End RoomProperties.

(** C6, the claim as stated: a payload that names a [computerId] of its own
    is seated there, not at the computer its [workstationId] resolves to. *)
Lemma seat_follows_payload_computerId :
  let w := Samples.upsert (Samples.payload "a.x.office.xyz" (Some "3")) Samples.public_room in
  Samples.seats "design-studio" = Some "0"
  /\ ~ SkyOffice.occupies (SkyOffice.room w) (SkyOffice.getNpcKey "a.x.office.xyz") "0"
  /\ SkyOffice.occupies (SkyOffice.room w) (SkyOffice.getNpcKey "a.x.office.xyz") "3".
Proof.
  intros w. split; [reflexivity|]. split.
  - intros (u & Hu & Hin).
    assert (SkyOffice.computers (SkyOffice.room w) !! "0" = Some ∅) as E
      by (vm_compute; reflexivity).
    rewrite E in Hu. injection Hu as <-. set_solver.
  - exists {[SkyOffice.getNpcKey "a.x.office.xyz"]}.
    split; [vm_compute; reflexivity | set_solver].
Qed.

(** The seat of a payload without [computerId], after an earlier NPC took
    the same workstation. *)
Lemma npc_seat_unique_witness :
  let w := SkyOffice.run_ops Samples.new_Player Samples.seats "t"
             [SkyOffice.Upsert (Samples.payload "b.x.office.xyz" None) Samples.write_through;
              SkyOffice.Remove "c.x.office.xyz"]
             (SkyOffice.created (SkyOffice.onCreate "r1" "public" "" None None) []) in
  let w' := fst (SkyOffice.upsertNpc Samples.new_Player Samples.seats "t"
                   (Samples.payload "a.x.office.xyz" None) Samples.write_through w) in
  SkyOffice.occupies (SkyOffice.room w') (SkyOffice.getNpcKey "a.x.office.xyz") "0"
  /\ ~ SkyOffice.occupies (SkyOffice.room w') (SkyOffice.getNpcKey "a.x.office.xyz") "3".
Proof.
  intros w w'.
  pose proof (proj2 (npc_seat_unique Samples.new_Player Samples.seats "t"
                       "r1" "public" "" None None []
                       [SkyOffice.Upsert (Samples.payload "b.x.office.xyz" None)
                          Samples.write_through;
                        SkyOffice.Remove "c.x.office.xyz"])
                (Samples.payload "a.x.office.xyz" None) Samples.write_through "0"
                eq_refl eq_refl) as Hseat.
  specialize (Hseat (list_elem_of_here "0" ["1"; "2"; "3"; "4"])). split.
  - now apply Hseat.
  - intros H3. apply Hseat in H3. discriminate.
Defined.

(** C4. The three operations match [agentId] exactly: an assignment stored
    under ["Bot"] is neither removed nor found under ["bot"]. *)
Lemma agentId_matched_exactly :
  let w := Samples.upsert (Samples.payload "Bot" None) Samples.public_room in
  let d := {| SkyOffice.activeRooms := [("r1", SkyOffice.room w)];
              SkyOffice.namespaceRooms := {["public" := "r1"]} |} in
  snd (SkyOffice.removeNpc "bot" w) = false
  /\ is_Some (SkyOffice.npcAssignments (SkyOffice.room (fst (SkyOffice.removeNpc "bot" w))) !! "Bot")
  /\ SkyOffice.findRoomWithAgent d "bot" = None
  /\ snd (SkyOffice.removeNpc "Bot" w) = true
  /\ SkyOffice.roomId <$> SkyOffice.findRoomWithAgent d "Bot" = Some "r1".
Proof.
  split_and!; try (vm_compute; reflexivity).
  apply (bool_decide_unpack _). vm_compute. exact I.
Qed.

(** ** Joining a room *)

Section JoinProperties.

Import SkyOffice.

Variable new_Player : Player.t.
Variable resolveComputerIdFromWorkstation : string -> option string.
Variable nowIso : string.
Variable bcrypt_compare : string -> string -> bool.
Variable resolvePresenceSecret :
  string -> option string -> option PresenceSecret.PresenceSecretCacheEntry.
Variable JSON_parse : string -> option ManagerToken.ManagerTokenPayload.
Variable now : Z.

Local Abbreviation upsertNpc :=
  (SkyOffice.upsertNpc new_Player resolveComputerIdFromWorkstation nowIso).
Local Abbreviation ensureNpcAssignmentsLoaded :=
  (SkyOffice.ensureNpcAssignmentsLoaded new_Player resolveComputerIdFromWorkstation nowIso).
Local Abbreviation validateNpcHandshake :=
  (SkyOffice.validateNpcHandshake new_Player resolveComputerIdFromWorkstation nowIso
     resolvePresenceSecret JSON_parse now).
Local Abbreviation onAuth :=
  (SkyOffice.onAuth new_Player resolveComputerIdFromWorkstation nowIso bcrypt_compare
     resolvePresenceSecret JSON_parse now).
Local Abbreviation onJoin :=
  (SkyOffice.onJoin new_Player resolveComputerIdFromWorkstation nowIso).
Local Abbreviation syncNpc := (SkyOffice.syncNpc new_Player resolveComputerIdFromWorkstation).
Local Abbreviation syncNpcsToClient :=
  (SkyOffice.syncNpcsToClient new_Player resolveComputerIdFromWorkstation nowIso).

Local Arguments SkyOffice.ensureNpcAssignmentsLoaded : simpl never.














(** *** The namespace redirect *)

(** [validateNpcHandshake] on its own answers an NPC handshake for another
    room's namespace with [410] and that room's id. *)
Lemma validate_redirects d client options w agent token slug ns target :
  opt_agentId options = JsString agent ->
  JS.truthy (JS.toLowerCase (JS.trim agent)) = true ->
  JS.truthy (tokenCandidate options) = true ->
  opt_namespaceSlug options = JsString slug ->
  JS.truthy (JS.trim slug) = true ->
  namespaceSlug (room w) = Some ns ->
  JS.truthy ns = true ->
  JS.toLowerCase (JS.trim slug) <> JS.toLowerCase ns ->
  npcAssignments (room (ensureNpcAssignmentsLoaded true (ensureNpcAssignmentsLoaded false w)))
    !! JS.toLowerCase (JS.trim agent) = None ->
  npcAssignments (room (ensureNpcAssignmentsLoaded false w))
    !! JS.toLowerCase (JS.trim agent) = None ->
  getRoomByNamespaceSlug d (JS.toLowerCase (JS.trim slug)) = Some target ->
  token = tokenCandidate options ->
  snd (validateNpcHandshake d client options w)
  = Throw (ServerError 410 (redirect_message target)).
Proof.
  intros Ha Hat Htok Hs Hst Hns Hnst Hne Hnone2 Hnone1 Hd _.
  unfold SkyOffice.validateNpcHandshake. cbv zeta.
  rewrite Ha, Hs. cbn [string_and]. rewrite Hat, Htok. cbn [negb].
  rewrite Hnone1, Hnone2.
  rewrite (or_else_l (JS.trim slug)) by done.
  rewrite Hns. cbn [JS.truthy_opt default]. unfold id. rewrite Hst, Hnst.
  rewrite !truthy_toLowerCase, Hst, Hnst. cbn [andb].
  destruct (String.eqb_spec (JS.toLowerCase (JS.trim slug)) (JS.toLowerCase ns)); [done|].
  cbn [negb andb]. rewrite Hd. reflexivity.
Qed.

(** X13. Through [onAuth] the redirect is out of reach: in a room whose
    namespace is trimmed, as [onCreate] leaves it, a handshake that would be
    redirected has already failed the namespace check. *)
Lemma onAuth_never_redirects d client options w message :
  (forall ns, namespaceSlug (room w) = Some ns -> JS.trim ns = ns) ->
  snd (onAuth d client options w) <> Throw (ServerError 410 message).
Proof.
  intros Htrim. unfold SkyOffice.onAuth.
  set (requested := JS.or_else _ _).
  set (current := if JS.truthy_opt (namespaceSlug (room w)) then _ else _).
  destruct (JS.truthy requested && JS.truthy current
            && negb (String.eqb requested current)) eqn:Hguard; [simpl; congruence|].
  assert (forall w1, room w1 = room w ->
            snd (validateNpcHandshake d client options w1)
            <> Throw (ServerError 410 message)) as Hv.
  { intros w1 Hr. unfold SkyOffice.validateNpcHandshake. cbv zeta. rewrite Hr.
    destruct (JS.truthy (string_and _ (opt_agentId options))); cbn [negb];
      [|destruct (JS.truthy (tokenCandidate options)); cbn [snd]; congruence].
    destruct (JS.truthy (tokenCandidate options)); cbn [negb snd]; [|congruence].
    set (expected := JS.or_else (string_and JS.trim (opt_namespaceSlug options)) _).
    assert ((if JS.truthy expected then Some (JS.toLowerCase expected) else None) = None
            \/ (if JS.truthy_opt (namespaceSlug (room w))
                then Some (JS.toLowerCase (default "" (namespaceSlug (room w))))
                else None) = None
            \/ exists e, (if JS.truthy expected then Some (JS.toLowerCase expected) else None)
                         = Some e
                 /\ (if JS.truthy_opt (namespaceSlug (room w))
                     then Some (JS.toLowerCase (default "" (namespaceSlug (room w))))
                     else None) = Some e) as Hsame.
    { destruct (namespaceSlug (room w)) as [ns|] eqn:Hns; simpl; [|auto].
      destruct (JS.truthy ns) eqn:Hnst; [|auto]. right. right.
      subst expected requested current. cbn [JS.truthy_opt default] in *. unfold id in *.
      rewrite Hnst, (Htrim ns eq_refl), truthy_toLowerCase, Hnst in Hguard.
      rewrite (or_else_l ns) by done.
      destruct (opt_namespaceSlug options) as [|s|b]; cbn [string_and] in *;
        try (rewrite (or_else_r "") by done; rewrite Hnst; eauto).
      destruct (JS.truthy (JS.trim s)) eqn:Hs.
      - rewrite (or_else_l (JS.toLowerCase (JS.trim s))) in Hguard
          by now rewrite truthy_toLowerCase.
        rewrite truthy_toLowerCase, Hs in Hguard. cbn [andb] in Hguard.
        apply negb_false_iff, String.eqb_eq in Hguard.
        rewrite (or_else_l (JS.trim s)) by done. rewrite Hs, Hguard. eauto.
      - rewrite (or_else_r (JS.trim s)) by done. rewrite Hnst. eauto. }
    set (agentRaw := string_and _ (opt_agentId options)).
    destruct (npcAssignments (room (ensureNpcAssignmentsLoaded false w1)) !! agentRaw)
      as [a|] eqn:E1.
    { cbv beta iota. repeat (case_match; cbn [snd]; try congruence). }
    destruct (npcAssignments
                (room (ensureNpcAssignmentsLoaded true (ensureNpcAssignmentsLoaded false w1)))
                !! agentRaw) as [a|] eqn:E2.
    { cbv beta iota. repeat (case_match; cbn [snd]; try congruence). }
    cbv beta iota.
    destruct Hsame as [-> | [-> | (e & -> & ->)]]; cbn [snd]; try congruence.
    - destruct (if JS.truthy expected then _ else _); cbn [snd]; congruence.
    - rewrite String.eqb_refl, andb_false_r. cbn [snd]. congruence. }
  destruct (JS.truthy_opt (password (room w))); [|now apply Hv].
  destruct (negb (js_truthy (opt_password options))); [simpl; congruence|].
  destruct (opt_password options); simpl; try congruence.
  destruct (bcrypt_compare _ _); simpl; [now apply Hv | congruence].
Qed.

Lemma onCreate_namespace_trimmed roomId name description nsOpt pw ns :
  namespaceSlug (onCreate roomId name description nsOpt pw) = Some ns -> JS.trim ns = ns.
Proof.
  simpl. intros [= <-]. now rewrite trim_lower, trim_idem.
Qed.

End JoinProperties.

(** C1. Rooms [alpha] and [beta] exist, and an NPC handshake for namespace
    [beta] reaches room [alpha], which holds no assignment for the agent.
    [validateNpcHandshake] alone would answer [410] with [beta]'s room id,
    but [onAuth] has already thrown [403 Namespace mismatch]. *)
Lemma namespace_redirect_preempted :
  let options := Samples.npc_options "bot.beta.office.xyz" "beta" "h.b.s" in
  let client := Samples.fresh_client "s1" in
  snd (Samples.onAuth Samples.two_rooms client options Samples.alpha)
  = Throw (SkyOffice.ServerError 403 "Namespace mismatch")
  /\ snd (Samples.validateNpcHandshake Samples.two_rooms client options Samples.alpha)
     = Throw (SkyOffice.ServerError 410 (SkyOffice.redirect_message "room-beta")).
Proof. split; vm_compute; reflexivity. Qed.


(** ** The token verifier *)

(** Bytes are numbers below 256. *)
Definition bytes_ok (bs : list Z) : Prop := Forall (fun b => 0 <= b < 256) bs.

Lemma bytes_of_ok s : bytes_ok (JS.bytes_of s).
Proof.
  induction s as [|c r IH]; simpl; constructor; [|exact IH].
  pose proof (N_ascii_bounded c). lia.
Qed.

Lemma string_of_bytes_of s : JS.string_of (JS.bytes_of s) = s.
Proof.
  induction s as [|c r IH]; simpl; [reflexivity|]. rewrite IH. f_equal.
  pose proof (N_ascii_bounded c).
  rewrite Z.mod_small by lia. rewrite N2Z.id. apply ascii_N_embedding.
Qed.

Lemma sha256_ok msg : bytes_ok (Node.sha256 msg).
Proof.
  unfold Node.sha256.
  destruct (fold_left Node.compress _ _) as [[[[[[[a b] c] d] e] f] g] h].
  unfold bytes_ok. simpl. repeat constructor; apply Z.mod_pos_bound; lia.
Qed.

Lemma hmac_sha256_ok key msg : bytes_ok (Node.hmac_sha256 key msg).
Proof. apply sha256_ok. Qed.

(** The character of a sextet, after [normalizeBase64Url]'s two
    replacements. *)
Definition normalize_char (c : ascii) : ascii :=
  (fun c => if Ascii.eqb c "_" then "/"%char else c)
    ((fun c => if Ascii.eqb c "-" then "+"%char else c) c).

Definition sextet_checked (v : Z) : bool :=
  let c := Node.base64url_char v in
  bool_decide (Node.unbase64 (normalize_char c) = Some v)
  && ManagerToken.is_base64url_char c
  && negb (Ascii.eqb c "=") && negb (Ascii.eqb c ".")
  && negb (Ascii.eqb (normalize_char c) "=").

Lemma sextet_checked_all v : 0 <= v < 64 -> sextet_checked v = true.
Proof.
  intros Hv.
  assert (forallb sextet_checked (map Z.of_nat (seq 0 64)) = true) as Hall
    by (vm_compute; reflexivity).
  rewrite forallb_forall in Hall. apply Hall.
  apply in_map_iff. exists (Z.to_nat v). split; [lia|]. apply in_seq. lia.
Qed.

Definition sextets_ok (sx : list Z) : Prop := Forall (fun v => 0 <= v < 64) sx.

Local Ltac div_lia := Z.to_euclidean_division_equations; lia.

Lemma sextets_of_bytes_ok bs : bytes_ok bs -> sextets_ok (Node.sextets_of_bytes bs).
Proof.
  revert bs. fix IH 1. intros [|a [|b [|c r]]] H; cbn [Node.sextets_of_bytes].
  - constructor.
  - inversion_clear H. repeat (constructor; [div_lia|]). constructor.
  - inversion_clear H as [|? ? Ha H']. inversion_clear H' as [|? ? Hb _].
    repeat (constructor; [div_lia|]). constructor.
  - inversion_clear H as [|? ? Ha H']. inversion_clear H' as [|? ? Hb H''].
    inversion_clear H'' as [|? ? Hc Hr].
    repeat (constructor; [div_lia|]). apply IH, Hr.
Qed.

Lemma bytes_of_sextets_of_bytes bs :
  bytes_ok bs -> Node.bytes_of_sextets (Node.sextets_of_bytes bs) = bs.
Proof.
  revert bs. fix IH 1.
  intros [|a [|b [|c r]]] H; cbn [Node.sextets_of_bytes Node.bytes_of_sextets].
  - reflexivity.
  - inversion_clear H. f_equal. div_lia.
  - inversion_clear H as [|? ? Ha H']. inversion_clear H' as [|? ? Hb _].
    f_equal; [div_lia|]. f_equal. div_lia.
  - inversion_clear H as [|? ? Ha H']. inversion_clear H' as [|? ? Hb H''].
    inversion_clear H'' as [|? ? Hc Hr].
    rewrite (IH r Hr). f_equal; [div_lia|]. f_equal; [div_lia|]. f_equal. div_lia.
Qed.

Lemma string_app_nil_r (s : string) : s ++ "" = s.
Proof.
  induction s as [|c r IH]; [reflexivity|].
  change (String c (r ++ "") = String c r). now f_equal.
Qed.

Lemma string_app_cons c (s t : string) : String c s ++ t = String c (s ++ t).
Proof. reflexivity. Qed.

Lemma map_str_normalize s :
  JS.map_str (fun c => if Ascii.eqb c "_" then "/"%char else c)
    (JS.map_str (fun c => if Ascii.eqb c "-" then "+"%char else c) s)
  = JS.map_str normalize_char s.
Proof. induction s as [|c r IH]; simpl; [reflexivity | now rewrite IH]. Qed.

Lemma sextets_of_padding k : Node.sextets_of (JS.repeat_char "=" k) = [].
Proof. destruct k; reflexivity. Qed.

Lemma sextets_of_normalized sx k :
  sextets_ok sx ->
  Node.sextets_of (JS.map_str normalize_char (Node.string_of_sextets sx)
                   ++ JS.repeat_char "=" k) = sx.
Proof.
  induction 1 as [|v sx Hv _ IH]; [apply sextets_of_padding|].
  pose proof (sextet_checked_all v Hv) as Hc. unfold sextet_checked in Hc.
  repeat (apply andb_prop in Hc as [Hc ?]). apply bool_decide_eq_true in Hc.
  cbn [Node.string_of_sextets JS.map_str]. rewrite string_app_cons.
  cbn [Node.sextets_of].
  destruct (Ascii.eqb (normalize_char (Node.base64url_char v)) "="); [discriminate|].
  rewrite Hc. now f_equal.
Qed.

(** Decoding undoes the URL-safe encoding, through [normalizeBase64Url]. *)
Lemma base64_decode_encode bs :
  bytes_ok bs ->
  Node.base64_decode (ManagerToken.normalizeBase64Url (Node.base64url_encode bs)) = bs.
Proof.
  intros Hb. unfold Node.base64_decode, ManagerToken.normalizeBase64Url, Node.base64url_encode.
  cbv zeta. rewrite map_str_normalize.
  rewrite <- (bytes_of_sextets_of_bytes bs Hb) at 2. f_equal.
  destruct (_ mod 4)%nat.
  - rewrite <- (string_app_nil_r (JS.map_str _ _)).
    apply (sextets_of_normalized _ 0), sextets_of_bytes_ok, Hb.
  - apply sextets_of_normalized, sextets_of_bytes_ok, Hb.
Qed.

Lemma encode_regexp bs :
  bytes_ok bs -> bs <> [] ->
  ManagerToken.BASE64_URL_REGEXP_test (Node.base64url_encode bs) = true.
Proof.
  intros Hb Hne. unfold ManagerToken.BASE64_URL_REGEXP_test, Node.base64url_encode.
  pose proof (sextets_of_bytes_ok bs Hb) as Hs.
  apply andb_true_intro. split.
  - destruct bs as [|a [|b [|c r]]]; [done | reflexivity..].
  - induction Hs as [|v sx Hv _ IH]; [reflexivity|]. simpl.
    pose proof (sextet_checked_all v Hv) as Hc. unfold sextet_checked in Hc.
    repeat (apply andb_prop in Hc as [Hc ?]). apply andb_true_intro. auto.
Qed.

(** A string without dots. *)
Definition dotless (s : string) : bool :=
  JS.forallb_str (fun c => negb (Ascii.eqb c ".")) s.

Lemma encode_dotless bs : bytes_ok bs -> dotless (Node.base64url_encode bs) = true.
Proof.
  intros Hb. unfold dotless, Node.base64url_encode.
  pose proof (sextets_of_bytes_ok bs Hb) as Hs.
  induction Hs as [|v sx Hv _ IH]; [reflexivity|]. simpl.
  pose proof (sextet_checked_all v Hv) as Hc. unfold sextet_checked in Hc.
  repeat (apply andb_prop in Hc as [Hc ?]). apply andb_true_intro. auto.
Qed.

Lemma split_dotless s : dotless s = true -> JS.split "." s = [s].
Proof.
  induction s as [|c r IH]; simpl; [reflexivity|].
  intros H. apply andb_prop in H as [Hc Hr].
  destruct (Ascii.eqb c "."); [discriminate|]. now rewrite IH.
Qed.

Lemma split_segment s rest :
  dotless s = true -> JS.split "." (s ++ "." ++ rest) = s :: JS.split "." rest.
Proof.
  induction s as [|c r IH]; [reflexivity|].
  rewrite string_app_cons. simpl.
  intros H. apply andb_prop in H as [Hc Hr].
  destruct (Ascii.eqb c "."); [discriminate|]. now rewrite IH.
Qed.

Lemma bytes_of_nonempty s : s <> "" -> JS.bytes_of s <> [].
Proof. destruct s; [congruence | discriminate]. Qed.

Section TokenProperties.

Import ManagerToken.

Variable JSON_parse : string -> option ManagerTokenPayload.

Local Abbreviation verifyManagerToken := (ManagerToken.verifyManagerToken JSON_parse).

(** The payload has no [exp], or one strictly after [now] (milliseconds). *)
Definition exp_fresh (now : Z) (payload : ManagerTokenPayload) : Prop :=
  match exp payload with
  | None => True
  | Some e => (now # 1000 < e)%Q
  end.

Lemma exp_fresh_not_expired now payload : exp_fresh now payload -> expired now payload = false.
Proof.
  unfold exp_fresh, expired. destruct (exp payload) as [e|]; [|reflexivity].
  intros Hlt. apply andb_false_iff. right. apply negb_false_iff.
  apply Qle_bool_iff. now apply Qlt_le_weak.
Qed.

Lemma truthy_app_cons a c r : JS.truthy (a ++ String c r) = true.
Proof. destruct a; reflexivity. Qed.

(** What a successful verification establishes. *)
Lemma verify_sound now token secret payload :
  verifyManagerToken now token secret = Return payload ->
  exists h b s payloadJson,
    JS.split "." token = [h; b; s]
    /\ JS.truthy secret = true
    /\ Node.base64_decode (normalizeBase64Url s)
       = Node.hmac_sha256 (JS.bytes_of secret) (JS.bytes_of (h ++ "." ++ b))
    /\ decodeBase64UrlSegment b = Some payloadJson
    /\ JSON_parse payloadJson = Some payload
    /\ expired now payload = false.
Proof.
  unfold ManagerToken.verifyManagerToken.
  destruct (JS.truthy token); [|discriminate]. cbn [negb].
  destruct (JS.truthy secret) eqn:Hsec; [|discriminate]. cbn [negb].
  destruct (JS.split "." token) as [|h [|b [|s [|? ?]]]]; try discriminate.
  cbv zeta.
  destruct (length _ =? length _)%nat; [|discriminate]. cbn [negb].
  destruct (bool_decide _) eqn:Hsig; [|discriminate]. cbn [negb].
  apply bool_decide_eq_true in Hsig.
  destruct (decodeBase64UrlSegment b) as [payloadJson|] eqn:Hdec; [|discriminate].
  destruct (JSON_parse payloadJson) as [p|] eqn:Hp; [|discriminate].
  destruct (expired now p) eqn:He; [discriminate|].
  intros [= <-]. exists h, b, s, payloadJson. split_and!; auto.
Qed.

(** A token of three segments whose signature verifies under the secret. *)
Lemma verify_signed now h b s secret :
  JS.truthy secret = true ->
  dotless h = true -> dotless b = true -> dotless s = true ->
  Node.base64_decode (normalizeBase64Url s)
  = Node.hmac_sha256 (JS.bytes_of secret) (JS.bytes_of (h ++ "." ++ b)) ->
  verifyManagerToken now (h ++ "." ++ b ++ "." ++ s) secret
  = match decodeBase64UrlSegment b with
    | None => Throw InvalidSegmentEncoding
    | Some payloadJson =>
        match JSON_parse payloadJson with
        | None => Throw JsonSyntaxError
        | Some payload =>
            if expired now payload then Throw TokenExpired else Return payload
        end
    end.
Proof.
  intros Hs Hh Hb Hsd Hsig. unfold ManagerToken.verifyManagerToken.
  change (h ++ "." ++ b ++ "." ++ s) with (h ++ String "." (b ++ "." ++ s)) at 1.
  rewrite truthy_app_cons, Hs. cbn [negb].
  rewrite split_segment, split_segment, split_dotless by done.
  cbv zeta. rewrite Hsig, Nat.eqb_refl. cbn [negb].
  rewrite bool_decide_eq_true_2 by reflexivity. reflexivity.
Qed.

(** C3, as amended. For every non-empty secret and every JSON payload text
    whose object has no [exp] or an [exp] strictly in the future, the token
    signed with the secret verifies under the same secret and yields the
    payload; and verification returns a payload only for a token of three
    segments whose signature segment decodes to the HMAC-SHA256 of
    [header + "." + body] under the presented, non-empty secret -- with any
    other secret or segments it throws. *)
Theorem sign_then_verify now :
  (forall secret header payloadJson payload,
     JS.truthy secret = true ->
     payloadJson <> "" ->
     JSON_parse payloadJson = Some payload ->
     exp_fresh now payload ->
     verifyManagerToken now (sign secret header payloadJson) secret = Return payload)
  /\ (forall token secret,
        (exists h b s,
           JS.split "." token = [h; b; s]
           /\ JS.truthy secret = true
           /\ Node.base64_decode (normalizeBase64Url s)
              = Node.hmac_sha256 (JS.bytes_of secret) (JS.bytes_of (h ++ "." ++ b)))
        \/ exists e, verifyManagerToken now token secret = Throw e).
Proof.
  split.
  - intros secret header payloadJson payload Hs Hne Hp Hexp. unfold sign. cbv zeta.
    rewrite verify_signed; try done.
    + unfold decodeBase64UrlSegment.
      rewrite encode_regexp by (auto using bytes_of_ok, bytes_of_nonempty).
      rewrite base64_decode_encode by apply bytes_of_ok.
      rewrite string_of_bytes_of, Hp, exp_fresh_not_expired; done.
    + apply encode_dotless, bytes_of_ok.
    + apply encode_dotless, bytes_of_ok.
    + apply encode_dotless, hmac_sha256_ok.
    + apply base64_decode_encode, hmac_sha256_ok.
  - intros token secret.
    destruct (verifyManagerToken now token secret) as [p|e] eqn:Hv; [left | right; eauto].
    apply verify_sound in Hv as (h & b & s & _ & ? & ? & ? & _). eauto 7.
Qed.


End TokenProperties.

(** C3 at a concrete token: a payload with an [agentId] and an [exp] in
    the future, signed and verified with the same secret. *)
Lemma sign_then_verify_witness :
  let dq := String (ascii_of_N 34) EmptyString in
  let body := "{" ++ dq ++ "agentId" ++ dq ++ ":" ++ dq ++ "bot" ++ dq ++ ","
              ++ dq ++ "exp" ++ dq ++ ":1767229200}" in
  ManagerToken.verifyManagerToken ManagerToken.parse_flat 1767225600000
    (ManagerToken.sign "s3cret" "{}" body) "s3cret"
  = Return {| ManagerToken.agentId := Some "bot"; ManagerToken.namespace := None;
              ManagerToken.namespaceSlug := None; ManagerToken.officeId := None;
              ManagerToken.exp := Some 1767229200%Q; ManagerToken.iat := None;
              ManagerToken.jti := None |}.
Proof.
  intros dq body.
  apply (proj1 (sign_then_verify ManagerToken.parse_flat 1767225600000)).
  - reflexivity.
  - discriminate.
  - vm_compute. reflexivity.
  - vm_compute. reflexivity.
Defined.

(** C3, the claim as stated. The empty secret signs a token that does not
    verify (the verifier refuses an empty secret); a signature segment
    altered in its last character, whose low bits the decoder drops, still
    verifies; and so does the secret extended by a zero byte, which HMAC
    pads to the same key block. *)
Lemma roundtrip_and_tamper_exceptions :
  let now := 1767225600000 in
  let empty := {| ManagerToken.agentId := None; ManagerToken.namespace := None;
                  ManagerToken.namespaceSlug := None; ManagerToken.officeId := None;
                  ManagerToken.exp := None; ManagerToken.iat := None;
                  ManagerToken.jti := None |} in
  ManagerToken.verifyManagerToken ManagerToken.parse_flat now
    (ManagerToken.sign "" "{}" "{}") "" = Throw ManagerToken.SecretMissing
  /\ ManagerToken.sign "s3cret" "{}" "{}"
     = "e30.e30.CIJFrgkDDGavrpWi1HeP_5pcz1RBkTQFRIe1Sz0h-1U"
  /\ ManagerToken.verifyManagerToken ManagerToken.parse_flat now
       "e30.e30.CIJFrgkDDGavrpWi1HeP_5pcz1RBkTQFRIe1Sz0h-1V" "s3cret" = Return empty
  /\ ManagerToken.verifyManagerToken ManagerToken.parse_flat now
       (ManagerToken.sign "s3cret" "{}" "{}") ("s3cret" ++ String (ascii_of_N 0) "")
     = Return empty.
Proof. intros now empty. split_and!; vm_compute; reflexivity. Qed.

(** C9. A correctly signed token whose payload is [{"exp":0}] is returned,
    not refused as expired, long after the epoch: the zero is falsy. *)
Lemma zero_exp_never_expires :
  let dq := String (ascii_of_N 34) EmptyString in
  let body := "{" ++ dq ++ "exp" ++ dq ++ ":0}" in
  ManagerToken.sign "s3cret" "{}" body
  = "e30.eyJleHAiOjB9.46iWZ7cc8LOs55O-UWrKxEve_OXv_RCrpCJ3ibeM_QI"
  /\ ManagerToken.verifyManagerToken ManagerToken.parse_flat 1767225600000
       (ManagerToken.sign "s3cret" "{}" body) "s3cret"
     = Return {| ManagerToken.agentId := None; ManagerToken.namespace := None;
                 ManagerToken.namespaceSlug := None; ManagerToken.officeId := None;
                 ManagerToken.exp := Some 0%Q; ManagerToken.iat := None;
                 ManagerToken.jti := None |}.
Proof. split; vm_compute; reflexivity. Qed.

(** ** The secret resolver *)

Section ResolverProperties.

Import PresenceSecret.

Variable env : string -> option string.
Variable now : Z.
Variable SECRET_CACHE_TTL_MS : Z.
Variable loadSecretFromTenantKeys : string -> option string.
Variable fetchPresenceSecretFromRegistry : string -> string -> option string.

Local Abbreviation env_chain := (PresenceSecret.env_chain env).
Local Abbreviation resolvePresenceSecret :=
  (PresenceSecret.resolvePresenceSecret env now SECRET_CACHE_TTL_MS
     loadSecretFromTenantKeys fetchPresenceSecretFromRegistry).






End ResolverProperties.


(** ** The precomputed grid *)

Section GridProperties.

Import WalkableMap.

(** [value ? 1 : 0] on every cell. *)
Definition normalise_rows (rows : list (option (list Z))) : list (list Z) :=
  map (fun row => map (fun value => if value =? 0 then 0 else 1) (default [] row)) rows.

(** Every row is an array of [width] cells. *)
Definition rectangular (width : Z) (rows : list (option (list Z))) : Prop :=
  forall row, row ∈ rows -> exists cells, row = Some cells /\ Z.of_nat (length cells) = width.

Lemma sha256_nonempty msg : Node.sha256 msg <> [].
Proof.
  unfold Node.sha256.
  destruct (fold_left Node.compress _ _) as [[[[[[[a b] c] d] e] f] g] h]. discriminate.
Qed.

Lemma hex_truthy bs : bs <> [] -> JS.truthy (Node.hex bs) = true.
Proof. destruct bs; [congruence | reflexivity]. Qed.

Lemma mapHashOf_truthy mapRaw : JS.truthy (mapHashOf mapRaw) = true.
Proof. apply hex_truthy, sha256_nonempty. Qed.

Lemma existsb_rows_false width rows :
  existsb (fun row => match row with
                      | Some r => negb (Z.of_nat (length r) =? width)
                      | None => true
                      end) rows = false ->
  rectangular width rows.
Proof.
  intros H row Hin. rewrite <- not_true_iff_false, existsb_exists in H.
  destruct row as [cells|].
  - exists cells. split; [reflexivity|].
    destruct (Z.of_nat (length cells) =? width) eqn:E; [lia|].
    exfalso. apply H. exists (Some cells). rewrite E.
    split; [now apply list_elem_of_In | reflexivity].
  - exfalso. apply H. exists None. split; [now apply list_elem_of_In | reflexivity].
Qed.

(** What the loader has checked when it returns a map, an expectation
    being given. *)
Lemma loadPrecomputedGrid_accepts data e m :
  loadPrecomputedGrid (Some data) (Some e) = Return (Some m) ->
  exists rows,
    sc_grid data = Some rows /\ rows <> [] /\ width m <> 0
    /\ rectangular (width m) rows
    /\ height m = Z.of_nat (length rows)
    /\ grid m = normalise_rows rows
    /\ width m = ex_width e /\ height m = ex_height e
    /\ (forall tw, sc_tileWidth data = Some tw -> (tw == ex_tileWidth e)%Q)
    /\ (forall th, sc_tileHeight data = Some th -> (th == ex_tileHeight e)%Q)
    /\ (JS.truthy_opt (ex_mapHash e) = true -> sc_mapHash data = ex_mapHash e)
    /\ (JS.truthy_opt (sc_gridHash data) = true ->
        sc_gridHash data = Some (computeGridHash (grid m))).
Proof.
  unfold loadPrecomputedGrid.
  destruct (sc_grid data) as [[|row0 rows]|]; try discriminate.
  cbv zeta.
  set (w := match row0 with Some r => Z.of_nat (length r) | None => 0 end).
  destruct (w =? 0) eqn:Hw0; [discriminate|]. cbn [orb].
  destruct (existsb _ (row0 :: rows)) eqn:Hrect; [discriminate|].
  destruct (negb (w =? ex_width e) || negb (Z.of_nat (length (row0 :: rows)) =? ex_height e))
    eqn:Hsize; [discriminate|].
  apply orb_false_elim in Hsize as [Hsw Hsh].
  apply negb_false_iff, Z.eqb_eq in Hsw, Hsh.
  destruct (negb (Qeq_bool (default (ex_tileWidth e) (sc_tileWidth data)) (ex_tileWidth e))
            || negb (Qeq_bool (default (ex_tileHeight e) (sc_tileHeight data)) (ex_tileHeight e)))
    eqn:Htile; [discriminate|].
  apply orb_false_elim in Htile as [Htw Hth].
  apply negb_false_iff, Qeq_bool_iff in Htw, Hth.
  intros H.
  assert (JS.truthy_opt (ex_mapHash e) = true -> sc_mapHash data = ex_mapHash e) as Hmap.
  { intros Ht. rewrite Ht in H.
    destruct (JS.truthy_opt (sc_mapHash data)); [|discriminate]. cbn [negb] in H.
    destruct (bool_decide (sc_mapHash data = ex_mapHash e)) eqn:Hb; [|discriminate].
    now apply bool_decide_eq_true in Hb. }
  assert (match
            (if JS.truthy_opt (ex_mapHash e)
             then if negb (JS.truthy_opt (sc_mapHash data)) then Some MissingMapHash
                  else if negb (bool_decide (sc_mapHash data = ex_mapHash e))
                       then Some MapHashMismatch else None
             else None)
          with Some _ => False | None => True end) as Hnone.
  { destruct (if JS.truthy_opt (ex_mapHash e) then _ else _); [discriminate | exact I]. }
  destruct (if JS.truthy_opt (ex_mapHash e) then _ else _); [contradiction|].
  destruct (JS.truthy_opt (sc_gridHash data) && negb _) eqn:Hg; [discriminate|].
  injection H as <-. cbn [grid width height].
  exists (row0 :: rows). split_and!; try done.
  - intros ->. discriminate.
  - now apply existsb_rows_false.
  - intros tw Htw'. now rewrite Htw' in Htw.
  - intros th Hth'. now rewrite Hth' in Hth.
  - intros Ht. rewrite Ht in Hg. cbn [andb] in Hg.
    apply negb_false_iff, bool_decide_eq_true in Hg. exact Hg.
Qed.

(** C8, as amended. When the tile-map text parses, a sidecar is loaded
    only if its grid is a non-empty array of rows of equal, non-zero
    length, its dimensions are the map's, the tile sizes it states are the
    map's, its [mapHash] is the SHA-256 of the tile-map text, and its
    [gridHash], if it carries a non-empty one, is the SHA-256 of the
    stringified grid after every cell is normalised to 0 or 1; the map
    returned holds that normalised grid. *)
Theorem sidecar_loaded_only_if parse_map mapRaw data w h tw th m :
  parse_map mapRaw = Some (w, h, tw, th) ->
  loadDefaultGrid parse_map mapRaw (Some data) = Return (Some m) ->
  exists rows,
    sc_grid data = Some rows /\ rows <> [] /\ w <> 0 /\ rectangular w rows
    /\ Z.of_nat (length rows) = h
    /\ width m = w /\ height m = h
    /\ (forall t, sc_tileWidth data = Some t -> (t == tw)%Q)
    /\ (forall t, sc_tileHeight data = Some t -> (t == th)%Q)
    /\ sc_mapHash data = Some (mapHashOf mapRaw)
    /\ (JS.truthy_opt (sc_gridHash data) = true ->
        sc_gridHash data = Some (computeGridHash (normalise_rows rows)))
    /\ grid m = normalise_rows rows.
Proof.
  intros Hp. unfold loadDefaultGrid. rewrite Hp. intros H.
  apply loadPrecomputedGrid_accepts in H
    as (rows & Hg & Hne & Hw & Hrect & Hh & Hgrid & Hwe & Hhe & Htw & Hth & Hmap & Hhash).
  cbn [ex_width ex_height ex_tileWidth ex_tileHeight ex_mapHash] in *.
  exists rows. rewrite <- Hgrid. subst w h.
  split_and!; auto. apply Hmap. apply mapHashOf_truthy.
Qed.

End GridProperties.

(** C8 at a sidecar that is accepted. *)
Lemma sidecar_loaded_only_if_witness :
  exists rows,
    WalkableMap.sc_grid (Samples.sidecar 1 (Some Samples.grid_hash)) = Some rows
    /\ rows <> [] /\ 2 <> 0 /\ rectangular 2 rows
    /\ Z.of_nat (length rows) = 2
    /\ WalkableMap.width Samples.loaded = 2 /\ WalkableMap.height Samples.loaded = 2
    /\ (forall t, WalkableMap.sc_tileWidth (Samples.sidecar 1 (Some Samples.grid_hash)) = Some t
                  -> (t == 32)%Q)
    /\ (forall t, WalkableMap.sc_tileHeight (Samples.sidecar 1 (Some Samples.grid_hash)) = Some t
                  -> (t == 32)%Q)
    /\ WalkableMap.sc_mapHash (Samples.sidecar 1 (Some Samples.grid_hash))
       = Some (WalkableMap.mapHashOf Samples.map_text)
    /\ (JS.truthy_opt (WalkableMap.sc_gridHash (Samples.sidecar 1 (Some Samples.grid_hash)))
        = true ->
        WalkableMap.sc_gridHash (Samples.sidecar 1 (Some Samples.grid_hash))
        = Some (WalkableMap.computeGridHash (normalise_rows rows)))
    /\ WalkableMap.grid Samples.loaded = normalise_rows rows.
Proof.
  apply (sidecar_loaded_only_if Samples.parse_map Samples.map_text
           (Samples.sidecar 1 (Some Samples.grid_hash)) 2 2 32%Q 32%Q Samples.loaded).
  - reflexivity.
  - vm_compute. reflexivity.
Defined.

(** C8, the claim as stated. A sidecar that is accepted stays accepted,
    with the same result, when a grid cell is changed from 1 to 2 under the
    same [gridHash]; stays accepted when the first byte of the tile-map
    text is changed so that it no longer parses, no comparison being made
    then; and a sidecar
    without [gridHash] is accepted although no hash of its grid was
    compared. *)
Lemma unchecked_mutations_load :
  WalkableMap.loadDefaultGrid Samples.parse_map Samples.map_text
    (Some (Samples.sidecar 1 (Some Samples.grid_hash))) = Return (Some Samples.loaded)
  /\ WalkableMap.loadDefaultGrid Samples.parse_map Samples.map_text
       (Some (Samples.sidecar 2 (Some Samples.grid_hash))) = Return (Some Samples.loaded)
  /\ WalkableMap.loadDefaultGrid Samples.parse_map
       (match Samples.map_text with String _ rest => String "(" rest | _ => "" end)
       (Some (Samples.sidecar 1 (Some Samples.grid_hash))) = Return (Some Samples.loaded)
  /\ WalkableMap.loadDefaultGrid Samples.parse_map Samples.map_text
       (Some (Samples.sidecar 1 None)) = Return (Some Samples.loaded).
Proof. split_and!; vm_compute; reflexivity. Qed.

(** ** The path finder *)

Section PathProperties.

Import WalkableMap.

Variable m : WalkableMap.t.
Variable startTile targetTile : Tile.

(** Tiles that share an edge. *)
Definition neighbours (a b : Tile) : Prop :=
  Z.abs (fst a - fst b) + Z.abs (snd a - snd b) = 1.

(** A tile within the bounds of the map. *)
Definition in_bounds (tile : Tile) : Prop :=
  0 <= fst tile < width m /\ 0 <= snd tile < height m.

Lemma isWalkable_in_bounds tile : isWalkable m tile = Return true -> in_bounds tile.
Proof.
  destruct tile as [x y]. unfold isWalkable, in_bounds. simpl.
  destruct (_ || _) eqn:E; [discriminate|]. intros _.
  apply orb_false_elim in E as [E E4]. apply orb_false_elim in E as [E E3].
  apply orb_false_elim in E as [E1 E2]. lia.
Qed.

(** A chain of tiles from the start tile to [k]: each tile after the first
    is walkable and a neighbour of the one before it. *)
Inductive chain_to : Tile -> list Tile -> Prop :=
| chain_start : chain_to startTile [startTile]
| chain_step p k tiles :
    chain_to p tiles -> neighbours p k -> isWalkable m k = Return true ->
    chain_to k (tiles ++ [k]).

Lemma chain_to_list k tiles :
  chain_to k tiles ->
  head tiles = Some startTile
  /\ last tiles = Some k
  /\ (forall i a b, tiles !! i = Some a -> tiles !! S i = Some b ->
        neighbours a b /\ isWalkable m b = Return true).
Proof.
  induction 1 as [|p k tiles Hc (Hh & Hl & Hs) Hn Hw].
  - split_and!; [reflexivity..|]. intros [|i] a b; discriminate.
  - split_and!.
    + destruct tiles; [discriminate | exact Hh].
    + apply last_snoc.
    + intros i a b Ha Hb.
      destruct (decide (S i < length tiles)%nat) as [Hi|Hi].
      * rewrite lookup_app_l in Ha by lia. rewrite lookup_app_l in Hb by lia. eauto.
      * assert (S i = length tiles) as Hi'.
        { apply lookup_lt_Some in Hb. rewrite length_app in Hb. simpl in Hb. lia. }
        rewrite lookup_app_l in Ha by lia.
        rewrite last_lookup in Hl. rewrite <- Hi' in Hl. simpl in Hl.
        rewrite Hl in Ha. injection Ha as <-.
        rewrite Hi', lookup_app_r, Nat.sub_diag in Hb by lia.
        injection Hb as <-. done.
Qed.

(** What the maps of a search hold at every pass of the loop. *)
Record search_inv (st : Search) : Prop := {
  inv_nonneg : forall n g, gScore st !! n = Some g -> 0 <= g;
  inv_start : cameFrom st !! startTile = Some None /\ gScore st !! startTile = Some 0;
  inv_root : forall n, cameFrom st !! n = Some None -> n = startTile;
  inv_tile : forall n, is_Some (cameFrom st !! n) -> tileByKey st !! n = Some n;
  inv_parent : forall n p,
    cameFrom st !! n = Some (Some p) ->
    p ∈ closedSet st /\ isWalkable m n = Return true /\ neighbours p n
    /\ exists g, gScore st !! p = Some g /\ gScore st !! n = Some (g + 1);
  inv_closed : forall k, k ∈ closedSet st -> is_Some (cameFrom st !! k);
  inv_open : forall k f, (k, f) ∈ openSet st ->
    is_Some (cameFrom st !! k) /\ k ∉ closedSet st;
}.

Lemma initial_inv : search_inv (initial startTile targetTile).
Proof.
  unfold initial, tileKey. split; simpl.
  - intros n g H. apply lookup_singleton_Some in H as [_ <-]. lia.
  - now rewrite !lookup_singleton_eq.
  - intros n H. now apply lookup_singleton_Some in H as [-> _].
  - intros n [x H]. apply lookup_singleton_Some in H as [<- _].
    apply lookup_singleton_eq.
  - intros n p H. apply lookup_singleton_Some in H as [_ [=]].
  - intros k H. set_solver.
  - intros k f H. apply list_elem_of_singleton in H as [= -> ->].
    rewrite !lookup_singleton_eq. split; [eauto | set_solver].
Qed.

(** Every known key has a score. *)
Lemma inv_scored st k :
  search_inv st -> is_Some (cameFrom st !! k) -> is_Some (gScore st !! k).
Proof.
  intros Inv [[p|] Hp].
  - destruct (inv_parent st Inv k p Hp) as (_ & _ & _ & g & _ & Hg). eauto.
  - apply (inv_root st Inv) in Hp as ->. exists 0. apply Inv.
Qed.

(** Every known key is the start tile or a walkable tile of the grid. *)
Lemma inv_known st k :
  search_inv st -> is_Some (cameFrom st !! k) -> k = startTile \/ in_bounds k.
Proof.
  intros Inv [[p|] Hp].
  - right. apply isWalkable_in_bounds. now apply (inv_parent st Inv k p).
  - left. now apply (inv_root st Inv).
Qed.

Lemma elem_of_open_set k f l e :
  e ∈ open_set k f l -> e = (k, f) \/ e ∈ l.
Proof.
  induction l as [|[k' f'] r IH]; simpl.
  - intros H. apply list_elem_of_singleton in H. auto.
  - case_bool_decide as Hk.
    + intros H. apply elem_of_cons in H as [->|H]; [auto | right; now right].
    + intros H. apply elem_of_cons in H as [->|H]; [right; left|].
      destruct (IH H) as [->|?]; [auto | right; now right].
Qed.

Lemma elem_of_open_delete k l e : e ∈ open_delete k l -> e ∈ l /\ fst e <> k.
Proof.
  unfold open_delete. rewrite list_elem_of_In, filter_In, <- list_elem_of_In.
  intros [H1 H2]. split; [done|]. apply negb_true_iff, bool_decide_eq_false in H2. done.
Qed.

Lemma directions_neighbours (p dir : Tile) :
  dir ∈ directions -> neighbours p (fst p + fst dir, snd p + snd dir).
Proof.
  unfold directions, neighbours. intros H.
  repeat (apply elem_of_cons in H as [->|H]); [simpl; lia.. | inversion H].
Qed.

(** Expanding one direction keeps the invariant and the closed set. *)
Lemma relax_inv current st dir st' :
  dir ∈ directions ->
  current ∈ closedSet st ->
  search_inv st ->
  relax m targetTile current st dir = Return st' ->
  search_inv st' /\ closedSet st' = closedSet st.
Proof.
  intros Hdir Hcur Inv. unfold relax, tileKey.
  set (nb := (fst current + fst dir, snd current + snd dir)).
  case_bool_decide as Hclosed; [now intros [= <-]|].
  destruct (isWalkable m nb) as [[|]|] eqn:Hwalk; [|now intros [= <-]|discriminate].
  destruct (inv_scored st current Inv (inv_closed st Inv current Hcur)) as [gc Hgc].
  cbv zeta. rewrite Hgc. cbn [default from_option]. unfold id.
  pose proof (inv_nonneg st Inv current gc Hgc) as Hgc0.
  match goal with |- context [if ?b then _ else _] => destruct b eqn:Hskip end;
    [now intros [= <-]|].
  intros [= <-]. split; [|reflexivity].
  assert (nb <> startTile) as Hns.
  { intros E. destruct (inv_start st Inv) as [_ Hs]. rewrite E, Hs in Hskip. lia. }
  assert (nb <> current) as Hnc by (intros E; rewrite E in Hclosed; contradiction).
  split; cbn [gScore cameFrom tileByKey closedSet openSet].
  - intros n g. rewrite lookup_insert. case_decide; [intros [= <-]; lia | apply Inv].
  - rewrite !lookup_insert_ne by done. apply Inv.
  - intros n. rewrite lookup_insert. case_decide; [discriminate | apply Inv].
  - intros n. rewrite !lookup_insert. case_decide; [now subst | apply Inv].
  - intros n p. rewrite lookup_insert. case_decide as Hn.
    + intros [= <-]. subst n. split_and!; [done | done | now apply directions_neighbours |].
      exists gc. rewrite lookup_insert_ne by done. rewrite lookup_insert_eq. done.
    + intros Hp. destruct (inv_parent st Inv n p Hp) as (Hpc' & Hw & Hadj & g & Hg1 & Hg2).
      split_and!; [done..|]. exists g.
      rewrite !lookup_insert_ne; [done | done | intros ->; contradiction].
  - intros k Hk. rewrite lookup_insert. case_decide; [eauto | now apply Inv].
  - intros k f Hin. apply elem_of_open_set in Hin as [[= -> _]|Hin].
    + rewrite !lookup_insert_eq. eauto.
    + rewrite !lookup_insert. destruct (inv_open st Inv k f Hin).
      split; [case_decide; eauto | done].
Qed.

Lemma expand_inv current dirs : forall st st',
  (forall d, d ∈ dirs -> d ∈ directions) ->
  current ∈ closedSet st ->
  search_inv st ->
  expand m targetTile current dirs st = Return st' ->
  search_inv st' /\ closedSet st' = closedSet st.
Proof.
  induction dirs as [|d dirs IH]; intros st st' Hd Hcur Inv; simpl.
  - now intros [= <-].
  - destruct (relax m targetTile current st d) as [st1|] eqn:Hr; [|discriminate].
    intros He.
    destruct (relax_inv current st d st1) as [I1 C1]; [apply Hd; left | done..|].
    destruct (IH st1 st') as [I2 C2]; [|congruence|done..|].
    + intros d' Hin. apply Hd. now right.
    + split; [done | congruence].
Qed.

Lemma pick_from (cur : option (Tile * Z)) l e :
  fold_left (fun (cur : option (Tile * Z)) e => match cur with
                          | None => Some e
                          | Some c => if snd e <? snd c then Some e else cur
                          end) l cur = Some e ->
  cur = Some e \/ e ∈ l.
Proof.
  revert cur. induction l as [|x l IH]; intros cur; simpl; [auto|].
  intros H. apply IH in H as [H|H]; [|right; now right].
  destruct cur as [c|]; [|injection H as <-; right; left].
  destruct (snd x <? snd c); [injection H as <-; right; left | auto].
Qed.

Lemma pick_elem l e : pick l = Some e -> e ∈ l.
Proof. intros H. apply pick_from in H as [?|?]; [discriminate | done]. Qed.

(** Closing the picked key keeps the invariant. *)
Lemma close_inv st current f :
  (current, f) ∈ openSet st ->
  search_inv st ->
  search_inv {| openSet := open_delete current (openSet st);
                gScore := gScore st; cameFrom := cameFrom st;
                tileByKey := tileByKey st;
                closedSet := closedSet st ∪ {[current]} |}.
Proof.
  intros Hin Inv. split; cbn [gScore cameFrom tileByKey closedSet openSet]; try apply Inv.
  - intros n p Hp. destruct (inv_parent st Inv n p Hp) as (? & ? & ? & ?).
    split_and!; [set_solver | done..].
  - intros k Hk. apply elem_of_union in Hk as [Hk|Hk]; [now apply Inv|].
    apply elem_of_singleton in Hk as ->. now apply (inv_open st Inv current f).
  - intros k f' Hk. apply elem_of_open_delete in Hk as [Hk Hne]. simpl in Hne.
    destruct (inv_open st Inv k f' Hk). split; [done | set_solver].
Qed.

(** The walk back from a known key yields a chain from the start tile. *)
Lemma reconstruct_chain st :
  search_inv st ->
  forall fuel k acc tiles,
    is_Some (cameFrom st !! k) ->
    reconstruct fuel st (Some k) acc = Some tiles ->
    exists chain, tiles = (chain ++ acc)%list /\ chain_to k chain.
Proof.
  intros Inv. induction fuel as [|fuel IH]; intros k acc tiles Hk; simpl; [discriminate|].
  rewrite (inv_tile st Inv k Hk). destruct Hk as [[p|] Hp]; rewrite Hp; simpl.
  - intros H. destruct (inv_parent st Inv k p Hp) as (Hpc & Hw & Hadj & _).
    apply IH in H as (chain & -> & Hchain); [|now apply Inv].
    exists (chain ++ [k])%list. split; [now rewrite <- app_assoc | now apply (chain_step p)].
  - apply (inv_root st Inv) in Hp as ->.
    destruct fuel; simpl; intros [= <-]; exists [startTile]; (split; [done | constructor]).
Qed.

Lemma search_chain fuel : forall st tiles,
  search_inv st ->
  search fuel m targetTile st = Some (Return (Some tiles)) ->
  chain_to targetTile tiles.
Proof.
  induction fuel as [|fuel IH]; intros st tiles Inv; cbn [search]; [discriminate|].
  destruct (pick (openSet st)) as [[current f]|] eqn:Hpick; [|discriminate].
  apply pick_elem in Hpick.
  case_bool_decide as Ht.
  - subst current.
    destruct (reconstruct (S (size (cameFrom st))) st (Some targetTile) []) as [l|] eqn:Hr;
      [|discriminate].
    intros [= <-].
    apply (reconstruct_chain st Inv) in Hr as (chain & -> & Hc);
      [|now apply (inv_open st Inv targetTile f)].
    now rewrite app_nil_r.
  - match goal with |- context [expand m targetTile current directions ?s] =>
      destruct (expand m targetTile current directions s) as [st2|] eqn:He end;
      [|discriminate].
    apply IH. eapply expand_inv in He as [I2 _]; [done | done | set_solver |].
    now apply (close_inv st current f).
Qed.


(** *** The loops end *)

(** A key of score [g] stands at the end of a chain of [g + 1] known keys
    of different scores. *)
Lemma score_count st :
  search_inv st ->
  forall n k g,
    Z.to_nat g = n -> gScore st !! k = Some g -> is_Some (cameFrom st !! k) ->
    exists X : gset Tile,
      X ⊆ dom (cameFrom st) /\ size X = S n
      /\ forall x, x ∈ X -> exists g', gScore st !! x = Some g' /\ g' <= g.
Proof.
  intros Inv. induction n as [|n IH]; intros k g Hn Hg [[p|] Hp].
  - destruct (inv_parent st Inv k p Hp) as (_ & _ & _ & gp & Hgp & Hgk).
    pose proof (inv_nonneg st Inv p gp Hgp). rewrite Hg in Hgk. injection Hgk as ->. lia.
  - exists {[k]}. split_and!.
    + apply singleton_subseteq_l, elem_of_dom. eauto.
    + apply size_singleton.
    + intros x Hx. apply elem_of_singleton in Hx as ->. exists g. split; [done | lia].
  - destruct (inv_parent st Inv k p Hp) as (Hpc & _ & _ & gp & Hgp & Hgk).
    pose proof (inv_nonneg st Inv p gp Hgp) as Hgp0.
    rewrite Hg in Hgk. injection Hgk as ->.
    destruct (IH p gp) as (X & HX & Hsize & Hle); [lia | done | now apply Inv |].
    assert (k ∉ X) as Hk.
    { intros Hin. destruct (Hle k Hin) as (g' & Hg' & ?). rewrite Hg in Hg'.
      injection Hg' as <-. lia. }
    exists (X ∪ {[k]}). split_and!.
    + apply union_subseteq. split; [done|].
      apply singleton_subseteq_l, elem_of_dom. eauto.
    + rewrite size_union by set_solver. rewrite Hsize, size_singleton. lia.
    + intros x Hx. apply elem_of_union in Hx as [Hx|Hx].
      * destruct (Hle x Hx) as (g' & ? & ?). exists g'. split; [done | lia].
      * apply elem_of_singleton in Hx as ->. exists (gp + 1). split; [done | lia].
  - apply (inv_root st Inv) in Hp as ->. destruct (inv_start st Inv) as [_ Hs].
    rewrite Hs in Hg. injection Hg as <-. discriminate.
Qed.

Lemma score_bound st k g :
  search_inv st -> gScore st !! k = Some g -> is_Some (cameFrom st !! k) ->
  (Z.to_nat g < size (cameFrom st))%nat.
Proof.
  intros Inv Hg Hk.
  destruct (score_count st Inv (Z.to_nat g) k g eq_refl Hg Hk) as (X & HX & Hsize & _).
  apply subseteq_size in HX. rewrite size_dom in HX. lia.
Qed.

(** The walk back from a key of score [g] ends within [g + 1] steps. *)
Lemma reconstruct_returns st :
  search_inv st ->
  forall fuel k g acc,
    gScore st !! k = Some g -> is_Some (cameFrom st !! k) ->
    (Z.to_nat g < fuel)%nat ->
    is_Some (reconstruct fuel st (Some k) acc).
Proof.
  intros Inv. induction fuel as [|fuel IH]; intros k g acc Hg [[p|] Hp] Hlt;
    try lia; cbn [reconstruct]; rewrite Hp; cbn [mjoin option_join].
  - destruct (inv_parent st Inv k p Hp) as (Hpc & _ & _ & gp & Hgp & Hgk).
    pose proof (inv_nonneg st Inv p gp Hgp) as Hgp0.
    rewrite Hg in Hgk. injection Hgk as ->.
    apply (IH p gp); [done | now apply Inv | lia].
  - destruct fuel; cbn [reconstruct]; eauto.
Qed.

(** The tiles of the grid. *)
Definition grid_tiles : list Tile :=
  list_prod (seqZ 0 (width m)) (seqZ 0 (height m)).

Lemma in_bounds_grid_tiles k : in_bounds k -> k ∈ grid_tiles.
Proof.
  destruct k as [x y]. unfold in_bounds, grid_tiles. simpl. intros [Hx Hy].
  apply list_elem_of_In, in_prod_iff. rewrite <- !list_elem_of_In, !elem_of_seqZ. lia.
Qed.

Lemma length_grid_tiles :
  length grid_tiles = (Z.to_nat (width m) * Z.to_nat (height m))%nat.
Proof. unfold grid_tiles, Tile. now rewrite length_prod, !length_seqZ. Qed.

Lemma size_list_to_set_le (l : list Tile) :
  (size (list_to_set l : gset Tile) <= length l)%nat.
Proof.
  induction l as [|x l IH]; [now rewrite list_to_set_nil, size_empty|].
  rewrite list_to_set_cons, size_union_alt, size_singleton. cbn [length].
  pose proof (subseteq_size (list_to_set l ∖ {[x]}) (list_to_set l : gset Tile)) as Hs.
  specialize (Hs ltac:(set_solver)). lia.
Qed.

(** No more keys are closed than the start tile and the tiles of the grid. *)
Lemma closed_bound st :
  search_inv st -> (size (closedSet st) <= S (length grid_tiles))%nat.
Proof.
  intros Inv.
  transitivity (size (list_to_set (startTile :: grid_tiles) : gset Tile));
    [|apply size_list_to_set_le].
  apply subseteq_size. intros k Hk. apply elem_of_list_to_set.
  destruct (inv_known st k Inv (inv_closed st Inv k Hk)) as [->|Hb];
    [left | right; now apply in_bounds_grid_tiles].
Qed.

(** With fuel for every key that can still be closed, the loop ends: it
    returns or throws. *)
Lemma search_returns fuel : forall st,
  search_inv st ->
  (S (length grid_tiles) < fuel + size (closedSet st))%nat ->
  is_Some (search fuel m targetTile st).
Proof.
  induction fuel as [|fuel IH]; intros st Inv Hfuel.
  { pose proof (closed_bound st Inv). lia. }
  cbn [search].
  destruct (pick (openSet st)) as [[current f]|] eqn:Hpick; [|eauto].
  apply pick_elem in Hpick. destruct (inv_open st Inv current f Hpick) as [Hknown Hopen].
  case_bool_decide as Ht.
  - destruct (inv_scored st current Inv Hknown) as [g Hg].
    destruct (reconstruct_returns st Inv (S (size (cameFrom st))) current g [] Hg Hknown)
      as [tiles ->]; [|eauto].
    pose proof (score_bound st current g Inv Hg Hknown). lia.
  - match goal with |- context [expand m targetTile current directions ?s] =>
      destruct (expand m targetTile current directions s) as [st2|] eqn:He end;
      [|eauto].
    eapply expand_inv in He as [I2 C2];
      [| done | set_solver | now apply (close_inv st current f)].
    apply IH; [done|]. rewrite C2. cbn [closedSet].
    rewrite size_union by set_solver. rewrite size_singleton. lia.
Qed.

End PathProperties.

Section FindPath.

Import WalkableMap.

Variable m : WalkableMap.t.

Lemma findPathTiles_chain startTile targetTile tiles :
  findPathTiles m startTile targetTile = Some (Return (Some tiles)) ->
  chain_to m startTile targetTile tiles.
Proof.
  unfold findPathTiles. case_bool_decide as He.
  - intros [= <-]. subst. constructor.
  - intros Hs. apply (search_chain m startTile) in Hs; [done | apply initial_inv].
Qed.

(** The model's fuel is enough: a search returns or throws. *)
Lemma findPathTiles_returns startTile targetTile :
  is_Some (findPathTiles m startTile targetTile).
Proof.
  unfold findPathTiles. case_bool_decide; [eauto|].
  apply (search_returns m startTile); [apply initial_inv|].
  unfold search_fuel, initial. cbn [closedSet].
  rewrite (length_grid_tiles m), size_empty. lia.
Qed.

(** X1. [findPath] ends on every map: the fuel of the model is never used up,
    the call returns a path or [null], or throws. *)
Lemma findPath_returns start target : is_Some (findPath m start target).
Proof.
  unfold findPath.
  destruct (findPathTiles_returns (toTile m start) (toTile m target)) as [[[tiles|]|e] ->];
    eauto.
Qed.

(** C7, as amended. A path that [findPath] returns is the list of centre
    pixels of a list of tiles that begins with the start tile (the tile of
    [start]) and ends with the target tile, in which every tile after the
    first is walkable and shares an edge with the tile before it. The
    start tile itself is not tested: the first waypoint may lie on a
    blocked tile. *)
Theorem findPath_walks start target path :
  findPath m start target = Some (Return (Some path)) ->
  exists tiles,
    path = map (toPixel m) tiles
    /\ head tiles = Some (toTile m start)
    /\ last tiles = Some (toTile m target)
    /\ (forall i a b, tiles !! i = Some a -> tiles !! S i = Some b ->
          neighbours a b /\ isWalkable m b = Return true).
Proof.
  unfold findPath.
  destruct (findPathTiles m (toTile m start) (toTile m target)) as [[[tiles|]|e]|] eqn:Hf;
    try discriminate.
  intros [= <-]. exists tiles. split; [reflexivity|].
  now apply (chain_to_list m (toTile m start)), findPathTiles_chain.
Qed.

End FindPath.

(** C7 as the spec has it fails at the first waypoint: a walk that starts
    on a blocked tile is returned, its first waypoint the centre of that
    tile; and when start and target share a blocked tile the one waypoint
    returned is its centre. *)
Lemma first_waypoint_unchecked :
  let m := Samples.corridor in
  WalkableMap.findPath m Samples.on_the_wall Samples.bottom_left
  = Some (Return (Some (map (WalkableMap.toPixel m) [(0, 1); (0, 2)])))
  /\ WalkableMap.toTile m (WalkableMap.toPixel m (0, 1)) = (0, 1)
  /\ WalkableMap.isWalkable m (0, 1) = Return false
  /\ WalkableMap.findPath m Samples.inside_the_wall Samples.inside_the_wall
     = Some (Return (Some (map (WalkableMap.toPixel m) [(1, 1)])))
  /\ WalkableMap.toTile m (WalkableMap.toPixel m (1, 1)) = (1, 1)
  /\ WalkableMap.isWalkable m (1, 1) = Return false.
Proof. vm_compute. split_and!; reflexivity. Qed.

(** C7 at a concrete search: around the wall of the sample map, from its
    top-left tile to its bottom-left tile. *)
Lemma findPath_walks_witness :
  let m := Samples.corridor in
  let path :=
    map (WalkableMap.toPixel m) [(0, 0); (1, 0); (2, 0); (2, 1); (2, 2); (1, 2); (0, 2)] in
  WalkableMap.findPath m Samples.top_left Samples.bottom_left = Some (Return (Some path))
  /\ exists tiles,
       path = map (WalkableMap.toPixel m) tiles
       /\ head tiles = Some (WalkableMap.toTile m Samples.top_left)
       /\ last tiles = Some (WalkableMap.toTile m Samples.bottom_left)
       /\ (forall i a b, tiles !! i = Some a -> tiles !! S i = Some b ->
             neighbours a b /\ WalkableMap.isWalkable m b = Return true).
Proof.
  intros m path. split; [vm_compute; reflexivity|].
  apply (findPath_walks m Samples.top_left Samples.bottom_left path).
  vm_compute. reflexivity.
Defined.

(** ** More of the path finder *)

Section PathFinder.

Import WalkableMap.

Variable m : WalkableMap.t.

(** The grid holds a row for every [y] below [height]. *)
Definition full_grid : Prop := (Z.to_nat (height m) <= length (grid m))%nat.

Lemma isWalkable_full tile : full_grid -> exists b, isWalkable m tile = Return b.
Proof.
  intros Hfull. destruct tile as [x y]. unfold isWalkable.
  destruct (_ || _) eqn:E; [eauto|].
  apply orb_false_elim in E as [E E4]. apply orb_false_elim in E as [E E3].
  apply orb_false_elim in E as [E1 E2].
  destruct (lookup_lt_is_Some_2 (grid m) (Z.to_nat y)) as [row ->]; [unfold full_grid in Hfull; lia|].
  destruct (row !! Z.to_nat x); eauto.
Qed.

Lemma relax_full targetTile current st dir :
  full_grid -> exists st', relax m targetTile current st dir = Return st'.
Proof.
  intros Hfull. unfold relax. cbv zeta.
  case_bool_decide; [eauto|].
  destruct (isWalkable_full (tileKey (current.1 + dir.1, current.2 + dir.2)) Hfull) as [b Hb].
  unfold tileKey in *. rewrite Hb. destruct b; [|eauto].
  match goal with |- context [if ?c then _ else _] => destruct c end; eauto.
Qed.

Lemma expand_full targetTile current dirs : forall st,
  full_grid -> exists st', expand m targetTile current dirs st = Return st'.
Proof.
  induction dirs as [|d dirs IH]; intros st Hfull; cbn [expand]; [eauto|].
  destruct (relax_full targetTile current st d Hfull) as [st1 ->]. now apply IH.
Qed.

Lemma search_full targetTile fuel : forall st e,
  full_grid -> search fuel m targetTile st <> Some (Throw e).
Proof.
  induction fuel as [|fuel IH]; intros st e Hfull; cbn [search]; [discriminate|].
  destruct (pick (openSet st)) as [[current f]|]; [|discriminate].
  case_bool_decide.
  - destruct (reconstruct _ _ _ _); discriminate.
  - match goal with |- context [expand m targetTile current directions ?s] =>
      destruct (expand_full targetTile current directions s Hfull) as [st2 ->] end.
    now apply IH.
Qed.

Lemma findPathTiles_full startTile targetTile :
  full_grid -> exists r, findPathTiles m startTile targetTile = Some (Return r).
Proof.
  intros Hfull.
  destruct (findPathTiles_returns m startTile targetTile) as [[r|e] Hr]; [eauto|].
  exfalso. revert Hr. unfold findPathTiles. case_bool_decide; [discriminate|].
  now apply search_full.
Qed.

(** X2. On a grid that holds all its rows [findPath] does not throw: it
    returns a path or [null]. *)
Theorem findPath_total start target :
  full_grid -> exists r, findPath m start target = Some (Return r).
Proof.
  intros Hfull. unfold findPath.
  destruct (findPathTiles_full (toTile m start) (toTile m target) Hfull) as [[tiles|] ->];
    eauto.
Qed.

Lemma chain_to_end startTile k tiles :
  chain_to m startTile k tiles ->
  k = startTile \/ isWalkable m k = Return true.
Proof. destruct 1; auto. Qed.

(** X3. A walk that [findPath] returns for two different tiles ends on a
    walkable tile; so on a grid that holds all its rows the answer for a
    blocked target tile other than the start tile is [null]. *)
Theorem blocked_target_null start target :
  full_grid ->
  toTile m start <> toTile m target ->
  isWalkable m (toTile m target) = Return false ->
  findPath m start target = Some (Return None).
Proof.
  intros Hfull Hne Hblocked. unfold findPath.
  destruct (findPathTiles_full (toTile m start) (toTile m target) Hfull) as [[tiles|] Hr];
    rewrite Hr; [|reflexivity].
  apply findPathTiles_chain, chain_to_end in Hr as [Heq|Hw]; congruence.
Qed.

Lemma chain_to_distance startTile k tiles :
  chain_to m startTile k tiles ->
  heuristic k startTile + 1 <= Z.of_nat (length tiles).
Proof.
  induction 1 as [|p k tiles Hc IH Hn Hw].
  - unfold heuristic. simpl. lia.
  - rewrite length_app. cbn [length]. unfold heuristic, neighbours in *. lia.
Qed.

(** X4. A path of [n] waypoints covers a Manhattan distance of at most [n - 1]
    between the start tile and the target tile. *)
Theorem path_covers_distance start target path :
  findPath m start target = Some (Return (Some path)) ->
  heuristic (toTile m target) (toTile m start) + 1 <= Z.of_nat (length path).
Proof.
  unfold findPath.
  destruct (findPathTiles m (toTile m start) (toTile m target)) as [[[tiles|]|e]|] eqn:Hf;
    try discriminate.
  intros [= <-]. rewrite length_map.
  now apply findPathTiles_chain, chain_to_distance in Hf.
Qed.

(** [toTile] of a tile's centre is the tile, for tiles of positive size
    within the bounds. *)
Lemma Qfloor_half (x : Z) (size : Q) :
  (0 < size)%Q -> Qfloor ((inject_Z x * size + size / 2) / size) = x.
Proof.
  intros Hs.
  assert ((inject_Z x * size + size / 2) / size == inject_Z x + (1 # 2))%Q as ->.
  { field. intros E. rewrite E in Hs. now apply Qlt_irrefl in Hs. }
  apply Z.le_antisymm.
  - apply Z.lt_succ_r. rewrite Zlt_Qlt.
    eapply Qle_lt_trans; [apply Qfloor_le|].
    unfold Z.succ. rewrite inject_Z_plus. apply Qplus_lt_r. reflexivity.
  - rewrite <- (Qfloor_Z x) at 1. apply Qfloor_resp_le.
    rewrite <- (Qplus_0_r (inject_Z x)) at 1. apply Qplus_le_r. discriminate.
Qed.

Lemma toTile_toPixel tile :
  (0 < tileWidth m)%Q -> (0 < tileHeight m)%Q ->
  in_bounds m tile ->
  toTile m (toPixel m tile) = tile.
Proof.
  intros Hw Hh [Hx Hy]. destruct tile as [x y]. unfold toTile, toPixel. cbn [fst snd] in *.
  rewrite !Qfloor_half by done. f_equal; lia.
Qed.


Lemma toTile_in_bounds point :
  0 < width m -> 0 < height m -> in_bounds m (toTile m point).
Proof. unfold in_bounds, toTile. cbn [fst snd]. lia. Qed.

Lemma chain_to_in_bounds startTile k tiles :
  in_bounds m startTile -> chain_to m startTile k tiles -> Forall (in_bounds m) tiles.
Proof.
  intros Hs. induction 1 as [|p k tiles Hc IH Hn Hw].
  - now constructor.
  - apply Forall_app. split; [exact IH|].
    constructor; [now apply isWalkable_in_bounds | constructor].
Qed.

Lemma toTile_centres tiles :
  (0 < tileWidth m)%Q -> (0 < tileHeight m)%Q ->
  Forall (in_bounds m) tiles ->
  map (toTile m) (map (toPixel m) tiles) = tiles.
Proof.
  intros Hw Hh. induction 1 as [|tile tiles Ht _ IH]; [reflexivity|].
  cbn [map]. now rewrite toTile_toPixel, IH.
Qed.

(** X5. On a map of positive size with tiles of positive size, the tiles of
    the waypoints that [findPath] returns make the walk: the waypoints are
    the centres of their own tiles, the first tile is the tile of [start],
    the last the tile of [target], and every tile after the first is
    walkable and shares an edge with the tile before it. *)
Theorem waypoint_tiles start target path :
  0 < width m -> 0 < height m ->
  (0 < tileWidth m)%Q -> (0 < tileHeight m)%Q ->
  findPath m start target = Some (Return (Some path)) ->
  path = map (toPixel m) (map (toTile m) path)
  /\ head (map (toTile m) path) = Some (toTile m start)
  /\ last (map (toTile m) path) = Some (toTile m target)
  /\ (forall i a b,
        map (toTile m) path !! i = Some a -> map (toTile m) path !! S i = Some b ->
        neighbours a b /\ isWalkable m b = Return true).
Proof.
  intros Hw Hh Htw Hth. unfold findPath.
  destruct (findPathTiles m (toTile m start) (toTile m target)) as [[[tiles|]|e]|] eqn:Hf;
    try discriminate.
  intros [= <-]. apply findPathTiles_chain in Hf.
  rewrite toTile_centres;
    [| done | done | eapply chain_to_in_bounds; [now apply toTile_in_bounds | exact Hf]].
  split; [reflexivity|]. now apply (chain_to_list m (toTile m start)).
Qed.

End PathFinder.

(** ** The loaded grid *)

Section LoadedGrid.

Import WalkableMap.

Lemma number_or_nonzero x y : ~ (number_or x y == 0)%Q.
Proof.
  unfold number_or.
  assert (forall q, Qeq_bool q 0 = false -> ~ (q == 0)%Q) as Hnz.
  { intros q Hq E. apply Qeq_bool_iff in E. congruence. }
  destruct x as [q|]; [destruct (Qeq_bool q 0) eqn:Hq; [|now apply Hnz]|];
    (destruct y as [e|]; [destruct (Qeq_bool e 0) eqn:He; [|now apply Hnz]|]); discriminate.
Qed.

(** X6. A map that [loadPrecomputedGrid] returns, with or without an
    expectation, is a matrix of [height] rows of [width] cells, each [0] or
    [1], of non-zero size and with non-zero tile sizes; on such a map
    [findPath] never throws. *)
Theorem loaded_grid_shape file expected m :
  loadPrecomputedGrid file expected = Return (Some m) ->
  0 < width m /\ 0 < height m
  /\ length (grid m) = Z.to_nat (height m)
  /\ Forall (fun row => length row = Z.to_nat (width m)
                        /\ Forall (fun v => v = 0 \/ v = 1) row) (grid m)
  /\ ~ (tileWidth m == 0)%Q /\ ~ (tileHeight m == 0)%Q
  /\ (forall start target, exists r, findPath m start target = Some (Return r)).
Proof.
  unfold loadPrecomputedGrid. destruct file as [data|]; [|discriminate].
  destruct (sc_grid data) as [[|row0 rows]|]; try discriminate.
  cbv zeta.
  set (w := match row0 with Some r => Z.of_nat (length r) | None => 0 end).
  destruct (w =? 0) eqn:Hw0; [discriminate|]. cbn [orb].
  destruct (existsb _ (row0 :: rows)) eqn:Hrect; [discriminate|].
  apply existsb_rows_false in Hrect.
  match goal with |- context [match ?c with Some err => Throw err | None => _ end] =>
    destruct c; [discriminate|] end.
  match goal with |- context [if ?c then Throw GridHashMismatch else _] =>
    destruct c; [discriminate|] end.
  intros [= <-]. cbn [grid width height tileWidth tileHeight].
  assert (0 < w) as Hw by (subst w; destruct row0; lia).
  assert (length (map (fun row => map (fun value : Z => if value =? 0 then 0 else 1)
                                    (default [] row)) (row0 :: rows))
          = Z.to_nat (Z.of_nat (length (row0 :: rows)))) as Hlen
    by (rewrite length_map; lia).
  split_and!.
  - exact Hw.
  - cbn [length]. lia.
  - exact Hlen.
  - apply Forall_forall. intros r Hin.
    change (r ∈ normalise_rows (row0 :: rows)) in Hin.
    apply list_elem_of_In, in_map_iff in Hin as (row & <- & Hin).
    apply list_elem_of_In in Hin.
    destruct (Hrect row Hin) as (cells & -> & Hcells). cbn [default from_option]. unfold id.
    split; [rewrite length_map; lia|].
    apply Forall_forall. intros v Hv.
    apply list_elem_of_In, in_map_iff in Hv as (v0 & <- & _). destruct (v0 =? 0); auto.
  - apply number_or_nonzero.
  - apply number_or_nonzero.
  - intros start target. unfold findPath.
    match goal with |- context [findPathTiles ?m ?s ?t] =>
      destruct (findPathTiles_full m s t) as [[tiles|] ->] end; eauto.
    unfold full_grid. cbn [grid height].
    change (Z.to_nat (Z.of_nat (length (row0 :: rows)))
            <= length (normalise_rows (row0 :: rows)))%nat.
    unfold normalise_rows. rewrite length_map. lia.
Qed.

End LoadedGrid.

(** The properties above at the sample maps. *)

Lemma findPath_total_witness :
  exists r,
    WalkableMap.findPath Samples.corridor Samples.top_left Samples.bottom_left
    = Some (Return r).
Proof.
  apply (findPath_total Samples.corridor Samples.top_left Samples.bottom_left).
  unfold full_grid. simpl. lia.
Defined.

(** A grid that lacks a row of its stated height makes [findPath] throw. *)
Example findPath_throws_on_missing_row :
  WalkableMap.findPath Samples.short_grid Samples.top_left Samples.bottom_left
  = Some (Throw WalkableMap.ReadOfUndefined).
Proof. vm_compute. reflexivity. Qed.

Lemma blocked_target_null_witness :
  WalkableMap.findPath Samples.corridor Samples.top_left Samples.inside_the_wall
  = Some (Return None).
Proof.
  apply (blocked_target_null Samples.corridor Samples.top_left Samples.inside_the_wall).
  - unfold full_grid. simpl. lia.
  - vm_compute. discriminate.
  - vm_compute. reflexivity.
Defined.

Lemma path_covers_distance_witness :
  let m := Samples.corridor in
  let path :=
    map (WalkableMap.toPixel m) [(0, 0); (1, 0); (2, 0); (2, 1); (2, 2); (1, 2); (0, 2)] in
  WalkableMap.heuristic (WalkableMap.toTile m Samples.bottom_left)
    (WalkableMap.toTile m Samples.top_left) + 1
  <= Z.of_nat (length path).
Proof.
  intros m path.
  apply (path_covers_distance m Samples.top_left Samples.bottom_left path).
  vm_compute. reflexivity.
Defined.

Lemma waypoint_tiles_witness :
  let m := Samples.corridor in
  let path := map (WalkableMap.toPixel m) [(0, 1); (0, 2)] in
  WalkableMap.findPath m Samples.on_the_wall Samples.bottom_left = Some (Return (Some path))
  /\ map (WalkableMap.toTile m) path = [(0, 1); (0, 2)]
  /\ path = map (WalkableMap.toPixel m) (map (WalkableMap.toTile m) path)
  /\ head (map (WalkableMap.toTile m) path) = Some (WalkableMap.toTile m Samples.on_the_wall)
  /\ last (map (WalkableMap.toTile m) path) = Some (WalkableMap.toTile m Samples.bottom_left)
  /\ (forall i a b,
        map (WalkableMap.toTile m) path !! i = Some a ->
        map (WalkableMap.toTile m) path !! S i = Some b ->
        neighbours a b /\ WalkableMap.isWalkable m b = Return true).
Proof.
  intros m path. split; [vm_compute; reflexivity|]. split; [vm_compute; reflexivity|].
  apply (waypoint_tiles m Samples.on_the_wall Samples.bottom_left path);
    [reflexivity.. | vm_compute; reflexivity].
Defined.

Lemma loaded_grid_shape_witness :
  let m := Samples.loaded in
  WalkableMap.loadPrecomputedGrid (Some (Samples.sidecar 1 (Some Samples.grid_hash))) None
  = Return (Some m)
  /\ length (WalkableMap.grid m) = Z.to_nat (WalkableMap.height m)
  /\ exists r, WalkableMap.findPath m Samples.top_left Samples.bottom_left = Some (Return r).
Proof.
  intros m.
  assert (WalkableMap.loadPrecomputedGrid
            (Some (Samples.sidecar 1 (Some Samples.grid_hash))) None
          = Return (Some m)) as Hload by (vm_compute; reflexivity).
  split; [exact Hload|].
  destruct (loaded_grid_shape _ _ _ Hload) as (_ & _ & Hlen & _ & _ & _ & Hfind).
  split; [exact Hlen | apply Hfind].
Defined.

(** ** More of the token verifier *)

(** X7. [decodeBase64UrlSegment] inverts the base64url encoding of the bytes
    of any non-empty text. *)
Theorem decodeBase64UrlSegment_encode text :
  text <> "" ->
  ManagerToken.decodeBase64UrlSegment (Node.base64url_encode (JS.bytes_of text))
  = Some text.
Proof.
  intros Hne. unfold ManagerToken.decodeBase64UrlSegment.
  rewrite encode_regexp by (auto using bytes_of_ok, bytes_of_nonempty).
  now rewrite base64_decode_encode, string_of_bytes_of by apply bytes_of_ok.
Qed.

Lemma decodeBase64UrlSegment_encode_witness :
  let dq := String (ascii_of_N 34) EmptyString in
  let body := "{" ++ dq ++ "agentId" ++ dq ++ ":" ++ dq ++ "bot" ++ dq ++ "}" in
  Node.base64url_encode (JS.bytes_of body) = "eyJhZ2VudElkIjoiYm90In0"
  /\ ManagerToken.decodeBase64UrlSegment (Node.base64url_encode (JS.bytes_of body))
     = Some body.
Proof.
  intros dq body. split; [vm_compute; reflexivity|].
  apply decodeBase64UrlSegment_encode. discriminate.
Defined.


(** ** More of the secret resolver *)

Section ResolverCache.

Import PresenceSecret.

Variable env : string -> option string.
Variable SECRET_CACHE_TTL_MS : Z.

(** X9. A secret that a resolution returned without the static tier is served
    from the cache for as long as it is fresh: a later call for the same
    agent and office, with no static secret set, returns the very entry
    (its time stamp unchanged), leaves the cache as it is and asks neither
    the tenant keys nor the Registry, whatever they would now answer. *)
Theorem cached_secret_reused now1 now2 tenant1 registry1 tenant2 registry2
    secretCache agentId officeId entry secretCache' lookups :
  env_chain env STATIC_SECRET_VARS = None ->
  resolvePresenceSecret env now1 SECRET_CACHE_TTL_MS tenant1 registry1
    secretCache agentId officeId = (Some entry, secretCache', lookups) ->
  now2 - timestamp entry < SECRET_CACHE_TTL_MS ->
  exists cacheKey,
    resolvePresenceSecret env now2 SECRET_CACHE_TTL_MS tenant2 registry2
      secretCache' agentId officeId
    = (Some entry, secretCache', [OfficeIdLookup; CacheLookup cacheKey]).
Proof.
  intros Hstatic. unfold resolvePresenceSecret. rewrite Hstatic. cbv zeta.
  destruct (if JS.truthy_opt officeId then officeId else env_chain env OFFICE_ID_VARS)
    as [office|]; [|discriminate].
  set (cacheKey := office ++ ":" ++ JS.toLowerCase agentId).
  intros H Hfresh. exists cacheKey.
  assert (secretCache' !! cacheKey = Some entry) as Hhit.
  { destruct (secretCache !! cacheKey) as [e|] eqn:He;
      [destruct (now1 - timestamp e <? SECRET_CACHE_TTL_MS);
         [injection H as <- <- _; exact He|]|];
      (destruct (JS.truthy_opt (tenant1 office));
         [|destruct (JS.truthy_opt (registry1 agentId office)); [|discriminate]]);
      injection H as <- <- _; apply lookup_insert_eq. }
  rewrite Hhit. apply Z.ltb_lt in Hfresh. now rewrite Hfresh.
Qed.

End ResolverCache.

Lemma cached_secret_reused_witness :
  let entry := {| PresenceSecret.secret := "tenant-secret";
                  PresenceSecret.source := PresenceSecret.TenantKeys;
                  PresenceSecret.timestamp := 1767225600000 |} in
  let cache := {["office-1:bot" := entry]} in
  PresenceSecret.resolvePresenceSecret Samples.env_office_only 1767225600000 300000
    Samples.tenant_secret Samples.registry_secret ∅ "Bot" None
  = (Some entry, cache,
     [PresenceSecret.OfficeIdLookup; PresenceSecret.CacheLookup "office-1:bot";
      PresenceSecret.TenantKeysLookup "office-1"])
  /\ exists cacheKey,
       PresenceSecret.resolvePresenceSecret Samples.env_office_only 1767225899999 300000
         (fun _ => None) (fun _ _ => None) cache "Bot" None
       = (Some entry, cache, [PresenceSecret.OfficeIdLookup; PresenceSecret.CacheLookup cacheKey]).
Proof.
  intros entry cache.
  assert (PresenceSecret.resolvePresenceSecret Samples.env_office_only 1767225600000 300000
            Samples.tenant_secret Samples.registry_secret ∅ "Bot" None
          = (Some entry, cache,
             [PresenceSecret.OfficeIdLookup; PresenceSecret.CacheLookup "office-1:bot";
              PresenceSecret.TenantKeysLookup "office-1"])) as Hfirst
    by (vm_compute; reflexivity).
  split; [exact Hfirst|].
  apply (cached_secret_reused Samples.env_office_only 300000 1767225600000 1767225899999
           Samples.tenant_secret Samples.registry_secret (fun _ => None) (fun _ _ => None)
           ∅ "Bot" None entry cache _ eq_refl Hfirst).
  simpl. lia.
Defined.

Section SecretPaths.

Import PresenceSecret.

Lemma unique_entries_spec candidates : forall seen,
  NoDup (unique_entries seen candidates)
  /\ (forall e, e ∈ unique_entries seen candidates
                <-> e <> "" /\ e ∈ candidates /\ e ∉ seen)
  /\ head (unique_entries seen candidates)
     = List.find (fun e => JS.truthy e && negb (bool_decide (e ∈ seen))) candidates.
Proof.
  induction candidates as [|c l IH]; intros seen; cbn [unique_entries List.find].
  - split_and!; [constructor | | reflexivity].
    intros e. rewrite elem_of_nil. split; [done | intros (_ & H & _); inversion H].
  - destruct (JS.truthy c) eqn:Hc; cbn [negb andb].
    + case_bool_decide as Hseen; cbn [negb].
      * destruct (IH seen) as (Hn & Hm & Hh). split_and!; [done | | done].
        intros e. rewrite Hm, elem_of_cons. split; [naive_solver|].
        intros (? & [->|?] & ?); [contradiction | done].
      * destruct (IH (seen ∪ {[c]})) as (Hn & Hm & Hh). split_and!; [| | reflexivity].
        -- constructor; [|done]. rewrite Hm. set_solver.
        -- intros e. rewrite !elem_of_cons, Hm. split.
           ++ intros [->|(? & ? & ?)]; [|set_solver].
              split_and!; [intros ->; discriminate | auto | done].
           ++ intros (? & [->|?] & ?); [auto|].
              destruct (decide (e = c)); [auto | right; set_solver].
    + destruct (IH seen) as (Hn & Hm & Hh). split_and!; [done | | done].
      intros e. rewrite Hm, elem_of_cons. split; [naive_solver|].
      intros (? & [->|?] & ?); [destruct c; [done | discriminate] | done].
Qed.

Lemma candidates_trimmed key e : e ∈ secret_path_candidates key -> JS.trim e = e.
Proof.
  unfold secret_path_candidates. rewrite elem_of_app. intros [H|H].
  - apply list_elem_of_In, in_map_iff in H as (x & <- & _). apply trim_idem.
  - destruct (secretsPath key) as [p|]; [|inversion H].
    destruct (JS.truthy (JS.trim p)); [|inversion H].
    apply list_elem_of_singleton in H as ->. apply trim_idem.
Qed.

(** X10. [extractSkyofficeSecretPaths] returns each non-blank candidate path
    once, trimmed, and nothing else; its first path, the one
    [loadSecretFromTenantKeys] reads, is the first non-blank candidate. *)
Theorem extractSkyofficeSecretPaths_unique key :
  NoDup (extractSkyofficeSecretPaths (Some key))
  /\ (forall e, e ∈ extractSkyofficeSecretPaths (Some key)
                <-> e <> "" /\ e ∈ secret_path_candidates key)
  /\ (forall e, e ∈ extractSkyofficeSecretPaths (Some key) -> JS.trim e = e)
  /\ head (extractSkyofficeSecretPaths (Some key))
     = List.find JS.truthy (secret_path_candidates key).
Proof.
  unfold extractSkyofficeSecretPaths.
  destruct (unique_entries_spec (secret_path_candidates key) ∅) as (Hn & Hm & Hh).
  split_and!.
  - exact Hn.
  - intros e. rewrite Hm. set_solver.
  - intros e He. apply Hm in He as (_ & He & _). now apply (candidates_trimmed key).
  - rewrite Hh. clear. induction (secret_path_candidates key) as [|c l IH]; [reflexivity|].
    cbn [List.find]. case_bool_decide; [set_solver|]. cbn [negb].
    rewrite andb_true_r, IH. reflexivity.
Qed.

End SecretPaths.

Example extractSkyofficeSecretPaths_sample :
  PresenceSecret.extractSkyofficeSecretPaths (Some Samples.tenant_key)
  = ["prod/skyoffice"; "prod/shared"].
Proof. vm_compute. reflexivity. Qed.

(** ** More of the NPC engine *)

Section NpcEngine.

Import SkyOffice.

Variable new_Player : Player.t.
Variable resolveComputerIdFromWorkstation : string -> option string.
Variable nowIso : string.

Local Abbreviation upsertNpc :=
  (SkyOffice.upsertNpc new_Player resolveComputerIdFromWorkstation nowIso).
Local Abbreviation occupies_cleared :=
  (occupies_cleared resolveComputerIdFromWorkstation).

Lemma removeNpc_store a w :
  npcStore (fst (removeNpc a w)) = removeNpcPersist a (npcStore w).
Proof.
  unfold removeNpc, syncNpcRemovalFromRegistry.
  repeat (case_match; simpl); reflexivity.
Qed.

(** X11. [removeNpc] leaves no trace of the agent: no player under its key, no
    assignment, no seat, no row in the [npcs] table; and it touches no
    other agent's player, assignment or seat. *)
Theorem removeNpc_forgets a w :
  let w' := fst (removeNpc a w) in
  players (room w') !! getNpcKey a = None
  /\ npcAssignments (room w') !! a = None
  /\ (forall c, ~ occupies (room w') (getNpcKey a) c)
  /\ (JS.truthy a = true ->
      forall row, row ∈ npcStore w' -> Persisted.agentId row <> a)
  /\ (forall b, b <> a ->
        players (room w') !! getNpcKey b = players (room w) !! getNpcKey b
        /\ npcAssignments (room w') !! b = npcAssignments (room w) !! b
        /\ (forall c, occupies (room w') (getNpcKey b) c
                      <-> occupies (room w) (getNpcKey b) c)).
Proof.
  intros w'. destruct (removeNpc_room a w) as (Hp & Ha & Hc & _). fold w' in Hp, Ha, Hc.
  split_and!.
  - rewrite Hp. apply lookup_delete_eq.
  - rewrite Ha. apply lookup_delete_eq.
  - intros c Hocc. apply (occupies_cleared _ _ _ _ _ Hc) in Hocc as [_ Hne]. congruence.
  - intros Hta row Hin Hrow. subst w'. rewrite removeNpc_store in Hin.
    unfold removeNpcPersist in Hin. rewrite Hta in Hin. cbn [negb] in Hin.
    apply list_elem_of_In, filter_In in Hin as [_ Hf].
    apply negb_true_iff, String.eqb_neq in Hf. contradiction.
  - intros b Hb.
    assert (getNpcKey b <> getNpcKey a) as Hk by (intros E; apply getNpcKey_inj in E; done).
    split_and!.
    + rewrite Hp. now apply lookup_delete_ne.
    + rewrite Ha. now apply lookup_delete_ne.
    + intros c. rewrite (occupies_cleared _ _ _ _ _ Hc). tauto.
Qed.


(** *** Persistence and rehydration *)

(** The player and the assignment that [upsertNpc] stores. *)
Lemma upsertNpc_stored p o w :
  exists pl a,
    players (room (fst (upsertNpc p o w))) !! getNpcKey (Npc.agentId p) = Some pl
    /\ npcAssignments (room (fst (upsertNpc p o w))) !! Npc.agentId p = Some a
    /\ Player.name pl = Npc.name p
    /\ Player.x pl = match Npc.position p with
                     | Some pos => fst pos
                     | None => Player.x (default new_Player
                                           (players (room w) !! getNpcKey (Npc.agentId p)))
                     end
    /\ Player.y pl = match Npc.position p with
                     | Some pos => snd pos
                     | None => Player.y (default new_Player
                                           (players (room w) !! getNpcKey (Npc.agentId p)))
                     end
    /\ Npc.agentId (Assignment.npc a) = Npc.agentId p
    /\ Npc.name (Assignment.npc a) = Npc.name p
    /\ Npc.avatarId (Assignment.npc a) = Npc.avatarId p
    /\ Npc.workstationId (Assignment.npc a) = Npc.workstationId p
    /\ Npc.position (Assignment.npc a) = Npc.position p
    /\ Assignment.roomId a = roomId (room w).
Proof.
  unfold SkyOffice.upsertNpc.
  pose proof (assign_frame resolveComputerIdFromWorkstation (getNpcKey (Npc.agentId p))
                (Npc.workstationId p) (Npc.computerId p) (room w)) as (Hp & Ha & _).
  destruct (SkyOffice.assignNpcToWorkstation _ _ _ _ (room w)) as [r1 c] eqn:E.
  simpl in Hp, Ha. unfold syncNpcToRegistry.
  repeat (case_match; simpl); rewrite !lookup_insert_eq;
    eexists; eexists; split_and!; reflexivity.
Qed.

(** The row that a persisting [upsertNpc] leaves in the [npcs] table. *)
Lemma upsertNpc_store p o w :
  skipPersistence o = false ->
  exists row,
    npcStore (fst (upsertNpc p o w)) = saveNpc row (npcStore w)
    /\ Persisted.agentId row = Npc.agentId p
    /\ Persisted.name row = Npc.name p
    /\ Persisted.avatarId row = Npc.avatarId p
    /\ Persisted.workstationId row = Npc.workstationId p
    /\ Persisted.roomName row = Some (name (room w))
    /\ (forall pl,
          players (room (fst (upsertNpc p o w))) !! getNpcKey (Npc.agentId p) = Some pl ->
          Persisted.positionX row = Player.x pl /\ Persisted.positionY row = Player.y pl).
Proof.
  intros Ho. unfold SkyOffice.upsertNpc. rewrite Ho.
  pose proof (assign_frame resolveComputerIdFromWorkstation (getNpcKey (Npc.agentId p))
                (Npc.workstationId p) (Npc.computerId p) (room w)) as (Hp & Ha & Hn & _).
  destruct (SkyOffice.assignNpcToWorkstation _ _ _ _ (room w)) as [r1 c] eqn:E.
  simpl in Hp, Ha, Hn. unfold syncNpcToRegistry.
  repeat (case_match; simpl); rewrite !lookup_insert_eq;
    eexists; (split; [reflexivity|]); split_and!; try reflexivity;
    intros pl [= <-]; split; reflexivity.
Qed.

Lemma upsertNpc_roomId p o w : roomId (room (fst (upsertNpc p o w))) = roomId (room w).
Proof.
  unfold SkyOffice.upsertNpc.
  pose proof (assign_frame resolveComputerIdFromWorkstation (getNpcKey (Npc.agentId p))
                (Npc.workstationId p) (Npc.computerId p) (room w)) as (_ & _ & _ & Hr & _).
  destruct (SkyOffice.assignNpcToWorkstation _ _ _ _ (room w)) as [r1 c] eqn:E.
  simpl in Hr. unfold syncNpcToRegistry. repeat (case_match; simpl); exact Hr.
Qed.

Lemma rehydrate_roomId opts rows w :
  roomId (room (fold_left
                  (fun w' npc => fst (upsertNpc (payload_of_persisted npc) opts w'))
                  rows w))
  = roomId (room w).
Proof.
  revert w. induction rows as [|x rows IH]; intros w; [reflexivity|].
  cbn [fold_left]. now rewrite IH, upsertNpc_roomId.
Qed.

(** X12. What [upsertNpc] persists, a restarted room of the same name takes up
    again: after [ensureNpcAssignmentsLoaded] on a room without
    assignments, over the table the call left, the agent has its
    assignment and its player back, at the position it had. (The table's
    writes are taken to succeed; the room's name is not empty, as the
    reader replaces an empty [roomName] by the lobby's.) *)
Theorem persisted_npc_rehydrates p o w r' log pl :
  skipPersistence o = false ->
  JS.truthy (Npc.agentId p) = true ->
  JS.truthy (name (room w)) = true ->
  name r' = name (room w) ->
  npcAssignments r' = ∅ ->
  players (room (fst (upsertNpc p o w))) !! getNpcKey (Npc.agentId p) = Some pl ->
  let restarted := {| room := r'; npcStore := npcStore (fst (upsertNpc p o w));
                      effects := log |} in
  let w2 := SkyOffice.ensureNpcAssignmentsLoaded new_Player
              resolveComputerIdFromWorkstation nowIso false restarted in
  exists pl2 a,
    players (room w2) !! getNpcKey (Npc.agentId p) = Some pl2
    /\ npcAssignments (room w2) !! Npc.agentId p = Some a
    /\ Player.name pl2 = Npc.name p
    /\ Player.x pl2 = Player.x pl /\ Player.y pl2 = Player.y pl
    /\ Npc.agentId (Assignment.npc a) = Npc.agentId p
    /\ Npc.name (Assignment.npc a) = Npc.name p
    /\ Npc.avatarId (Assignment.npc a) = Npc.avatarId p
    /\ Npc.workstationId (Assignment.npc a) = Npc.workstationId p
    /\ Assignment.roomId a = roomId r'.
Proof.
  intros Ho Hid Hname Hr' Hempty Hpl restarted w2.
  destruct (upsertNpc_store p o w Ho) as (row & Hstore & Rid & Rname & Rav & Rws & Rroom & Rpos).
  destruct (Rpos pl Hpl) as [Rx Ry].
  set (same_room := fun npc : Persisted.t =>
         String.eqb (default "Public Lobby" (or_null (Persisted.roomName npc))) (name r')).
  set (others := List.filter
         (fun r => negb (String.eqb (Persisted.agentId r) (Npc.agentId p)))
         (npcStore w)).
  set (skip := {| skipPersistence := true; skipRegistrySync := true |}).
  set (rehydrate := fun (w' : World) npc => fst (upsertNpc (payload_of_persisted npc) skip w')).
  assert (List.filter same_room (npcStore restarted)
          = (List.filter same_room others ++ [row])%list)
    as Hrows.
  { subst restarted. cbn [npcStore]. rewrite Hstore. unfold saveNpc. rewrite Rid, Hid.
    cbn [negb]. fold others. rewrite List.filter_app.
    assert (List.filter same_room [row] = [row]) as ->; [|reflexivity].
    cbn [List.filter]. unfold same_room. rewrite Rroom. unfold or_null. cbn [JS.truthy_opt].
    rewrite Hname. cbn [default from_option]. unfold id. now rewrite Hr', String.eqb_refl. }
  assert (w2 = with_room updatePresenceMetadata
                 (rehydrate (fold_left rehydrate (List.filter same_room others) restarted) row))
    as ->.
  { subst w2. unfold SkyOffice.ensureNpcAssignmentsLoaded.
    assert (size (npcAssignments (room restarted)) = 0%nat) as ->
      by (subst restarted; cbn [room]; rewrite Hempty; apply map_size_empty).
    cbn [negb andb Nat.ltb Nat.leb]. unfold allNpcs. cbv zeta.
    change (name (room restarted)) with (name r'). fold same_room. fold skip. fold rehydrate.
    now rewrite Hrows, fold_left_app. }
  set (w0 := fold_left rehydrate (List.filter same_room others) restarted).
  destruct (upsertNpc_stored (payload_of_persisted row) skip w0)
    as (pl2 & a & Hp2 & Ha2 & Pn & Px & Py & Aid & An & Aav & Aws & _ & Aroom).
  assert (roomId (room w0) = roomId r') as Hroom by apply rehydrate_roomId.
  cbn [payload_of_persisted Npc.agentId Npc.name Npc.avatarId Npc.workstationId Npc.position
       fst snd] in *.
  rewrite Rid in *. exists pl2, a.
  split_and!; try (cbn; congruence); [exact Hp2 | exact Ha2].
Qed.

End NpcEngine.

(** [persisted_npc_rehydrates] at the sample room: the agent deployed to
    room [public] is back in a new room of that name. *)
Lemma persisted_npc_rehydrates_witness :
  let w1 := Samples.upsert (Samples.payload "Bot" None) Samples.public_room in
  let restarted :=
    {| SkyOffice.room := SkyOffice.onCreate "r2" "public" "" None None;
       SkyOffice.npcStore := SkyOffice.npcStore w1; SkyOffice.effects := [] |} in
  let w2 := SkyOffice.ensureNpcAssignmentsLoaded Samples.new_Player Samples.seats
              "2026-01-01T00:00:00.000Z" false restarted in
  exists pl2 a,
    SkyOffice.players (SkyOffice.room w2) !! "npc-Bot" = Some pl2
    /\ SkyOffice.npcAssignments (SkyOffice.room w2) !! "Bot" = Some a
    /\ SkyOffice.Player.name pl2 = "Ada"
    /\ SkyOffice.Player.x pl2 = 800%Q /\ SkyOffice.Player.y pl2 = 200%Q
    /\ SkyOffice.Assignment.roomId a = "r2".
Proof.
  intros w1 restarted w2.
  destruct (upsertNpc_stored Samples.new_Player Samples.seats "2026-01-01T00:00:00.000Z"
              (Samples.payload "Bot" None) Samples.write_through Samples.public_room)
    as (pl & a0 & Hpl & _ & _ & Hx & Hy & _).
  destruct (persisted_npc_rehydrates Samples.new_Player Samples.seats
              "2026-01-01T00:00:00.000Z" (Samples.payload "Bot" None) Samples.write_through
              Samples.public_room (SkyOffice.onCreate "r2" "public" "" None None) [] pl
              eq_refl eq_refl eq_refl eq_refl eq_refl Hpl)
    as (pl2 & a & Hp2 & Ha2 & Hn & Hx2 & Hy2 & _ & _ & _ & _ & Hr).
  exists pl2, a. split_and!; [exact Hp2 | exact Ha2 | exact Hn | | | exact Hr].
  - now rewrite Hx2, Hx.
  - now rewrite Hy2, Hy.
Defined.

(** [validate_redirects] and [onAuth_never_redirects] at the two sample
    rooms: the handshake on its own redirects the agent to room [beta];
    through [onAuth] it is refused before. *)
Lemma validate_redirects_witness :
  let options := Samples.npc_options "bot.beta.office.xyz" "beta" "h.b.s" in
  let client := Samples.fresh_client "s1" in
  snd (Samples.validateNpcHandshake Samples.two_rooms client options Samples.alpha)
  = Throw (SkyOffice.ServerError 410 (SkyOffice.redirect_message "room-beta")).
Proof.
  intros options client.
  apply (validate_redirects Samples.new_Player Samples.seats "2026-01-01T00:00:00.000Z"
           Samples.resolvePresenceSecret ManagerToken.parse_flat 1767225600000
           Samples.two_rooms client options Samples.alpha
           "bot.beta.office.xyz" "h.b.s" "beta" "alpha" "room-beta");
    try reflexivity.
  vm_compute. discriminate.
Defined.

Lemma onAuth_never_redirects_witness :
  let options := Samples.npc_options "bot.beta.office.xyz" "beta" "h.b.s" in
  let client := Samples.fresh_client "s1" in
  snd (Samples.onAuth Samples.two_rooms client options Samples.alpha)
  <> Throw (SkyOffice.ServerError 410 (SkyOffice.redirect_message "room-beta")).
Proof.
  intros options client.
  apply (onAuth_never_redirects Samples.new_Player Samples.seats "2026-01-01T00:00:00.000Z"
           Samples.bcrypt_compare Samples.resolvePresenceSecret ManagerToken.parse_flat
           1767225600000 Samples.two_rooms client options Samples.alpha).
  intros ns [= <-]. reflexivity.
Defined.

(** ** The room's life: joins, leaves and the NPC engine *)

Section RoomLife.

Import SkyOffice.

Variable new_Player : Player.t.
Variable resolveComputerIdFromWorkstation : string -> option string.
Variable nowIso : string.

Local Abbreviation upsertNpc :=
  (SkyOffice.upsertNpc new_Player resolveComputerIdFromWorkstation nowIso).
Local Abbreviation ensureNpcAssignmentsLoaded :=
  (SkyOffice.ensureNpcAssignmentsLoaded new_Player resolveComputerIdFromWorkstation nowIso).
Local Abbreviation syncNpc := (SkyOffice.syncNpc new_Player resolveComputerIdFromWorkstation).
Local Abbreviation syncNpcsToClient :=
  (SkyOffice.syncNpcsToClient new_Player resolveComputerIdFromWorkstation nowIso).
Local Abbreviation onJoin :=
  (SkyOffice.onJoin new_Player resolveComputerIdFromWorkstation nowIso).
Local Abbreviation updateNpcState := (SkyOffice.updateNpcState nowIso).
Local Abbreviation run_event :=
  (SkyOffice.run_event new_Player resolveComputerIdFromWorkstation nowIso).
Local Abbreviation run_events :=
  (SkyOffice.run_events new_Player resolveComputerIdFromWorkstation nowIso).

(** Every assignment is stored under its own [agentId]. *)
Definition self_keyed (r : Room) : Prop :=
  forall K a, npcAssignments r !! K = Some a -> Npc.agentId (Assignment.npc a) = K.

(** The state of the NPC engine is coherent. *)
Definition engine_inv (r : Room) : Prop := keys_agree r /\ self_keyed r.

(** A session id that no NPC key equals. *)
Definition human_session (sid : string) : Prop := forall K, sid <> getNpcKey K.

Lemma engine_inv_upsert p o w :
  engine_inv (room w) -> engine_inv (room (fst (upsertNpc p o w))).
Proof.
  intros [Hk Hs]. split; [now apply keys_agree_upsert|].
  intros K a. destruct (upsertNpc_assignments new_Player resolveComputerIdFromWorkstation
                          nowIso p o w) as (a0 & -> & Ha0 & _).
  destruct (decide (K = Npc.agentId p)) as [->|Hne].
  - rewrite lookup_insert_eq. now intros [= <-].
  - rewrite lookup_insert_ne by congruence. apply Hs.
Qed.

Lemma engine_inv_remove a w :
  engine_inv (room w) -> engine_inv (room (fst (removeNpc a w))).
Proof.
  intros [Hk Hs]. split; [now apply keys_agree_remove|].
  intros K a0. destruct (removeNpc_room a w) as (_ & -> & _).
  intros H. apply lookup_delete_Some in H as [_ H]. now apply Hs.
Qed.

Lemma engine_inv_presence r : engine_inv r -> engine_inv (updatePresenceMetadata r).
Proof. intros H. exact H. Qed.

Lemma engine_inv_ensure force w :
  engine_inv (room w) -> engine_inv (room (ensureNpcAssignmentsLoaded force w)).
Proof.
  intros Inv. unfold SkyOffice.ensureNpcAssignmentsLoaded.
  destruct (negb force && _); [exact Inv|]. cbv zeta.
  apply engine_inv_presence.
  match goal with |- engine_inv (room (fold_left ?f ?l w)) =>
    generalize l; intros rows end.
  revert w Inv. induction rows as [|x rows IH]; intros w Inv; [exact Inv|].
  cbn [fold_left]. apply IH. now apply engine_inv_upsert.
Qed.

(** One step of [syncNpcsToClient], for an assignment of the room. *)
Lemma syncNpc_spec a w :
  exists pl a',
    players (room (syncNpc a w))
    = <[getNpcKey (Npc.agentId (Assignment.npc a)) := pl]> (players (room w))
    /\ npcAssignments (room (syncNpc a w))
       = alter (fun _ => a') (Npc.agentId (Assignment.npc a)) (npcAssignments (room w))
    /\ Npc.agentId (Assignment.npc a') = Npc.agentId (Assignment.npc a).
Proof.
  unfold SkyOffice.syncNpc. cbv zeta.
  match goal with |- context [SkyOffice.assignNpcToWorkstation ?f ?k ?ws ?c ?r] =>
    pose proof (assign_frame f k ws c r) as (Hp & Ha & _);
    destruct (SkyOffice.assignNpcToWorkstation f k ws c r) as [r2 ac] eqn:E
  end.
  cbn [fst] in Hp, Ha. cbn [room with_room set_npcAssignments players npcAssignments].
  rewrite Hp, Ha. cbn [set_players players npcAssignments].
  eexists. eexists. split_and!; [reflexivity | reflexivity |].
  destruct (JS.truthy_opt ac); reflexivity.
Qed.

Lemma engine_inv_syncNpc a w :
  is_Some (npcAssignments (room w) !! Npc.agentId (Assignment.npc a)) ->
  engine_inv (room w) ->
  engine_inv (room (syncNpc a w))
  /\ dom (npcAssignments (room (syncNpc a w))) = dom (npcAssignments (room w)).
Proof.
  intros Hin [Hk Hs]. destruct (syncNpc_spec a w) as (pl & a' & Hp & Ha & Ha').
  set (A := Npc.agentId (Assignment.npc a)) in *.
  split; [split|]; [intros K | intros K a0 |]; rewrite ?Hp, Ha.
  - destruct (decide (K = A)) as [->|Hne].
    + rewrite lookup_insert_eq, lookup_alter_eq. destruct Hin as [x ->]. split; eauto.
    + rewrite lookup_insert_ne, lookup_alter_ne; [apply Hk | congruence |].
      intros E. apply getNpcKey_inj in E. congruence.
  - destruct (decide (K = A)) as [->|Hne].
    + rewrite lookup_alter_eq. destruct (npcAssignments (room w) !! A); [|discriminate].
      now intros [= <-].
    + rewrite lookup_alter_ne by congruence. apply Hs.
  - apply dom_alter_L.
Qed.

Lemma engine_inv_syncNpcs l : forall w,
  (forall a, a ∈ l -> is_Some (npcAssignments (room w) !! Npc.agentId (Assignment.npc a))) ->
  engine_inv (room w) ->
  engine_inv (room (fold_left (fun w' a => syncNpc a w') l w)).
Proof.
  induction l as [|a l IH]; intros w Hl Inv; [exact Inv|]. cbn [fold_left].
  destruct (engine_inv_syncNpc a w) as [Inv' Hdom]; [apply Hl; left | done |].
  apply IH; [|exact Inv'].
  intros b Hb. apply elem_of_dom. rewrite Hdom. apply elem_of_dom. apply Hl. now right.
Qed.

Lemma engine_inv_syncNpcsToClient client w :
  engine_inv (room w) -> engine_inv (room (syncNpcsToClient client w)).
Proof.
  intros Inv. unfold SkyOffice.syncNpcsToClient. cbv zeta.
  pose proof (engine_inv_ensure false w Inv) as Inv1.
  apply engine_inv_syncNpcs; [|exact Inv1].
  intros a Ha. unfold getNpcAssignments in Ha.
  apply list_elem_of_In, in_map_iff in Ha as ([K a0] & <- & Hin).
  apply list_elem_of_In, elem_of_map_to_list in Hin. cbn [snd].
  destruct Inv1 as [_ Hs]. rewrite (Hs K a0 Hin). eauto.
Qed.

Lemma engine_inv_players f r :
  (forall K, f (players r) !! getNpcKey K = players r !! getNpcKey K) ->
  engine_inv r -> engine_inv (set_players f r).
Proof.
  intros Hf [Hk Hs]. split; [|exact Hs].
  intros K. cbn [set_players players npcAssignments]. rewrite Hf. apply Hk.
Qed.

Lemma engine_inv_onJoin client options w :
  human_session (sessionId client) ->
  engine_inv (room w) -> engine_inv (room (onJoin client options w)).
Proof.
  intros Hsid Inv. unfold SkyOffice.onJoin. cbv zeta.
  apply engine_inv_presence, engine_inv_syncNpcsToClient.
  cbn [room emit]. destruct (match userData client with Some u => _ | None => _ end);
    [exact Inv|].
  cbn [room with_room]. apply engine_inv_players; [|exact Inv].
  intros K. apply lookup_insert_ne, Hsid.
Qed.

Lemma engine_inv_onLeave client w :
  human_session (sessionId client) ->
  engine_inv (room w) -> engine_inv (room (onLeave client w)).
Proof.
  intros Hsid [Hk Hs]. unfold onLeave. cbv zeta. cbn [room with_room].
  split; [|exact Hs]. intros K.
  cbn [updatePresenceMetadata set_whiteboards set_computers set_players players npcAssignments].
  rewrite lookup_delete_ne by apply Hsid. apply Hk.
Qed.

Lemma syncNpcToRegistry_room a w : room (syncNpcToRegistry a w) = room w.
Proof. unfold syncNpcToRegistry. repeat case_match; reflexivity. Qed.

(** What [updateNpcState] does to the room. *)
Lemma updateNpcState_room agentId update w :
  match npcAssignments (room w) !! agentId with
  | None => updateNpcState agentId update w = (w, None)
  | Some assignment =>
      exists assignment' player',
        snd (updateNpcState agentId update w) = Some (assignment', player')
        /\ npcAssignments (room (fst (updateNpcState agentId update w)))
           = <[agentId := assignment']> (npcAssignments (room w))
        /\ Npc.agentId (Assignment.npc assignment')
           = Npc.agentId (Assignment.npc assignment)
        /\ players (room (fst (updateNpcState agentId update w)))
           = match player' with
             | Some pl => <[getNpcKey agentId := pl]> (players (room w))
             | None => players (room w)
             end
        /\ (is_Some player' <-> is_Some (players (room w) !! getNpcKey agentId))
        /\ computers (room (fst (updateNpcState agentId update w))) = computers (room w)
  end.
Proof.
  unfold SkyOffice.updateNpcState. cbv zeta.
  destruct (npcAssignments (room w) !! agentId) as [assignment|]; [|reflexivity].
  cbn [fst snd room with_room]. rewrite syncNpcToRegistry_room.
  cbn [room with_store with_room updatePresenceMetadata set_npcAssignments set_players
       npcAssignments players computers].
  eexists. eexists. split_and!; try reflexivity.
  rewrite fmap_is_Some. reflexivity.
Qed.

Lemma engine_inv_update agentId update w :
  engine_inv (room w) -> engine_inv (room (fst (updateNpcState agentId update w))).
Proof.
  intros [Hk Hs]. pose proof (updateNpcState_room agentId update w) as H.
  destruct (npcAssignments (room w) !! agentId) as [assignment|] eqn:Ha;
    [|rewrite H; split; assumption].
  destruct H as (a' & pl' & _ & HA & Hid & HP & Hpl & _). split.
  - intros K. rewrite HA, HP. destruct (decide (K = agentId)) as [->|Hne].
    + rewrite lookup_insert_eq.
      assert (is_Some (players (room w) !! getNpcKey agentId)) as Hp by (apply Hk; eauto).
      apply Hpl in Hp as [pl ->]. rewrite lookup_insert_eq. split; eauto.
    + rewrite lookup_insert_ne by congruence.
      destruct pl' as [pl|]; [|apply Hk].
      rewrite lookup_insert_ne; [apply Hk|]. intros E. apply getNpcKey_inj in E. congruence.
  - intros K a0. rewrite HA. destruct (decide (K = agentId)) as [->|Hne].
    + rewrite lookup_insert_eq. intros [= <-]. rewrite Hid. now apply Hs.
    + rewrite lookup_insert_ne by congruence. apply Hs.
Qed.

Lemma engine_inv_run events : forall w,
  Forall (fun e => match e with
                   | Engine _ | UpdateState _ _ => True
                   | Join client _ | Leave client => human_session (sessionId client)
                   end) events ->
  engine_inv (room w) -> engine_inv (room (run_events events w)).
Proof.
  induction events as [|e events IH]; intros w Hev Inv; [exact Inv|].
  apply Forall_cons in Hev as [He Hev]. cbn [SkyOffice.run_events fold_left].
  apply IH; [exact Hev|].
  destruct e as [[p o|a]|a u|client options|client]; cbn [SkyOffice.run_event run_op].
  - now apply engine_inv_upsert.
  - now apply engine_inv_remove.
  - now apply engine_inv_update.
  - now apply (engine_inv_onJoin client options).
  - now apply engine_inv_onLeave.
Qed.

(** X14. Players and assignments stay paired through the whole life of a room:
    after any sequence of [upsertNpc], [removeNpc], [updateNpcState],
    [onJoin] and [onLeave] on a room that [onCreate] made, over any [npcs] table, the room has a
    player under the key of exactly the agents that have an assignment,
    and every assignment is stored under its own [agentId] -- provided no
    client's session id is an NPC key. *)
Theorem players_paired_through_life roomId name description ns pw rows events K :
  Forall (fun e => match e with
                   | Engine _ | UpdateState _ _ => True
                   | Join client _ | Leave client => human_session (sessionId client)
                   end) events ->
  let r := room (run_events events (created (onCreate roomId name description ns pw) rows)) in
  (is_Some (players r !! getNpcKey K) <-> is_Some (npcAssignments r !! K))
  /\ (forall a, npcAssignments r !! K = Some a -> Npc.agentId (Assignment.npc a) = K).
Proof.
  intros Hev r.
  assert (engine_inv r) as [Hk Hs].
  { apply engine_inv_run; [exact Hev|]. split.
    - intros K'. cbn. rewrite !lookup_empty. split; intros [? ?]; discriminate.
    - intros K' a. cbn. rewrite lookup_empty. discriminate. }
  split; [apply Hk | apply Hs].
Qed.

(** *** [updateNpcState] *)

(** X15. [updateNpcState] returns [null] exactly when the agent has no
    assignment, and then changes nothing. Otherwise the assignment takes
    the update's [workstationId], but no seat moves: every computer's
    [connectedUser] and the assignment's [computerId] are as before, and
    no player or assignment is added or dropped. *)
Theorem updateNpcState_keeps_seats agentId update w :
  let res := updateNpcState agentId update w in
  computers (room (fst res)) = computers (room w)
  /\ dom (players (room (fst res))) = dom (players (room w))
  /\ dom (npcAssignments (room (fst res))) = dom (npcAssignments (room w))
  /\ (npcAssignments (room w) !! agentId = None -> res = (w, None))
  /\ (forall assignment,
        npcAssignments (room w) !! agentId = Some assignment ->
        exists assignment' player',
          snd res = Some (assignment', player')
          /\ npcAssignments (room (fst res)) !! agentId = Some assignment'
          /\ player' = players (room (fst res)) !! getNpcKey agentId
          /\ Npc.workstationId (Assignment.npc assignment')
             = default (Npc.workstationId (Assignment.npc assignment))
                 (upd_workstationId update)
          /\ Npc.computerId (Assignment.npc assignment')
             = Npc.computerId (Assignment.npc assignment)).
Proof.
  intros res. subst res. unfold SkyOffice.updateNpcState. cbv zeta.
  destruct (npcAssignments (room w) !! agentId) as [assignment|] eqn:Ha.
  - cbn [fst snd room with_room]. rewrite syncNpcToRegistry_room.
    cbn [room with_store with_room updatePresenceMetadata set_npcAssignments set_players
         npcAssignments players computers].
    split_and!.
    + reflexivity.
    + destruct (players (room w) !! getNpcKey agentId) as [pl|] eqn:Hp; cbn [fmap option_fmap
        option_map]; [|reflexivity].
      rewrite dom_insert_L. apply elem_of_dom_2 in Hp. set_solver.
    + rewrite dom_insert_L. apply elem_of_dom_2 in Ha. set_solver.
    + discriminate.
    + intros ? [= <-]. eexists. eexists. split_and!; [reflexivity | | | reflexivity..].
      * apply lookup_insert_eq.
      * destruct (players (room w) !! getNpcKey agentId) as [pl|] eqn:Hp;
          cbn [fmap option_fmap option_map]; [now rewrite lookup_insert_eq | now rewrite Hp].
  - cbn [fst snd]. split_and!; try reflexivity. discriminate.
Qed.

(** *** [removeNpcEverywhere] *)

(** [removeNpc] acts on the room alone. *)
Definition room_without (agentId : string) (r : Room) : Room :=
  room (fst (removeNpc agentId {| room := r; npcStore := []; effects := [] |})).

Lemma removeNpc_room_without a w : room (fst (removeNpc a w)) = room_without a (room w).
Proof.
  unfold room_without, removeNpc, syncNpcRemovalFromRegistry.
  repeat (case_match; simpl); reflexivity.
Qed.

Lemma removeNpc_existed a w :
  snd (removeNpc a w) = bool_decide (is_Some (npcAssignments (room w) !! a)).
Proof. apply removeNpc_room. Qed.

Lemma removeNpcEverywhere_spec a d table log :
  exists table' log',
    removeNpcEverywhere a d table log
    = ({| activeRooms := map (fun e => (fst e, room_without a (snd e))) (activeRooms d);
          namespaceRooms := namespaceRooms d |},
       table', log',
       existsb (fun e => bool_decide (is_Some (npcAssignments (snd e) !! a))) (activeRooms d))
    /\ (activeRooms d <> [] -> JS.truthy a = true ->
        forall row, row ∈ table' -> Persisted.agentId row <> a).
Proof.
  unfold removeNpcEverywhere. cbv zeta.
  set (step := fun (acc : list (string * Room) * list Persisted.t * list Effect * bool)
                   (entry : string * Room) => _).
  assert (forall l visited table log removed,
            exists table' log',
              fold_left step l (visited, table, log, removed)
              = ((visited ++ map (fun e => (fst e, room_without a (snd e))) l)%list,
                 table', log',
                 removed
                 || existsb (fun e => bool_decide (is_Some (npcAssignments (snd e) !! a))) l)
              /\ ((l <> [] \/ forall row, row ∈ table -> Persisted.agentId row <> a) ->
                  JS.truthy a = true ->
                  forall row, row ∈ table' -> Persisted.agentId row <> a)) as Hfold.
  { induction l as [|e l IH]; intros visited table0 log0 removed.
    - exists table0, log0. cbn [fold_left map existsb]. rewrite app_nil_r, orb_false_r.
      split; [reflexivity|]. intros [?|H] _; [done | exact H].
    - cbn [fold_left]. unfold step at 2.
      set (w0 := {| room := snd e; npcStore := table0; effects := log0 |}).
      destruct (IH (visited ++ [(fst e, room (fst (removeNpc a w0)))])%list
                  (npcStore (fst (removeNpc a w0))) (effects (fst (removeNpc a w0)))
                  (removed || snd (removeNpc a w0))) as (table' & log' & -> & Hrows).
      exists table', log'. split.
      + rewrite removeNpc_room_without, removeNpc_existed. cbn [map existsb room w0].
        now rewrite <- app_assoc, orb_assoc.
      + intros _ Hta. apply Hrows; [|exact Hta]. right. intros row Hin.
        rewrite removeNpc_store in Hin. unfold removeNpcPersist in Hin.
        rewrite Hta in Hin. cbn [negb] in Hin.
        apply list_elem_of_In, filter_In in Hin as [_ Hf].
        now apply negb_true_iff, String.eqb_neq in Hf. }
  destruct (Hfold (activeRooms d) [] table log false) as (table' & log' & -> & Hrows).
  exists table', log'. split; [reflexivity|].
  intros Hne. apply Hrows. now left.
Qed.

(** X16. [removeNpcEverywhere] clears the agent from every active room: no room
    keeps a player, an assignment or a seat for it, the rooms and the
    namespace register are otherwise the same, and the result is [true]
    exactly when some room held an assignment under that [agentId]. When
    every assignment is stored under its own [agentId],
    [findRoomWithAgent] then finds no room; and with at least one room and
    a non-empty [agentId] the [npcs] table has no row for the agent. *)
Theorem removeNpcEverywhere_clears a d table log :
  let res := removeNpcEverywhere a d table log in
  let d' := fst (fst (fst res)) in
  map fst (activeRooms d') = map fst (activeRooms d)
  /\ namespaceRooms d' = namespaceRooms d
  /\ (forall id r, (id, r) ∈ activeRooms d' ->
        players r !! getNpcKey a = None /\ npcAssignments r !! a = None
        /\ forall c, ~ occupies r (getNpcKey a) c)
  /\ (snd res = true
      <-> exists id r, (id, r) ∈ activeRooms d /\ is_Some (npcAssignments r !! a))
  /\ ((forall id r, (id, r) ∈ activeRooms d -> self_keyed r) ->
      findRoomWithAgent d' a = None)
  /\ (activeRooms d <> [] -> JS.truthy a = true ->
      forall row, row ∈ snd (fst (fst res)) -> Persisted.agentId row <> a).
Proof.
  intros res d'. subst d' res.
  destruct (removeNpcEverywhere_spec a d table log) as (table' & log' & -> & Hrows).
  cbn [fst snd activeRooms namespaceRooms].
  assert (forall r, players (room_without a r) = delete (getNpcKey a) (players r)
                    /\ npcAssignments (room_without a r) = delete a (npcAssignments r)
                    /\ computers (room_without a r)
                       = (fun u => u ∖ {[getNpcKey a]}) <$> computers r) as Hroom.
  { intros r. unfold room_without.
    destruct (removeNpc_room a {| room := r; npcStore := []; effects := [] |})
      as (Hp & Ha & Hc & _). auto. }
  split_and!.
  - rewrite map_map. reflexivity.
  - reflexivity.
  - intros id r Hin. apply list_elem_of_In, in_map_iff in Hin as ([id0 r0] & [= <- <-] & _).
    destruct (Hroom r0) as (Hp & Ha & Hc). rewrite Hp, Ha, !lookup_delete_eq.
    split_and!; [reflexivity..|].
    intros c Hocc. apply (occupies_cleared resolveComputerIdFromWorkstation _ _ _ _ _ Hc)
      in Hocc as [_ Hne]. congruence.
  - rewrite existsb_exists. split.
    + intros ([id r] & Hin & Hb). apply bool_decide_eq_true in Hb.
      exists id, r. split; [now apply list_elem_of_In | exact Hb].
    + intros (id & r & Hin & Hs). exists (id, r).
      split; [now apply list_elem_of_In | now apply bool_decide_eq_true].
  - intros Hself. unfold findRoomWithAgent. cbn [activeRooms].
    match goal with |- snd <$> ?f = None => destruct f as [[id r]|] eqn:Hfind end;
      [|reflexivity].
    exfalso. apply find_some in Hfind as [Hin Hex].
    apply in_map_iff in Hin as ([id0 r0] & [= <- <-] & Hin0). cbn [snd] in Hex.
    apply existsb_exists in Hex as (asg & Hasg & Heq). apply String.eqb_eq in Heq.
    unfold getNpcAssignments in Hasg.
    apply in_map_iff in Hasg as ([K asg0] & Hsnd & HK). cbn [snd] in Hsnd. subst asg0.
    apply list_elem_of_In, elem_of_map_to_list in HK.
    destruct (Hroom r0) as (_ & Ha & _). rewrite Ha in HK.
    apply lookup_delete_Some in HK as [Hne HK].
    apply list_elem_of_In in Hin0. apply (Hself _ _ Hin0) in HK. congruence.
  - exact Hrows.
Qed.

End RoomLife.

(** The pairing at a sample life: an agent is deployed, a client joins and
    leaves again. *)
Lemma players_paired_through_life_witness :
  let events :=
    [SkyOffice.Engine (SkyOffice.Upsert (Samples.payload "Bot" None) Samples.write_through);
     SkyOffice.UpdateState "Bot" Samples.move_to_lounge;
     SkyOffice.Join (Samples.fresh_client "s1") (Samples.npc_options "" "public" "");
     SkyOffice.Leave (Samples.fresh_client "s1")] in
  let r := SkyOffice.room
             (SkyOffice.run_events Samples.new_Player Samples.seats
                "2026-01-01T00:00:00.000Z" events Samples.public_room) in
  is_Some (SkyOffice.npcAssignments r !! "Bot")
  /\ is_Some (SkyOffice.players r !! SkyOffice.getNpcKey "Bot")
  /\ SkyOffice.players r !! "s1" = None.
Proof.
  intros events r.
  assert (is_Some (SkyOffice.npcAssignments r !! "Bot")) as Ha
    by (vm_compute; eexists; reflexivity).
  split; [exact Ha|]. split; [|vm_compute; reflexivity].
  apply (players_paired_through_life Samples.new_Player Samples.seats
           "2026-01-01T00:00:00.000Z" "r1" "public" "" None None [] events "Bot");
    [|exact Ha].
  repeat constructor; intros K; discriminate.
Defined.
